(** * dynamic_complex.h: reference-counted complex numbers over three carriers

    A shallow embedding of [src/dynamic_complex.h] (Gaussian integers,
    rational complex numbers, double complex numbers; reference counting with
    immortal singletons; canonical rendering; conversions) and the proofs of
    the properties its specification states.

    Layout: the two external engines and the IEEE-754 layer first, then the
    object store and the assertion monad, then the three implementations in
    the order of the header, then the theorems. *)

From Stdlib Require Import ZArith QArith Lia Bool String Ascii.
From Stdlib Require Import DecimalString DecimalZ DecimalPos.
From Stdlib Require Import Floats.SpecFloat.
From stdpp Require Import base option gmap strings.

Local Open Scope Z_scope.

(* ====================================================================== *)
(** ** The exact-integer engine (devDeps/dynamic_int.h) *)
(* ====================================================================== *)

(** The header includes [devDeps/dynamic_int.h] and
    [devDeps/dynamic_fraction.h]; neither is part of the sources.  The
    specification names their contract: arbitrary-precision integers, and
    fractions "stored in lowest terms with strictly positive denominator".
    The definitions of this section and the next model that contract. *)

(** Modelled from the spec: a [di_int] object of the missing integer engine
    is its mathematical value.  The engine's own reference counts are not
    represented; a [di_int] handle that may be NULL is an [option di_int]. *)
Definition di_int := Z.

(** Modelled from the spec: [di_from_int64] of the missing integer engine,
    "construct-from-machine-integer". *)
Definition di_from_int64 (v : Z) : di_int := v.

(** Modelled from the spec: [di_one] of the missing integer engine. *)
Definition di_one : di_int := 1.

(** Modelled from the spec: [di_retain] of the missing integer engine; it
    returns its argument, and the count it raises is not represented. *)
Definition di_retain (a : di_int) : di_int := a.

(** Modelled from the spec: [di_add], [di_sub], [di_mul] and [di_negate] of
    the missing integer engine are exact integer arithmetic. *)
Definition di_add (a b : di_int) : di_int := a + b.
Definition di_sub (a b : di_int) : di_int := a - b.
Definition di_mul (a b : di_int) : di_int := a * b.
Definition di_negate (a : di_int) : di_int := - a.

(** Modelled from the spec: [di_is_zero] and [di_is_negative] of the missing
    integer engine. *)
Definition di_is_zero (a : di_int) : bool := a =? 0.
Definition di_is_negative (a : di_int) : bool := a <? 0.

(** Modelled from the spec: [di_compare] of the missing integer engine
    returns a C int, negative, zero or positive. *)
Definition di_compare (a b : di_int) : Z :=
  match a ?= b with Lt => -1 | Eq => 0 | Gt => 1 end.

(** Modelled from the spec: [di_to_string] of the missing integer engine,
    "the integer engine's base-10 renderer"; the header only ever calls it
    with base 10, so the base is not a parameter here. *)
Definition di_to_string (a : di_int) : string :=
  NilZero.string_of_int (Z.to_int a).

(* ====================================================================== *)
(** ** The exact-rational engine (devDeps/dynamic_fraction.h) *)
(* ====================================================================== *)

(** Modelled from the spec: a [df_frac] object of the missing rational
    engine is a numerator and a denominator. *)
Record df_frac : Type := Frac { numerator : Z; denominator : Z }.

(** Modelled from the spec: the reduction the missing rational engine
    applies to whatever it builds, "reduced to lowest terms with positive
    denominator". *)
Definition df_normalize (n d : Z) : df_frac :=
  let g := Z.gcd n d in
  if d <? 0 then Frac (- n / g) (- d / g) else Frac (n / g) (d / g).

(** Modelled from the spec: [df_zero], [df_one] and [df_neg_one] of the
    missing rational engine. *)
Definition df_zero : df_frac := Frac 0 1.
Definition df_one : df_frac := Frac 1 1.
Definition df_neg_one : df_frac := Frac (-1) 1.

(** Modelled from the spec: [df_retain] of the missing rational engine. *)
Definition df_retain (a : df_frac) : df_frac := a.

(** Modelled from the spec: [df_add], [df_sub], [df_mul] and [df_negate] of
    the missing rational engine are exact rational arithmetic with a reduced
    result. *)
Definition df_add (a b : df_frac) : df_frac :=
  df_normalize (numerator a * denominator b + numerator b * denominator a)
               (denominator a * denominator b).
Definition df_sub (a b : df_frac) : df_frac :=
  df_normalize (numerator a * denominator b - numerator b * denominator a)
               (denominator a * denominator b).
Definition df_mul (a b : df_frac) : df_frac :=
  df_normalize (numerator a * numerator b) (denominator a * denominator b).
Definition df_negate (a : df_frac) : df_frac :=
  Frac (- numerator a) (denominator a).

(** Modelled from the spec: the quotient [df_div] of the missing rational
    engine returns when its divisor is not zero; [df_div] below guards it
    with the engine's assertion. *)
Definition df_quot (a b : df_frac) : df_frac :=
  df_normalize (numerator a * denominator b) (denominator a * numerator b).

(** Modelled from the spec: [df_is_zero], [df_is_negative] and
    [df_is_integer] of the missing rational engine; on a reduced fraction
    "is-integer" is a denominator of one. *)
Definition df_is_zero (a : df_frac) : bool := numerator a =? 0.
Definition df_is_negative (a : df_frac) : bool := numerator a <? 0.
Definition df_is_integer (a : df_frac) : bool := denominator a =? 1.

(** Modelled from the spec: [df_eq] of the missing rational engine,
    "equality compares reduced forms component-wise for exact equality". *)
Definition df_eq (a b : df_frac) : bool :=
  (numerator a =? numerator b) && (denominator a =? denominator b).

(** Modelled from the spec: [df_cmp] of the missing rational engine,
    "compare-order", by cross-multiplication; the result is a C int. *)
Definition df_cmp (a b : df_frac) : Z :=
  match numerator a * denominator b ?= numerator b * denominator a with
  | Lt => -1 | Eq => 0 | Gt => 1
  end.

(** Modelled from the spec: [df_to_string] of the missing rational engine,
    "the rational engine's reduced-form renderer"; the header's examples
    print an integer-valued fraction without a denominator ("-i", "0") and
    the others as "n/d". *)
Definition df_to_string (a : df_frac) : string :=
  if denominator a =? 1 then di_to_string (numerator a)
  else di_to_string (numerator a) +:+ "/" +:+ di_to_string (denominator a).

(** The invariant the engine maintains, and the rational a fraction
    denotes. *)
Definition df_reduced (a : df_frac) : Prop :=
  0 < denominator a /\ Z.gcd (numerator a) (denominator a) = 1.

Definition df_to_Q (a : df_frac) : Q :=
  Qmake (numerator a) (Z.to_pos (denominator a)).

(* ====================================================================== *)
(** ** IEEE-754 binary64 *)
(* ====================================================================== *)

(** A C [double] is a binary64 datum: [spec_float] at precision 53 and
    maximal exponent 1024, with the correctly rounded operations of
    [SpecFloat].  [S754_nan] stands for every NaN: the sign bit and the
    payload of a NaN are not represented, so nothing stated below
    distinguishes one NaN from another. *)
Definition double := spec_float.
Definition prec : Z := 53.
Definition emax : Z := 1024.

Definition double_zero : double := S754_zero false.
Definition double_of_Z (n : Z) : double := binary_normalize prec emax n 0 false.
Definition double_one : double := double_of_Z 1.

Definition double_add : double -> double -> double := SFadd prec emax.
Definition double_sub : double -> double -> double := SFsub prec emax.
Definition double_mul : double -> double -> double := SFmul prec emax.
Definition double_div : double -> double -> double := SFdiv prec emax.
Definition double_neg : double -> double := SFopp.
Definition double_eqb : double -> double -> bool := SFeqb.
Definition double_ltb : double -> double -> bool := SFltb.

Definition isnan (x : double) : bool :=
  match x with S754_nan => true | _ => false end.
Definition isinf (x : double) : bool :=
  match x with S754_infinity _ => true | _ => false end.

(** [round] of math.h: nearest integer, halfway cases away from zero.  A
    finite double with a non-negative exponent is an integer already. *)
Definition round (x : double) : double :=
  match x with
  | S754_finite s m e =>
      if 0 <=? e then x
      else
        let q := Z.pos m / 2 ^ (- e) in
        let r := Z.pos m mod 2 ^ (- e) in
        let k := if 2 ^ (- e) <=? 2 * r then q + 1 else q in
        binary_normalize prec emax (cond_Zopp s k) 0 s
  | _ => x
  end.

(** The conversion [(int64_t) x]: truncation toward zero.  C leaves the
    conversion undefined when the truncated value is not representable
    (and for NaN and the infinities): [None]. *)
Definition int64_min : Z := - 2 ^ 63.
Definition int64_max : Z := 2 ^ 63 - 1.

Definition double_trunc (x : double) : option Z :=
  match x with
  | S754_zero _ => Some 0
  | S754_finite s m e =>
      Some (cond_Zopp s (if 0 <=? e then Z.pos m * 2 ^ e
                         else Z.pos m / 2 ^ (- e)))
  | _ => None
  end.

Definition double_to_int64 (x : double) : option Z :=
  match double_trunc x with
  | Some v => if (int64_min <=? v) && (v <=? int64_max) then Some v else None
  | None => None
  end.

(** Modelled from the spec: [di_to_double] of the missing integer engine,
    "each integer converted to nearest-representable double". *)
Definition di_to_double (a : di_int) : double := double_of_Z a.

(** Modelled from the spec: [df_to_double] of the missing rational engine,
    "each reduced fraction converted to double by division - standard
    floating rounding applies". *)
Definition df_to_double (a : df_frac) : double :=
  double_div (di_to_double (numerator a)) (di_to_double (denominator a)).

(* ====================================================================== *)
(** ** Objects, arenas and the process state *)
(* ====================================================================== *)

(** A pointer to a heap object; a handle is a pointer or NULL. *)
Definition loc := positive.
Definition handle := option loc.
Definition NULL : handle := None.

(** The three opaque handle types of the header. *)
Definition dc_complex_int := handle.
Definition dc_complex_frac := handle.
Definition dc_complex_double := handle.

(** Real and imaginary part; at type [double] this is C's [double complex]. *)
Record complex (T : Type) : Type := Complex { real : T; imag : T }.
Arguments Complex {T} _ _.
Arguments real {T} _.
Arguments imag {T} _.

(** The structs [dc_complex_int_internal], [dc_complex_frac_internal] and
    [dc_complex_double_internal] are a [ref_count] followed by the
    components.  [ref_count] is a [size_t], taken to be 64 bits wide. *)
Record cell (T : Type) : Type := Cell { ref_count : Z; value : T }.
Arguments Cell {T} _ _.
Arguments ref_count {T} _.
Arguments value {T} _.

Definition dc_complex_int_internal := cell (complex di_int).
Definition dc_complex_frac_internal := cell (complex df_frac).
Definition dc_complex_double_internal := cell (complex double).

Definition SIZE_MAX : Z := 2 ^ 64 - 1.
Definition size_t (v : Z) : Z := v mod 2 ^ 64.

(** The five file-scope singleton pointers each type has
    ([dc_int_zero_singleton], ..., [dc_double_neg_i_singleton]). *)
Inductive singleton : Set :=
| zero_singleton | one_singleton | i_singleton
| neg_one_singleton | neg_i_singleton.

Global Instance singleton_eq_dec : EqDecision singleton.
Proof. solve_decision. Defined.

(** The live objects of one type together with its singleton pointers.
    A freed object is absent from [objects]. *)
Record arena (T : Type) : Type :=
  Arena { objects : gmap loc (cell T); statics : singleton -> handle }.
Arguments Arena {T} _ _.
Arguments objects {T} _.
Arguments statics {T} _.

Record world : Type := World {
  ints : arena (complex di_int);
  fracs : arena (complex df_frac);
  doubles : arena (complex double)
}.

Definition empty_arena {T} : arena T := Arena ∅ (fun _ => NULL).
Definition initial_world : world := World empty_arena empty_arena empty_arena.

(** Which arena an operation works on. *)
Record kind (T : Type) : Type := Kind {
  arena_of : world -> arena T;
  with_arena : arena T -> world -> world
}.
Arguments arena_of {T} _ _.
Arguments with_arena {T} _ _ _.

Definition Int : kind (complex di_int) :=
  Kind _ ints (fun a w => World a (fracs w) (doubles w)).
Definition Rat : kind (complex df_frac) :=
  Kind _ fracs (fun a w => World (ints w) a (doubles w)).
Definition Dbl : kind (complex double) :=
  Kind _ doubles (fun a w => World (ints w) (fracs w) a).

(* ====================================================================== *)
(** ** The assertion monad *)
(* ====================================================================== *)

(** A call returns a result and the new state, or aborts the process on a
    failed assertion, or has no defined behaviour ([Fault]: a NULL or
    dangling pointer is dereferenced, or a conversion is out of range). *)
Inductive outcome (S A : Type) : Type :=
| Ret (a : A) (s : S)
| AssertFail (msg : string)
| Fault.
Arguments Ret {S A} _ _.
Arguments AssertFail {S A} _.
Arguments Fault {S A}.

Definition M (S A : Type) : Type := S -> outcome S A.

Definition ret {S A} (a : A) : M S A := fun s => Ret a s.

Definition bind {S A B} (m : M S A) (f : A -> M S B) : M S B := fun s =>
  match m s with
  | Ret a s' => f a s'
  | AssertFail msg => AssertFail msg
  | Fault => Fault
  end.

Declare Scope M_scope.
Delimit Scope M_scope with M.
Notation "x ← y ; z" := (bind y (fun x => z)) : M_scope.
Notation "y ;; z" := (bind y (fun _ => z)) : M_scope.
Local Open Scope M_scope.

Definition fault {S A} : M S A := fun _ => Fault.

(** [DC_ASSERT(cond && "message")]. *)
Definition DC_ASSERT {S} (cond : bool) (msg : string) : M S unit :=
  fun s => if cond then Ret tt s else AssertFail msg.

(** Run an arena computation on one arena of the world. *)
Definition on {T A} (K : kind T) (m : M (arena T) A) : M world A := fun w =>
  match m (arena_of K w) with
  | Ret a s => Ret a (with_arena K s w)
  | AssertFail msg => AssertFail msg
  | Fault => Fault
  end.

Definition notnull (c : handle) : bool :=
  match c with Some _ => true | None => false end.

Section Primitives.
Context {T : Type}.

(** [DC_MALLOC] followed by the stores that initialise the object.  Memory
    is unbounded: the allocation-failure assertion never fires. *)
Definition DC_MALLOC (init : cell T) : M (arena T) handle := fun a =>
  let p := fresh (dom (objects a)) in
  Ret (Some p) (Arena (<[p := init]> (objects a)) (statics a)).

Definition DC_FREE (c : handle) : M (arena T) unit := fun a =>
  match c with
  | Some p =>
      match objects a !! p with
      | Some _ => Ret tt (Arena (delete p (objects a)) (statics a))
      | None => Fault
      end
  | None => Ret tt a
  end.

(** [*c] for a handle [c]. *)
Definition deref (c : handle) : M (arena T) (cell T) := fun a =>
  match c with
  | Some p =>
      match objects a !! p with
      | Some o => Ret o a
      | None => Fault
      end
  | None => Fault
  end.

Definition DC_ATOMIC_STORE (c : handle) (v : Z) : M (arena T) unit :=
  o ← deref c;
  fun a =>
    match c with
    | Some p => Ret tt (Arena (<[p := Cell v (value o)]> (objects a)) (statics a))
    | None => Fault
    end.

(** Both return the previous count; the new one wraps at [SIZE_MAX]. *)
Definition DC_ATOMIC_FETCH_ADD (c : handle) (v : Z) : M (arena T) Z :=
  o ← deref c;
  DC_ATOMIC_STORE c (size_t (ref_count o + v));;
  ret (ref_count o).

Definition DC_ATOMIC_FETCH_SUB (c : handle) (v : Z) : M (arena T) Z :=
  o ← deref c;
  DC_ATOMIC_STORE c (size_t (ref_count o - v));;
  ret (ref_count o).

Definition get_static (s : singleton) : M (arena T) handle :=
  fun a => Ret (statics a s) a.

Definition set_static (s : singleton) (c : handle) : M (arena T) unit :=
  fun a => Ret tt (Arena (objects a)
                         (fun s' => if decide (s' = s) then c else statics a s')).

(** [*c == x_singleton] for a non-NULL [*c], over the five pointers. *)
Definition is_singleton (c : handle) : M (arena T) bool := fun a =>
  Ret (notnull c &&
       (bool_decide (c = statics a zero_singleton)
        || bool_decide (c = statics a one_singleton)
        || bool_decide (c = statics a i_singleton)
        || bool_decide (c = statics a neg_one_singleton)
        || bool_decide (c = statics a neg_i_singleton))) a.

(** The body shared by [dc_int_retain], [dc_frac_retain] and
    [dc_double_retain]. *)
Definition retain (msg : string) (c : handle) : M (arena T) handle :=
  DC_ASSERT (notnull c) msg;;
  _ ← DC_ATOMIC_FETCH_ADD c 1;
  ret c.

(** The body shared by the three release functions.  The argument is a
    pointer to the caller's handle variable: [None] is a NULL pointer,
    [Some h] a variable holding [h].  The result is the variable's content
    afterwards.  Releasing the components ([di_release], [df_release]) has
    no effect on the state modelled here. *)
Definition release (c : option handle) : M (arena T) (option handle) :=
  match c with
  | None => ret None
  | Some None => ret (Some NULL)
  | Some (Some p) =>
      old_count ← DC_ATOMIC_FETCH_SUB (Some p) 1;
      if old_count =? 1 then
        single ← is_singleton (Some p);
        if single then ret (Some NULL)
        else DC_FREE (Some p);; ret (Some NULL)
      else ret (Some NULL)
  end.
End Primitives.

(** The body shared by the fifteen singleton accessors: create the constant
    on first use with the saturated count [SIZE_MAX/2], then retain it. *)
Definition singleton_accessor {T} (K : kind T) (s : singleton)
    (create : M world handle) (retain_it : handle -> M world handle)
  : M world handle :=
  cur ← on K (get_static s);
  (if notnull cur then ret tt
   else fresh_obj ← create;
        on K (set_static s fresh_obj);;
        on K (DC_ATOMIC_STORE fresh_obj (SIZE_MAX / 2)));;
  cur' ← on K (get_static s);
  retain_it cur'.

(** The components of the object behind a handle: [c->real], [c->imag],
    [c->value]. *)
Definition fields {T} (K : kind T) (c : handle) : M world T :=
  o ← on K (deref c); ret (value o).

(** Modelled from the spec: [df_from_ints], [df_from_di] and [df_div] of the
    missing rational engine.  A zero denominator and a zero divisor are
    rejected by an assertion of the engine ("zero divisor ... trigger an
    immediate assertion failure"); the message texts are the engine's and
    are not known. *)
Definition df_from_ints {S} (num den : Z) : M S df_frac :=
  DC_ASSERT (negb (den =? 0)) "df_from_ints: zero denominator";;
  ret (df_normalize num den).

Definition df_from_di {S} (num den : di_int) : M S df_frac :=
  DC_ASSERT (negb (di_is_zero den)) "df_from_di: zero denominator";;
  ret (df_normalize num den).

Definition df_div {S} (a b : df_frac) : M S df_frac :=
  DC_ASSERT (negb (df_is_zero b)) "df_div: division by zero";;
  ret (df_quot a b).

(* ====================================================================== *)
(** ** Integer complex implementation *)
(* ====================================================================== *)

(** The [int64_t] parameters range over [int64_min .. int64_max]. *)
Definition dc_int_from_ints (real imag : Z) : M world dc_complex_int :=
  result ← on Int (DC_MALLOC (Cell 1 (Complex (di_from_int64 real)
                                              (di_from_int64 imag))));
  ret result.

Definition dc_int_from_di (real imag : option di_int) : M world dc_complex_int :=
  DC_ASSERT (bool_decide (is_Some real)) "dc_int_from_di: real part cannot be NULL";;
  DC_ASSERT (bool_decide (is_Some imag)) "dc_int_from_di: imaginary part cannot be NULL";;
  match real, imag with
  | Some re, Some im =>
      result ← on Int (DC_MALLOC (Cell 1 (Complex (di_retain re) (di_retain im))));
      ret result
  | _, _ => fault
  end.

Definition dc_int_retain (c : dc_complex_int) : M world dc_complex_int :=
  on Int (retain "dc_int_retain: cannot retain NULL" c).

Definition dc_int_release (c : option dc_complex_int)
  : M world (option dc_complex_int) :=
  on Int (release c).

Definition dc_int_zero : M world dc_complex_int :=
  singleton_accessor Int zero_singleton (dc_int_from_ints 0 0) dc_int_retain.
Definition dc_int_one : M world dc_complex_int :=
  singleton_accessor Int one_singleton (dc_int_from_ints 1 0) dc_int_retain.
Definition dc_int_i : M world dc_complex_int :=
  singleton_accessor Int i_singleton (dc_int_from_ints 0 1) dc_int_retain.
Definition dc_int_neg_one : M world dc_complex_int :=
  singleton_accessor Int neg_one_singleton (dc_int_from_ints (-1) 0) dc_int_retain.
Definition dc_int_neg_i : M world dc_complex_int :=
  singleton_accessor Int neg_i_singleton (dc_int_from_ints 0 (-1)) dc_int_retain.

Definition dc_int_copy (c : dc_complex_int) : M world dc_complex_int :=
  DC_ASSERT (notnull c) "dc_int_copy: cannot copy NULL";;
  c' ← fields Int c;
  dc_int_from_di (Some (real c')) (Some (imag c')).

Definition dc_int_add (a b : dc_complex_int) : M world dc_complex_int :=
  DC_ASSERT (notnull a) "dc_int_add: first operand cannot be NULL";;
  DC_ASSERT (notnull b) "dc_int_add: second operand cannot be NULL";;
  a' ← fields Int a;
  b' ← fields Int b;
  let re := di_add (real a') (real b') in
  let im := di_add (imag a') (imag b') in
  result ← dc_int_from_di (Some re) (Some im);
  ret result.

Definition dc_int_sub (a b : dc_complex_int) : M world dc_complex_int :=
  DC_ASSERT (notnull a) "dc_int_sub: first operand cannot be NULL";;
  DC_ASSERT (notnull b) "dc_int_sub: second operand cannot be NULL";;
  a' ← fields Int a;
  b' ← fields Int b;
  let re := di_sub (real a') (real b') in
  let im := di_sub (imag a') (imag b') in
  result ← dc_int_from_di (Some re) (Some im);
  ret result.

Definition dc_int_mul (a b : dc_complex_int) : M world dc_complex_int :=
  DC_ASSERT (notnull a) "dc_int_mul: first operand cannot be NULL";;
  DC_ASSERT (notnull b) "dc_int_mul: second operand cannot be NULL";;
  a' ← fields Int a;
  b' ← fields Int b;
  let ac := di_mul (real a') (real b') in
  let bd := di_mul (imag a') (imag b') in
  let ad := di_mul (real a') (imag b') in
  let bc := di_mul (imag a') (real b') in
  let re := di_sub ac bd in
  let im := di_add ad bc in
  result ← dc_int_from_di (Some re) (Some im);
  ret result.

Definition dc_int_negate (c : dc_complex_int) : M world dc_complex_int :=
  DC_ASSERT (notnull c) "dc_int_negate: operand cannot be NULL";;
  c' ← fields Int c;
  let re := di_negate (real c') in
  let im := di_negate (imag c') in
  result ← dc_int_from_di (Some re) (Some im);
  ret result.

Definition dc_int_conj (c : dc_complex_int) : M world dc_complex_int :=
  DC_ASSERT (notnull c) "dc_int_conj: operand cannot be NULL";;
  c' ← fields Int c;
  let re := di_retain (real c') in
  let im := di_negate (imag c') in
  result ← dc_int_from_di (Some re) (Some im);
  ret result.

Definition dc_int_real (c : dc_complex_int) : M world di_int :=
  DC_ASSERT (notnull c) "dc_int_real: operand cannot be NULL";;
  c' ← fields Int c;
  ret (di_retain (real c')).

Definition dc_int_imag (c : dc_complex_int) : M world di_int :=
  DC_ASSERT (notnull c) "dc_int_imag: operand cannot be NULL";;
  c' ← fields Int c;
  ret (di_retain (imag c')).

Definition dc_int_eq (a b : dc_complex_int) : M world bool :=
  DC_ASSERT (notnull a) "dc_int_eq: first operand cannot be NULL";;
  DC_ASSERT (notnull b) "dc_int_eq: second operand cannot be NULL";;
  a' ← fields Int a;
  b' ← fields Int b;
  ret ((di_compare (real a') (real b') =? 0)
       && (di_compare (imag a') (imag b') =? 0)).

Definition dc_int_is_zero (c : dc_complex_int) : M world bool :=
  DC_ASSERT (notnull c) "dc_int_is_zero: operand cannot be NULL";;
  c' ← fields Int c;
  ret (di_is_zero (real c') && di_is_zero (imag c')).

Definition dc_int_is_real (c : dc_complex_int) : M world bool :=
  DC_ASSERT (notnull c) "dc_int_is_real: operand cannot be NULL";;
  c' ← fields Int c;
  ret (di_is_zero (imag c')).

Definition dc_int_is_imag (c : dc_complex_int) : M world bool :=
  DC_ASSERT (notnull c) "dc_int_is_imag: operand cannot be NULL";;
  c' ← fields Int c;
  ret (di_is_zero (real c')).

(** [strcmp(s, t) == 0]. *)
Definition streq (s t : string) : bool := String.eqb s t.

(** The result buffer has [strlen(real_str) + strlen(imag_str) + 10] bytes,
    and the longest text written, "R+Ii", needs three more than the two
    component texts: no branch overruns it. *)
Definition dc_int_to_string (c : dc_complex_int) : M world string :=
  DC_ASSERT (notnull c) "dc_int_to_string: operand cannot be NULL";;
  c' ← fields Int c;
  let real_str := di_to_string (real c') in
  let imag_str := di_to_string (imag c') in
  let real_zero := di_is_zero (real c') in
  let imag_zero := di_is_zero (imag c') in
  let imag_neg := di_is_negative (imag c') in
  ret (if real_zero && imag_zero then "0"
       else if imag_zero then real_str
       else if real_zero then
         if streq imag_str "1" then "i"
         else if streq imag_str "-1" then "-i"
         else imag_str +:+ "i"
       else
         if streq imag_str "1" then real_str +:+ "+i"
         else if streq imag_str "-1" then real_str +:+ "-i"
         else if imag_neg then real_str +:+ imag_str +:+ "i"
         else real_str +:+ "+" +:+ imag_str +:+ "i")%string.

(* ====================================================================== *)
(** ** Fraction complex implementation *)
(* ====================================================================== *)

Definition dc_frac_from_df (real imag : option df_frac) : M world dc_complex_frac :=
  DC_ASSERT (bool_decide (is_Some real)) "dc_frac_from_df: real part cannot be NULL";;
  DC_ASSERT (bool_decide (is_Some imag)) "dc_frac_from_df: imaginary part cannot be NULL";;
  match real, imag with
  | Some re, Some im =>
      result ← on Rat (DC_MALLOC (Cell 1 (Complex (df_retain re) (df_retain im))));
      ret result
  | _, _ => fault
  end.

Definition dc_frac_from_ints (real_num real_den imag_num imag_den : Z)
  : M world dc_complex_frac :=
  re ← df_from_ints real_num real_den;
  im ← df_from_ints imag_num imag_den;
  result ← dc_frac_from_df (Some re) (Some im);
  ret result.

Definition dc_frac_retain (c : dc_complex_frac) : M world dc_complex_frac :=
  on Rat (retain "dc_frac_retain: cannot retain NULL" c).

Definition dc_frac_release (c : option dc_complex_frac)
  : M world (option dc_complex_frac) :=
  on Rat (release c).

Definition dc_frac_zero : M world dc_complex_frac :=
  singleton_accessor Rat zero_singleton (dc_frac_from_ints 0 1 0 1) dc_frac_retain.
Definition dc_frac_one : M world dc_complex_frac :=
  singleton_accessor Rat one_singleton (dc_frac_from_ints 1 1 0 1) dc_frac_retain.
Definition dc_frac_i : M world dc_complex_frac :=
  singleton_accessor Rat i_singleton (dc_frac_from_ints 0 1 1 1) dc_frac_retain.
Definition dc_frac_neg_one : M world dc_complex_frac :=
  singleton_accessor Rat neg_one_singleton (dc_frac_from_ints (-1) 1 0 1) dc_frac_retain.
Definition dc_frac_neg_i : M world dc_complex_frac :=
  singleton_accessor Rat neg_i_singleton (dc_frac_from_ints 0 1 (-1) 1) dc_frac_retain.

Definition dc_frac_copy (c : dc_complex_frac) : M world dc_complex_frac :=
  DC_ASSERT (notnull c) "dc_frac_copy: cannot copy NULL";;
  c' ← fields Rat c;
  dc_frac_from_df (Some (real c')) (Some (imag c')).

Definition dc_frac_add (a b : dc_complex_frac) : M world dc_complex_frac :=
  DC_ASSERT (notnull a) "dc_frac_add: first operand cannot be NULL";;
  DC_ASSERT (notnull b) "dc_frac_add: second operand cannot be NULL";;
  a' ← fields Rat a;
  b' ← fields Rat b;
  let re := df_add (real a') (real b') in
  let im := df_add (imag a') (imag b') in
  result ← dc_frac_from_df (Some re) (Some im);
  ret result.

Definition dc_frac_sub (a b : dc_complex_frac) : M world dc_complex_frac :=
  DC_ASSERT (notnull a) "dc_frac_sub: first operand cannot be NULL";;
  DC_ASSERT (notnull b) "dc_frac_sub: second operand cannot be NULL";;
  a' ← fields Rat a;
  b' ← fields Rat b;
  let re := df_sub (real a') (real b') in
  let im := df_sub (imag a') (imag b') in
  result ← dc_frac_from_df (Some re) (Some im);
  ret result.

Definition dc_frac_mul (a b : dc_complex_frac) : M world dc_complex_frac :=
  DC_ASSERT (notnull a) "dc_frac_mul: first operand cannot be NULL";;
  DC_ASSERT (notnull b) "dc_frac_mul: second operand cannot be NULL";;
  a' ← fields Rat a;
  b' ← fields Rat b;
  let ac := df_mul (real a') (real b') in
  let bd := df_mul (imag a') (imag b') in
  let ad := df_mul (real a') (imag b') in
  let bc := df_mul (imag a') (real b') in
  let re := df_sub ac bd in
  let im := df_add ad bc in
  result ← dc_frac_from_df (Some re) (Some im);
  ret result.

Definition dc_frac_is_zero (c : dc_complex_frac) : M world bool :=
  DC_ASSERT (notnull c) "dc_frac_is_zero: operand cannot be NULL";;
  c' ← fields Rat c;
  ret (df_is_zero (real c') && df_is_zero (imag c')).

Definition dc_frac_div (a b : dc_complex_frac) : M world dc_complex_frac :=
  DC_ASSERT (notnull a) "dc_frac_div: first operand cannot be NULL";;
  DC_ASSERT (notnull b) "dc_frac_div: second operand cannot be NULL";;
  b_zero ← dc_frac_is_zero b;
  DC_ASSERT (negb b_zero) "dc_frac_div: division by zero";;
  a' ← fields Rat a;
  b' ← fields Rat b;
  let c2 := df_mul (real b') (real b') in
  let d2 := df_mul (imag b') (imag b') in
  let denom := df_add c2 d2 in
  let ac := df_mul (real a') (real b') in
  let bd := df_mul (imag a') (imag b') in
  let bc := df_mul (imag a') (real b') in
  let ad := df_mul (real a') (imag b') in
  let real_num := df_add ac bd in
  let imag_num := df_sub bc ad in
  re ← df_div real_num denom;
  im ← df_div imag_num denom;
  result ← dc_frac_from_df (Some re) (Some im);
  ret result.

Definition dc_frac_negate (c : dc_complex_frac) : M world dc_complex_frac :=
  DC_ASSERT (notnull c) "dc_frac_negate: operand cannot be NULL";;
  c' ← fields Rat c;
  let re := df_negate (real c') in
  let im := df_negate (imag c') in
  result ← dc_frac_from_df (Some re) (Some im);
  ret result.

Definition dc_frac_conj (c : dc_complex_frac) : M world dc_complex_frac :=
  DC_ASSERT (notnull c) "dc_frac_conj: operand cannot be NULL";;
  c' ← fields Rat c;
  let re := df_retain (real c') in
  let im := df_negate (imag c') in
  result ← dc_frac_from_df (Some re) (Some im);
  ret result.

Definition dc_frac_reciprocal (c : dc_complex_frac) : M world dc_complex_frac :=
  DC_ASSERT (notnull c) "dc_frac_reciprocal: operand cannot be NULL";;
  c_zero ← dc_frac_is_zero c;
  DC_ASSERT (negb c_zero) "dc_frac_reciprocal: division by zero";;
  let one := df_one in
  let zero := df_zero in
  num ← dc_frac_from_df (Some one) (Some zero);
  result ← dc_frac_div num c;
  dc_frac_release (Some num);;
  ret result.

Definition dc_frac_real (c : dc_complex_frac) : M world df_frac :=
  DC_ASSERT (notnull c) "dc_frac_real: operand cannot be NULL";;
  c' ← fields Rat c;
  ret (df_retain (real c')).

Definition dc_frac_imag (c : dc_complex_frac) : M world df_frac :=
  DC_ASSERT (notnull c) "dc_frac_imag: operand cannot be NULL";;
  c' ← fields Rat c;
  ret (df_retain (imag c')).

Definition dc_frac_eq (a b : dc_complex_frac) : M world bool :=
  DC_ASSERT (notnull a) "dc_frac_eq: first operand cannot be NULL";;
  DC_ASSERT (notnull b) "dc_frac_eq: second operand cannot be NULL";;
  a' ← fields Rat a;
  b' ← fields Rat b;
  ret (df_eq (real a') (real b') && df_eq (imag a') (imag b')).

Definition dc_frac_is_real (c : dc_complex_frac) : M world bool :=
  DC_ASSERT (notnull c) "dc_frac_is_real: operand cannot be NULL";;
  c' ← fields Rat c;
  ret (df_is_zero (imag c')).

Definition dc_frac_is_imag (c : dc_complex_frac) : M world bool :=
  DC_ASSERT (notnull c) "dc_frac_is_imag: operand cannot be NULL";;
  c' ← fields Rat c;
  ret (df_is_zero (real c')).

Definition dc_frac_is_gaussian_int (c : dc_complex_frac) : M world bool :=
  DC_ASSERT (notnull c) "dc_frac_is_gaussian_int: operand cannot be NULL";;
  c' ← fields Rat c;
  ret (df_is_integer (real c') && df_is_integer (imag c')).

(** The two branches that test the imaginary part against one and minus one
    do so with [df_cmp], not on the rendered text. *)
Definition dc_frac_to_string (c : dc_complex_frac) : M world string :=
  DC_ASSERT (notnull c) "dc_frac_to_string: operand cannot be NULL";;
  c' ← fields Rat c;
  let real_str := df_to_string (real c') in
  let imag_str := df_to_string (imag c') in
  let real_zero := df_is_zero (real c') in
  let imag_zero := df_is_zero (imag c') in
  let imag_neg := df_is_negative (imag c') in
  ret (if real_zero && imag_zero then "0"
       else if imag_zero then real_str
       else if real_zero then
         let one := df_one in
         let neg_one := df_neg_one in
         if Z.eqb (df_cmp (imag c') one) 0 then "i"
         else if Z.eqb (df_cmp (imag c') neg_one) 0 then "-i"
         else imag_str +:+ "i"
       else
         let one := df_one in
         let neg_one := df_neg_one in
         if Z.eqb (df_cmp (imag c') one) 0 then real_str +:+ "+i"
         else if Z.eqb (df_cmp (imag c') neg_one) 0 then real_str +:+ "-i"
         else if imag_neg then real_str +:+ imag_str +:+ "i"
         else real_str +:+ "+" +:+ imag_str +:+ "i")%string.

(* ====================================================================== *)
(** ** Double complex implementation *)
(* ====================================================================== *)

(** What the double type takes from the C library and from the rational
    engine, as an interface: complex product and quotient (Annex G of C99),
    the functions of complex.h, the [%g] conversion of sprintf, and the
    engine's best rational approximation of a double under a bound on the
    denominator.  Nothing is assumed of them. *)
Class runtime : Type := Runtime {
  cmul : complex double -> complex double -> complex double;
  cdiv : complex double -> complex double -> complex double;
  cexp : complex double -> complex double;
  clog : complex double -> complex double;
  cpow : complex double -> complex double -> complex double;
  csqrt : complex double -> complex double;
  csin : complex double -> complex double;
  ccos : complex double -> complex double;
  ctan : complex double -> complex double;
  csinh : complex double -> complex double;
  ccosh : complex double -> complex double;
  ctanh : complex double -> complex double;
  cabs : complex double -> double;
  carg : complex double -> double;
  format_g : double -> string;
  df_from_double : double -> Z -> df_frac
}.

Definition creal (z : complex double) : double := real z.
Definition cimag (z : complex double) : double := imag z.

(** Sum, difference, negation and conjugate of double complex values are
    componentwise; a real factor scales both components. *)
Definition cadd (z w : complex double) : complex double :=
  Complex (double_add (real z) (real w)) (double_add (imag z) (imag w)).
Definition csub (z w : complex double) : complex double :=
  Complex (double_sub (real z) (real w)) (double_sub (imag z) (imag w)).
Definition cneg (z : complex double) : complex double :=
  Complex (double_neg (real z)) (double_neg (imag z)).
Definition conj (z : complex double) : complex double :=
  Complex (real z) (double_neg (imag z)).
Definition cscale (x : double) (z : complex double) : complex double :=
  Complex (double_mul x (real z)) (double_mul x (imag z)).

(** The constant [I] of complex.h. *)
Definition I : complex double := Complex double_zero double_one.

Definition dc_double_retain (c : dc_complex_double) : M world dc_complex_double :=
  on Dbl (retain "dc_double_retain: cannot retain NULL" c).

(** [dc_double_release] frees the object only: it has no components to
    release. *)
Definition dc_double_release (c : option dc_complex_double)
  : M world (option dc_complex_double) :=
  on Dbl (release c).

(** [real + imag * I]: the product scales [I] by [imag], the sum adds [real]
    to its real part. *)
Definition dc_double_from_doubles (re im : double) : M world dc_complex_double :=
  let z := cscale im I in
  result ← on Dbl (DC_MALLOC (Cell 1 (Complex (double_add re (real z)) (imag z))));
  ret result.

Definition dc_double_zero : M world dc_complex_double :=
  singleton_accessor Dbl zero_singleton
    (dc_double_from_doubles double_zero double_zero) dc_double_retain.
Definition dc_double_one : M world dc_complex_double :=
  singleton_accessor Dbl one_singleton
    (dc_double_from_doubles double_one double_zero) dc_double_retain.
Definition dc_double_i : M world dc_complex_double :=
  singleton_accessor Dbl i_singleton
    (dc_double_from_doubles double_zero double_one) dc_double_retain.
Definition dc_double_neg_one : M world dc_complex_double :=
  singleton_accessor Dbl neg_one_singleton
    (dc_double_from_doubles (double_neg double_one) double_zero) dc_double_retain.
Definition dc_double_neg_i : M world dc_complex_double :=
  singleton_accessor Dbl neg_i_singleton
    (dc_double_from_doubles double_zero (double_neg double_one)) dc_double_retain.

Definition dc_double_copy (c : dc_complex_double) : M world dc_complex_double :=
  DC_ASSERT (notnull c) "dc_double_copy: cannot copy NULL";;
  c' ← fields Dbl c;
  dc_double_from_doubles (creal c') (cimag c').

Definition dc_double_add (a b : dc_complex_double) : M world dc_complex_double :=
  DC_ASSERT (notnull a) "dc_double_add: first operand cannot be NULL";;
  DC_ASSERT (notnull b) "dc_double_add: second operand cannot be NULL";;
  a' ← fields Dbl a;
  b' ← fields Dbl b;
  result ← on Dbl (DC_MALLOC (Cell 1 (cadd a' b')));
  ret result.

Definition dc_double_sub (a b : dc_complex_double) : M world dc_complex_double :=
  DC_ASSERT (notnull a) "dc_double_sub: first operand cannot be NULL";;
  DC_ASSERT (notnull b) "dc_double_sub: second operand cannot be NULL";;
  a' ← fields Dbl a;
  b' ← fields Dbl b;
  result ← on Dbl (DC_MALLOC (Cell 1 (csub a' b')));
  ret result.

Definition dc_double_is_zero (c : dc_complex_double) : M world bool :=
  DC_ASSERT (notnull c) "dc_double_is_zero: operand cannot be NULL";;
  c' ← fields Dbl c;
  ret (double_eqb (creal c') double_zero && double_eqb (cimag c') double_zero).

Definition dc_double_negate (c : dc_complex_double) : M world dc_complex_double :=
  DC_ASSERT (notnull c) "dc_double_negate: operand cannot be NULL";;
  c' ← fields Dbl c;
  result ← on Dbl (DC_MALLOC (Cell 1 (cneg c')));
  ret result.

Definition dc_double_conj (c : dc_complex_double) : M world dc_complex_double :=
  DC_ASSERT (notnull c) "dc_double_conj: operand cannot be NULL";;
  c' ← fields Dbl c;
  result ← on Dbl (DC_MALLOC (Cell 1 (conj c')));
  ret result.

Definition dc_double_real (c : dc_complex_double) : M world double :=
  DC_ASSERT (notnull c) "dc_double_real: operand cannot be NULL";;
  c' ← fields Dbl c;
  ret (creal c').

Definition dc_double_imag (c : dc_complex_double) : M world double :=
  DC_ASSERT (notnull c) "dc_double_imag: operand cannot be NULL";;
  c' ← fields Dbl c;
  ret (cimag c').

Definition dc_double_eq (a b : dc_complex_double) : M world bool :=
  DC_ASSERT (notnull a) "dc_double_eq: first operand cannot be NULL";;
  DC_ASSERT (notnull b) "dc_double_eq: second operand cannot be NULL";;
  a' ← fields Dbl a;
  b' ← fields Dbl b;
  ret (double_eqb (creal a') (creal b') && double_eqb (cimag a') (cimag b')).

Definition dc_double_is_real (c : dc_complex_double) : M world bool :=
  DC_ASSERT (notnull c) "dc_double_is_real: operand cannot be NULL";;
  c' ← fields Dbl c;
  ret (double_eqb (cimag c') double_zero).

Definition dc_double_is_imag (c : dc_complex_double) : M world bool :=
  DC_ASSERT (notnull c) "dc_double_is_imag: operand cannot be NULL";;
  c' ← fields Dbl c;
  ret (double_eqb (creal c') double_zero).

Definition dc_double_is_nan (c : dc_complex_double) : M world bool :=
  DC_ASSERT (notnull c) "dc_double_is_nan: operand cannot be NULL";;
  c' ← fields Dbl c;
  ret (isnan (creal c') || isnan (cimag c')).

Definition dc_double_is_inf (c : dc_complex_double) : M world bool :=
  DC_ASSERT (notnull c) "dc_double_is_inf: operand cannot be NULL";;
  c' ← fields Dbl c;
  ret (isinf (creal c') || isinf (cimag c')).

Section WithRuntime.
Context {rt : runtime}.

Definition dc_double_from_polar (magnitude angle : double)
  : M world dc_complex_double :=
  result ← on Dbl (DC_MALLOC (Cell 1 (cscale magnitude (cexp (cscale angle I)))));
  ret result.

Definition dc_double_mul (a b : dc_complex_double) : M world dc_complex_double :=
  DC_ASSERT (notnull a) "dc_double_mul: first operand cannot be NULL";;
  DC_ASSERT (notnull b) "dc_double_mul: second operand cannot be NULL";;
  a' ← fields Dbl a;
  b' ← fields Dbl b;
  result ← on Dbl (DC_MALLOC (Cell 1 (cmul a' b')));
  ret result.

Definition dc_double_div (a b : dc_complex_double) : M world dc_complex_double :=
  DC_ASSERT (notnull a) "dc_double_div: first operand cannot be NULL";;
  DC_ASSERT (notnull b) "dc_double_div: second operand cannot be NULL";;
  b_zero ← dc_double_is_zero b;
  DC_ASSERT (negb b_zero) "dc_double_div: division by zero";;
  a' ← fields Dbl a;
  b' ← fields Dbl b;
  result ← on Dbl (DC_MALLOC (Cell 1 (cdiv a' b')));
  ret result.

Definition dc_double_exp (c : dc_complex_double) : M world dc_complex_double :=
  DC_ASSERT (notnull c) "dc_double_exp: operand cannot be NULL";;
  c' ← fields Dbl c;
  result ← on Dbl (DC_MALLOC (Cell 1 (cexp c')));
  ret result.

Definition dc_double_sqrt (c : dc_complex_double) : M world dc_complex_double :=
  DC_ASSERT (notnull c) "dc_double_sqrt: operand cannot be NULL";;
  c' ← fields Dbl c;
  result ← on Dbl (DC_MALLOC (Cell 1 (csqrt c')));
  ret result.

Definition dc_double_sin (c : dc_complex_double) : M world dc_complex_double :=
  DC_ASSERT (notnull c) "dc_double_sin: operand cannot be NULL";;
  c' ← fields Dbl c;
  result ← on Dbl (DC_MALLOC (Cell 1 (csin c')));
  ret result.

Definition dc_double_cos (c : dc_complex_double) : M world dc_complex_double :=
  DC_ASSERT (notnull c) "dc_double_cos: operand cannot be NULL";;
  c' ← fields Dbl c;
  result ← on Dbl (DC_MALLOC (Cell 1 (ccos c')));
  ret result.

Definition dc_double_tan (c : dc_complex_double) : M world dc_complex_double :=
  DC_ASSERT (notnull c) "dc_double_tan: operand cannot be NULL";;
  c' ← fields Dbl c;
  result ← on Dbl (DC_MALLOC (Cell 1 (ctan c')));
  ret result.

Definition dc_double_sinh (c : dc_complex_double) : M world dc_complex_double :=
  DC_ASSERT (notnull c) "dc_double_sinh: operand cannot be NULL";;
  c' ← fields Dbl c;
  result ← on Dbl (DC_MALLOC (Cell 1 (csinh c')));
  ret result.

Definition dc_double_cosh (c : dc_complex_double) : M world dc_complex_double :=
  DC_ASSERT (notnull c) "dc_double_cosh: operand cannot be NULL";;
  c' ← fields Dbl c;
  result ← on Dbl (DC_MALLOC (Cell 1 (ccosh c')));
  ret result.

Definition dc_double_tanh (c : dc_complex_double) : M world dc_complex_double :=
  DC_ASSERT (notnull c) "dc_double_tanh: operand cannot be NULL";;
  c' ← fields Dbl c;
  result ← on Dbl (DC_MALLOC (Cell 1 (ctanh c')));
  ret result.

Definition dc_double_log (c : dc_complex_double) : M world dc_complex_double :=
  DC_ASSERT (notnull c) "dc_double_log: operand cannot be NULL";;
  c_zero ← dc_double_is_zero c;
  DC_ASSERT (negb c_zero) "dc_double_log: log of zero";;
  c' ← fields Dbl c;
  result ← on Dbl (DC_MALLOC (Cell 1 (clog c')));
  ret result.

Definition dc_double_pow (a b : dc_complex_double) : M world dc_complex_double :=
  DC_ASSERT (notnull a) "dc_double_pow: base cannot be NULL";;
  DC_ASSERT (notnull b) "dc_double_pow: exponent cannot be NULL";;
  a' ← fields Dbl a;
  b' ← fields Dbl b;
  result ← on Dbl (DC_MALLOC (Cell 1 (cpow a' b')));
  ret result.

Definition dc_double_abs (c : dc_complex_double) : M world double :=
  DC_ASSERT (notnull c) "dc_double_abs: operand cannot be NULL";;
  c' ← fields Dbl c;
  ret (cabs c').

Definition dc_double_arg (c : dc_complex_double) : M world double :=
  DC_ASSERT (notnull c) "dc_double_arg: operand cannot be NULL";;
  c' ← fields Dbl c;
  ret (carg c').

Definition dc_double_to_string (c : dc_complex_double) : M world string :=
  DC_ASSERT (notnull c) "dc_double_to_string: operand cannot be NULL";;
  c' ← fields Dbl c;
  let re := creal c' in
  let im := cimag c' in
  ret (if double_eqb re double_zero && double_eqb im double_zero then "0"
       else if double_eqb im double_zero then format_g re
       else if double_eqb re double_zero then
         if double_eqb im double_one then "i"
         else if double_eqb im (double_neg double_one) then "-i"
         else format_g im +:+ "i"
       else
         if double_eqb im double_one then format_g re +:+ "+i"
         else if double_eqb im (double_neg double_one) then format_g re +:+ "-i"
         else if double_ltb im double_zero then format_g re +:+ format_g im +:+ "i"
         else format_g re +:+ "+" +:+ format_g im +:+ "i")%string.

Definition dc_double_to_frac (c : dc_complex_double) (max_denominator : Z)
  : M world dc_complex_frac :=
  DC_ASSERT (notnull c) "dc_double_to_frac: operand cannot be NULL";;
  DC_ASSERT (0 <? max_denominator) "dc_double_to_frac: max_denominator must be positive";;
  c' ← fields Dbl c;
  let re := creal c' in
  let im := cimag c' in
  let real_frac := df_from_double re max_denominator in
  let imag_frac := df_from_double im max_denominator in
  result ← dc_frac_from_df (Some real_frac) (Some imag_frac);
  ret result.
End WithRuntime.

(* ====================================================================== *)
(** ** Type conversion implementation *)
(* ====================================================================== *)

Definition dc_int_to_frac (c : dc_complex_int) : M world dc_complex_frac :=
  DC_ASSERT (notnull c) "dc_int_to_frac: operand cannot be NULL";;
  c' ← fields Int c;
  re ← df_from_di (real c') di_one;
  im ← df_from_di (imag c') di_one;
  result ← dc_frac_from_df (Some re) (Some im);
  ret result.

Definition dc_int_to_double (c : dc_complex_int) : M world dc_complex_double :=
  DC_ASSERT (notnull c) "dc_int_to_double: operand cannot be NULL";;
  c' ← fields Int c;
  let re := di_to_double (real c') in
  let im := di_to_double (imag c') in
  dc_double_from_doubles re im.

Definition dc_frac_to_double (c : dc_complex_frac) : M world dc_complex_double :=
  DC_ASSERT (notnull c) "dc_frac_to_double: operand cannot be NULL";;
  c' ← fields Rat c;
  let re := df_to_double (real c') in
  let im := df_to_double (imag c') in
  dc_double_from_doubles re im.

(** [(int64_t)round(x)] as a step of the monad: undefined when the rounded
    value has no [int64_t]. *)
Definition rounded {S} (x : double) : M S Z :=
  match double_to_int64 (round x) with
  | Some v => ret v
  | None => fault
  end.

Definition dc_frac_to_int (c : dc_complex_frac) : M world dc_complex_int :=
  DC_ASSERT (notnull c) "dc_frac_to_int: operand cannot be NULL";;
  c' ← fields Rat c;
  let re := df_to_double (real c') in
  let im := df_to_double (imag c') in
  real_rounded ← rounded re;
  imag_rounded ← rounded im;
  dc_int_from_ints real_rounded imag_rounded.

Definition dc_double_to_int (c : dc_complex_double) : M world dc_complex_int :=
  DC_ASSERT (notnull c) "dc_double_to_int: operand cannot be NULL";;
  c' ← fields Dbl c;
  let re := creal c' in
  let im := cimag c' in
  real_rounded ← rounded re;
  imag_rounded ← rounded im;
  dc_int_from_ints real_rounded imag_rounded.

(** [dc_int_div] belongs to the integer section of the header; it stands
    here because it calls [dc_int_to_frac], [dc_frac_div] and
    [dc_frac_release]. *)
Definition dc_int_div (a b : dc_complex_int) : M world dc_complex_frac :=
  DC_ASSERT (notnull a) "dc_int_div: first operand cannot be NULL";;
  DC_ASSERT (notnull b) "dc_int_div: second operand cannot be NULL";;
  af ← dc_int_to_frac a;
  bf ← dc_int_to_frac b;
  result ← dc_frac_div af bf;
  dc_frac_release (Some af);;
  dc_frac_release (Some bf);;
  ret result.

(* ====================================================================== *)
(** ** The public surface *)
(* ====================================================================== *)

(** One constructor per function the header declares with [DC_DEC], with its
    arguments; [exec] runs it.  Statements about "every exported operation"
    quantify over [call]. *)
Inductive call : Type :=
| call_dc_int_from_ints (real : Z) (imag : Z)
| call_dc_int_from_di (real : option di_int) (imag : option di_int)
| call_dc_int_zero
| call_dc_int_one
| call_dc_int_i
| call_dc_int_neg_one
| call_dc_int_neg_i
| call_dc_int_retain (c : handle)
| call_dc_int_release (c : option handle)
| call_dc_int_copy (c : handle)
| call_dc_int_add (a : handle) (b : handle)
| call_dc_int_sub (a : handle) (b : handle)
| call_dc_int_mul (a : handle) (b : handle)
| call_dc_int_div (a : handle) (b : handle)
| call_dc_int_negate (c : handle)
| call_dc_int_conj (c : handle)
| call_dc_int_real (c : handle)
| call_dc_int_imag (c : handle)
| call_dc_int_eq (a : handle) (b : handle)
| call_dc_int_is_zero (c : handle)
| call_dc_int_is_real (c : handle)
| call_dc_int_is_imag (c : handle)
| call_dc_int_to_string (c : handle)
| call_dc_frac_from_ints (real_num : Z) (real_den : Z) (imag_num : Z) (imag_den : Z)
| call_dc_frac_from_df (real : option df_frac) (imag : option df_frac)
| call_dc_frac_zero
| call_dc_frac_one
| call_dc_frac_i
| call_dc_frac_neg_one
| call_dc_frac_neg_i
| call_dc_frac_retain (c : handle)
| call_dc_frac_release (c : option handle)
| call_dc_frac_copy (c : handle)
| call_dc_frac_add (a : handle) (b : handle)
| call_dc_frac_sub (a : handle) (b : handle)
| call_dc_frac_mul (a : handle) (b : handle)
| call_dc_frac_div (a : handle) (b : handle)
| call_dc_frac_negate (c : handle)
| call_dc_frac_conj (c : handle)
| call_dc_frac_reciprocal (c : handle)
| call_dc_frac_real (c : handle)
| call_dc_frac_imag (c : handle)
| call_dc_frac_eq (a : handle) (b : handle)
| call_dc_frac_is_zero (c : handle)
| call_dc_frac_is_real (c : handle)
| call_dc_frac_is_imag (c : handle)
| call_dc_frac_is_gaussian_int (c : handle)
| call_dc_frac_to_string (c : handle)
| call_dc_double_from_doubles (real : double) (imag : double)
| call_dc_double_from_polar (magnitude : double) (angle : double)
| call_dc_double_zero
| call_dc_double_one
| call_dc_double_i
| call_dc_double_neg_one
| call_dc_double_neg_i
| call_dc_double_retain (c : handle)
| call_dc_double_release (c : option handle)
| call_dc_double_copy (c : handle)
| call_dc_double_add (a : handle) (b : handle)
| call_dc_double_sub (a : handle) (b : handle)
| call_dc_double_mul (a : handle) (b : handle)
| call_dc_double_div (a : handle) (b : handle)
| call_dc_double_negate (c : handle)
| call_dc_double_conj (c : handle)
| call_dc_double_exp (c : handle)
| call_dc_double_log (c : handle)
| call_dc_double_pow (a : handle) (b : handle)
| call_dc_double_sqrt (c : handle)
| call_dc_double_sin (c : handle)
| call_dc_double_cos (c : handle)
| call_dc_double_tan (c : handle)
| call_dc_double_sinh (c : handle)
| call_dc_double_cosh (c : handle)
| call_dc_double_tanh (c : handle)
| call_dc_double_real (c : handle)
| call_dc_double_imag (c : handle)
| call_dc_double_abs (c : handle)
| call_dc_double_arg (c : handle)
| call_dc_double_eq (a : handle) (b : handle)
| call_dc_double_is_zero (c : handle)
| call_dc_double_is_real (c : handle)
| call_dc_double_is_imag (c : handle)
| call_dc_double_is_nan (c : handle)
| call_dc_double_is_inf (c : handle)
| call_dc_double_to_string (c : handle)
| call_dc_int_to_frac (c : handle)
| call_dc_int_to_double (c : handle)
| call_dc_frac_to_double (c : handle)
| call_dc_frac_to_int (c : handle)
| call_dc_double_to_int (c : handle)
| call_dc_double_to_frac (c : handle) (max_denominator : Z).

(** What a call hands back: a handle of one of the three types, the caller's
    handle variable after a release, a component, a truth value or a text. *)
Inductive result : Type :=
| RInt (c : dc_complex_int)
| RFrac (c : dc_complex_frac)
| RDouble (c : dc_complex_double)
| RVar (c : option handle)
| RDi (a : di_int)
| RDf (a : df_frac)
| RReal (x : double)
| RBool (b : bool)
| RString (s : string).

Definition returning {A} (f : A -> result) (m : M world A) : M world result :=
  x ← m; ret (f x).

Definition exec {rt : runtime} (c : call) : M world result :=
  match c with
  | call_dc_int_from_ints real imag => returning RInt (dc_int_from_ints real imag)
  | call_dc_int_from_di real imag => returning RInt (dc_int_from_di real imag)
  | call_dc_int_zero => returning RInt (dc_int_zero)
  | call_dc_int_one => returning RInt (dc_int_one)
  | call_dc_int_i => returning RInt (dc_int_i)
  | call_dc_int_neg_one => returning RInt (dc_int_neg_one)
  | call_dc_int_neg_i => returning RInt (dc_int_neg_i)
  | call_dc_int_retain c => returning RInt (dc_int_retain c)
  | call_dc_int_release c => returning RVar (dc_int_release c)
  | call_dc_int_copy c => returning RInt (dc_int_copy c)
  | call_dc_int_add a b => returning RInt (dc_int_add a b)
  | call_dc_int_sub a b => returning RInt (dc_int_sub a b)
  | call_dc_int_mul a b => returning RInt (dc_int_mul a b)
  | call_dc_int_div a b => returning RFrac (dc_int_div a b)
  | call_dc_int_negate c => returning RInt (dc_int_negate c)
  | call_dc_int_conj c => returning RInt (dc_int_conj c)
  | call_dc_int_real c => returning RDi (dc_int_real c)
  | call_dc_int_imag c => returning RDi (dc_int_imag c)
  | call_dc_int_eq a b => returning RBool (dc_int_eq a b)
  | call_dc_int_is_zero c => returning RBool (dc_int_is_zero c)
  | call_dc_int_is_real c => returning RBool (dc_int_is_real c)
  | call_dc_int_is_imag c => returning RBool (dc_int_is_imag c)
  | call_dc_int_to_string c => returning RString (dc_int_to_string c)
  | call_dc_frac_from_ints real_num real_den imag_num imag_den => returning RFrac (dc_frac_from_ints real_num real_den imag_num imag_den)
  | call_dc_frac_from_df real imag => returning RFrac (dc_frac_from_df real imag)
  | call_dc_frac_zero => returning RFrac (dc_frac_zero)
  | call_dc_frac_one => returning RFrac (dc_frac_one)
  | call_dc_frac_i => returning RFrac (dc_frac_i)
  | call_dc_frac_neg_one => returning RFrac (dc_frac_neg_one)
  | call_dc_frac_neg_i => returning RFrac (dc_frac_neg_i)
  | call_dc_frac_retain c => returning RFrac (dc_frac_retain c)
  | call_dc_frac_release c => returning RVar (dc_frac_release c)
  | call_dc_frac_copy c => returning RFrac (dc_frac_copy c)
  | call_dc_frac_add a b => returning RFrac (dc_frac_add a b)
  | call_dc_frac_sub a b => returning RFrac (dc_frac_sub a b)
  | call_dc_frac_mul a b => returning RFrac (dc_frac_mul a b)
  | call_dc_frac_div a b => returning RFrac (dc_frac_div a b)
  | call_dc_frac_negate c => returning RFrac (dc_frac_negate c)
  | call_dc_frac_conj c => returning RFrac (dc_frac_conj c)
  | call_dc_frac_reciprocal c => returning RFrac (dc_frac_reciprocal c)
  | call_dc_frac_real c => returning RDf (dc_frac_real c)
  | call_dc_frac_imag c => returning RDf (dc_frac_imag c)
  | call_dc_frac_eq a b => returning RBool (dc_frac_eq a b)
  | call_dc_frac_is_zero c => returning RBool (dc_frac_is_zero c)
  | call_dc_frac_is_real c => returning RBool (dc_frac_is_real c)
  | call_dc_frac_is_imag c => returning RBool (dc_frac_is_imag c)
  | call_dc_frac_is_gaussian_int c => returning RBool (dc_frac_is_gaussian_int c)
  | call_dc_frac_to_string c => returning RString (dc_frac_to_string c)
  | call_dc_double_from_doubles real imag => returning RDouble (dc_double_from_doubles real imag)
  | call_dc_double_from_polar magnitude angle => returning RDouble (dc_double_from_polar magnitude angle)
  | call_dc_double_zero => returning RDouble (dc_double_zero)
  | call_dc_double_one => returning RDouble (dc_double_one)
  | call_dc_double_i => returning RDouble (dc_double_i)
  | call_dc_double_neg_one => returning RDouble (dc_double_neg_one)
  | call_dc_double_neg_i => returning RDouble (dc_double_neg_i)
  | call_dc_double_retain c => returning RDouble (dc_double_retain c)
  | call_dc_double_release c => returning RVar (dc_double_release c)
  | call_dc_double_copy c => returning RDouble (dc_double_copy c)
  | call_dc_double_add a b => returning RDouble (dc_double_add a b)
  | call_dc_double_sub a b => returning RDouble (dc_double_sub a b)
  | call_dc_double_mul a b => returning RDouble (dc_double_mul a b)
  | call_dc_double_div a b => returning RDouble (dc_double_div a b)
  | call_dc_double_negate c => returning RDouble (dc_double_negate c)
  | call_dc_double_conj c => returning RDouble (dc_double_conj c)
  | call_dc_double_exp c => returning RDouble (dc_double_exp c)
  | call_dc_double_log c => returning RDouble (dc_double_log c)
  | call_dc_double_pow a b => returning RDouble (dc_double_pow a b)
  | call_dc_double_sqrt c => returning RDouble (dc_double_sqrt c)
  | call_dc_double_sin c => returning RDouble (dc_double_sin c)
  | call_dc_double_cos c => returning RDouble (dc_double_cos c)
  | call_dc_double_tan c => returning RDouble (dc_double_tan c)
  | call_dc_double_sinh c => returning RDouble (dc_double_sinh c)
  | call_dc_double_cosh c => returning RDouble (dc_double_cosh c)
  | call_dc_double_tanh c => returning RDouble (dc_double_tanh c)
  | call_dc_double_real c => returning RReal (dc_double_real c)
  | call_dc_double_imag c => returning RReal (dc_double_imag c)
  | call_dc_double_abs c => returning RReal (dc_double_abs c)
  | call_dc_double_arg c => returning RReal (dc_double_arg c)
  | call_dc_double_eq a b => returning RBool (dc_double_eq a b)
  | call_dc_double_is_zero c => returning RBool (dc_double_is_zero c)
  | call_dc_double_is_real c => returning RBool (dc_double_is_real c)
  | call_dc_double_is_imag c => returning RBool (dc_double_is_imag c)
  | call_dc_double_is_nan c => returning RBool (dc_double_is_nan c)
  | call_dc_double_is_inf c => returning RBool (dc_double_is_inf c)
  | call_dc_double_to_string c => returning RString (dc_double_to_string c)
  | call_dc_int_to_frac c => returning RFrac (dc_int_to_frac c)
  | call_dc_int_to_double c => returning RDouble (dc_int_to_double c)
  | call_dc_frac_to_double c => returning RDouble (dc_frac_to_double c)
  | call_dc_frac_to_int c => returning RInt (dc_frac_to_int c)
  | call_dc_double_to_int c => returning RInt (dc_double_to_int c)
  | call_dc_double_to_frac c max_denominator => returning RFrac (dc_double_to_frac c max_denominator)
  end.

(** Some handle argument of the call is NULL.  For a release the argument is
    the pointer to the handle variable: it is NULL, or the variable is. *)
Definition is_null {A} (x : option A) : bool :=
  match x with Some _ => false | None => true end.

Definition null_operand (c : call) : bool :=
  match c with
  | call_dc_int_from_di real imag => is_null real || is_null imag
  | call_dc_int_retain c => is_null c
  | call_dc_int_release c => match c with Some (Some _) => false | _ => true end
  | call_dc_int_copy c => is_null c
  | call_dc_int_add a b => is_null a || is_null b
  | call_dc_int_sub a b => is_null a || is_null b
  | call_dc_int_mul a b => is_null a || is_null b
  | call_dc_int_div a b => is_null a || is_null b
  | call_dc_int_negate c => is_null c
  | call_dc_int_conj c => is_null c
  | call_dc_int_real c => is_null c
  | call_dc_int_imag c => is_null c
  | call_dc_int_eq a b => is_null a || is_null b
  | call_dc_int_is_zero c => is_null c
  | call_dc_int_is_real c => is_null c
  | call_dc_int_is_imag c => is_null c
  | call_dc_int_to_string c => is_null c
  | call_dc_frac_from_df real imag => is_null real || is_null imag
  | call_dc_frac_retain c => is_null c
  | call_dc_frac_release c => match c with Some (Some _) => false | _ => true end
  | call_dc_frac_copy c => is_null c
  | call_dc_frac_add a b => is_null a || is_null b
  | call_dc_frac_sub a b => is_null a || is_null b
  | call_dc_frac_mul a b => is_null a || is_null b
  | call_dc_frac_div a b => is_null a || is_null b
  | call_dc_frac_negate c => is_null c
  | call_dc_frac_conj c => is_null c
  | call_dc_frac_reciprocal c => is_null c
  | call_dc_frac_real c => is_null c
  | call_dc_frac_imag c => is_null c
  | call_dc_frac_eq a b => is_null a || is_null b
  | call_dc_frac_is_zero c => is_null c
  | call_dc_frac_is_real c => is_null c
  | call_dc_frac_is_imag c => is_null c
  | call_dc_frac_is_gaussian_int c => is_null c
  | call_dc_frac_to_string c => is_null c
  | call_dc_double_retain c => is_null c
  | call_dc_double_release c => match c with Some (Some _) => false | _ => true end
  | call_dc_double_copy c => is_null c
  | call_dc_double_add a b => is_null a || is_null b
  | call_dc_double_sub a b => is_null a || is_null b
  | call_dc_double_mul a b => is_null a || is_null b
  | call_dc_double_div a b => is_null a || is_null b
  | call_dc_double_negate c => is_null c
  | call_dc_double_conj c => is_null c
  | call_dc_double_exp c => is_null c
  | call_dc_double_log c => is_null c
  | call_dc_double_pow a b => is_null a || is_null b
  | call_dc_double_sqrt c => is_null c
  | call_dc_double_sin c => is_null c
  | call_dc_double_cos c => is_null c
  | call_dc_double_tan c => is_null c
  | call_dc_double_sinh c => is_null c
  | call_dc_double_cosh c => is_null c
  | call_dc_double_tanh c => is_null c
  | call_dc_double_real c => is_null c
  | call_dc_double_imag c => is_null c
  | call_dc_double_abs c => is_null c
  | call_dc_double_arg c => is_null c
  | call_dc_double_eq a b => is_null a || is_null b
  | call_dc_double_is_zero c => is_null c
  | call_dc_double_is_real c => is_null c
  | call_dc_double_is_imag c => is_null c
  | call_dc_double_is_nan c => is_null c
  | call_dc_double_is_inf c => is_null c
  | call_dc_double_to_string c => is_null c
  | call_dc_int_to_frac c => is_null c
  | call_dc_int_to_double c => is_null c
  | call_dc_frac_to_double c => is_null c
  | call_dc_frac_to_int c => is_null c
  | call_dc_double_to_int c => is_null c
  | call_dc_double_to_frac c _ => is_null c
  | _ => false
  end.

Definition is_release (c : call) : bool :=
  match c with
  | call_dc_int_release _ | call_dc_frac_release _ | call_dc_double_release _ => true
  | _ => false
  end.

Definition is_retain (c : call) : bool :=
  match c with
  | call_dc_int_retain _ | call_dc_frac_retain _ | call_dc_double_retain _ => true
  | _ => false
  end.

Definition is_singleton_accessor (c : call) : bool :=
  match c with
  | call_dc_int_zero | call_dc_int_one | call_dc_int_i
  | call_dc_int_neg_one | call_dc_int_neg_i | call_dc_frac_zero
  | call_dc_frac_one | call_dc_frac_i | call_dc_frac_neg_one
  | call_dc_frac_neg_i | call_dc_double_zero | call_dc_double_one
  | call_dc_double_i | call_dc_double_neg_one | call_dc_double_neg_i => true
  | _ => false
  end.

(** The three types, to state a property once for all of them. *)
Inductive ctype : Set := TInt | TFrac | TDouble.

Definition release_of (t : ctype) : option handle -> M world (option handle) :=
  match t with
  | TInt => dc_int_release
  | TFrac => dc_frac_release
  | TDouble => dc_double_release
  end.

(** The reference count of the object behind a pointer, if it is live. *)
Definition count_of (t : ctype) (w : world) (p : loc) : option Z :=
  match t with
  | TInt => ref_count <$> objects (ints w) !! p
  | TFrac => ref_count <$> objects (fracs w) !! p
  | TDouble => ref_count <$> objects (doubles w) !! p
  end.

Definition live (t : ctype) (w : world) (p : loc) : bool :=
  bool_decide (is_Some (count_of t w p)).

Definition static_of (t : ctype) (w : world) (s : singleton) : handle :=
  match t with
  | TInt => statics (ints w) s
  | TFrac => statics (fracs w) s
  | TDouble => statics (doubles w) s
  end.

(** The complex handle a result carries, with its type. *)
Definition returned_handle (r : result) : option (ctype * handle) :=
  match r with
  | RInt c => Some (TInt, c)
  | RFrac c => Some (TFrac, c)
  | RDouble c => Some (TDouble, c)
  | _ => None
  end.

(** The declared return type of the call is one of the three handle types. *)
Definition returns_complex (c : call) : bool :=
  match c with
  | call_dc_int_from_ints _ _ | call_dc_int_from_di _ _
  | call_dc_int_zero | call_dc_int_one
  | call_dc_int_i | call_dc_int_neg_one
  | call_dc_int_neg_i | call_dc_int_retain _
  | call_dc_int_copy _ | call_dc_int_add _ _
  | call_dc_int_sub _ _ | call_dc_int_mul _ _
  | call_dc_int_div _ _ | call_dc_int_negate _
  | call_dc_int_conj _ | call_dc_frac_from_ints _ _ _ _
  | call_dc_frac_from_df _ _ | call_dc_frac_zero
  | call_dc_frac_one | call_dc_frac_i
  | call_dc_frac_neg_one | call_dc_frac_neg_i
  | call_dc_frac_retain _ | call_dc_frac_copy _
  | call_dc_frac_add _ _ | call_dc_frac_sub _ _
  | call_dc_frac_mul _ _ | call_dc_frac_div _ _
  | call_dc_frac_negate _ | call_dc_frac_conj _
  | call_dc_frac_reciprocal _ | call_dc_double_from_doubles _ _
  | call_dc_double_from_polar _ _ | call_dc_double_zero
  | call_dc_double_one | call_dc_double_i
  | call_dc_double_neg_one | call_dc_double_neg_i
  | call_dc_double_retain _ | call_dc_double_copy _
  | call_dc_double_add _ _ | call_dc_double_sub _ _
  | call_dc_double_mul _ _ | call_dc_double_div _ _
  | call_dc_double_negate _ | call_dc_double_conj _
  | call_dc_double_exp _ | call_dc_double_log _
  | call_dc_double_pow _ _ | call_dc_double_sqrt _
  | call_dc_double_sin _ | call_dc_double_cos _
  | call_dc_double_tan _ | call_dc_double_sinh _
  | call_dc_double_cosh _ | call_dc_double_tanh _
  | call_dc_int_to_frac _ | call_dc_int_to_double _
  | call_dc_frac_to_double _ | call_dc_frac_to_int _
  | call_dc_double_to_int _ | call_dc_double_to_frac _ _ => true
  | _ => false
  end.

(** [n] successive releases, each through a handle variable holding [p];
    the contents of the variables afterwards are collected. *)
Fixpoint release_times (t : ctype) (p : loc) (n : nat)
  : M world (list (option handle)) :=
  match n with
  | O => ret []
  | S n' =>
      v ← release_of t (Some (Some p));
      vs ← release_times t p n';
      ret (v :: vs)
  end.

(* ====================================================================== *)
(** ** Definitions used by the statements *)
(* ====================================================================== *)

(** The components behind a handle in a given state, if it is live. *)
Definition value_at {T} (K : kind T) (w : world) (c : handle) : option T :=
  match c with
  | Some p => value <$> objects (arena_of K w) !! p
  | None => None
  end.

(** A computation returns a live handle whose object has the components [v]. *)
Definition returns {T} (K : kind T) (m : M world handle) (w : world) (v : T)
  : Prop :=
  exists c w', m w = Ret c w' /\ value_at K w' c = Some v.

(** The shared formatting table of the specification (section 4.4), in its
    own words: the two component texts and the five queries on them. *)
Definition format_table (R I : string)
    (R_zero I_zero I_one I_neg_one I_negative : bool) : string :=
  if R_zero && I_zero then "0"%string
  else if I_zero then R
  else if R_zero then
    if I_one then "i"%string
    else if I_neg_one then "-i"%string
    else (I +:+ "i")%string
  else
    (R +:+ (if I_one then "+i"
            else if I_neg_one then "-i"
            else if I_negative then I +:+ "i"
            else "+" +:+ I +:+ "i"))%string.

(** Gaussian -> Rational -> Gaussian: [dc_int_to_frac], then [dc_frac_to_int]. *)
Definition round_trip (g : dc_complex_int) : M world dc_complex_int :=
  q ← dc_int_to_frac g;
  dc_frac_to_int q.

(** The pointer the next allocation in an arena yields, and the state after
    allocating an object there. *)
Definition new_loc {T} (K : kind T) (w : world) : loc :=
  fresh (dom (objects (arena_of K w))).

Definition alloc {T} (K : kind T) (init : cell T) (w : world) : world :=
  with_arena K (Arena (<[new_loc K w := init]> (objects (arena_of K w)))
                      (statics (arena_of K w))) w.

(** The three arena selectors are lenses. *)
Class lawful {T} (K : kind T) : Prop := {
  arena_of_with : forall a w, arena_of K (with_arena K a w) = a;
  with_arena_of : forall w, with_arena K (arena_of K w) w = w;
  with_with : forall a b w, with_arena K a (with_arena K b w) = with_arena K a w
}.

(** Both components of a rational complex value are in lowest terms with a
    positive denominator. *)
Definition reduced (v : complex df_frac) : Prop :=
  df_reduced (real v) /\ df_reduced (imag v).

(** The rational complex zero test on components, as [dc_frac_is_zero]. *)
Definition frac_is_zero (v : complex df_frac) : bool :=
  df_is_zero (real v) && df_is_zero (imag v).

(** A state to evaluate examples in: two Gaussian integers, [3+4i] at
    pointer 1 and [1-2i] at pointer 2; two rational complex numbers,
    [1/2 + 1/3 i] at pointer 1 and [3/4 - i] at pointer 2; the double complex
    [1 + 0i] at pointer 1. *)
Definition sample_world : world :=
  alloc Dbl (Cell 1 (Complex double_one double_zero))
    (alloc Rat (Cell 1 (Complex (Frac 3 4) (Frac (-1) 1)))
       (alloc Rat (Cell 1 (Complex (Frac 1 2) (Frac 1 3)))
          (alloc Int (Cell 1 (Complex 1 (-2)))
             (alloc Int (Cell 1 (Complex 3 4)) initial_world)))).

(** The state a computation leaves behind (the start state if it stops). *)
Definition world_after {A} (m : M world A) (w : world) : world :=
  match m w with
  | Ret _ w' => w'
  | _ => w
  end.

(** A state in which a singleton's count has come down to one: the Gaussian
    zero, at pointer 1. *)
Definition worn_world : world :=
  World (Arena {[ 1%positive := Cell 1 (Complex 0 0) ]}
               (fun s => if decide (s = zero_singleton) then Some 1%positive else NULL))
        empty_arena empty_arena.

(** The components [dc_frac_div] stores in its result, written with the
    engine operations in the order of the header, and the same for Gaussian
    operands promoted to [n/1]. *)
Definition frac_quotient (va vb : complex df_frac) : complex df_frac :=
  let denom := df_add (df_mul (real vb) (real vb)) (df_mul (imag vb) (imag vb)) in
  let real_num := df_add (df_mul (real va) (real vb)) (df_mul (imag va) (imag vb)) in
  let imag_num := df_sub (df_mul (imag va) (real vb)) (df_mul (real va) (imag vb)) in
  Complex (df_quot real_num denom) (df_quot imag_num denom).

Definition promote (v : complex di_int) : complex df_frac :=
  Complex (Frac (real v) 1) (Frac (imag v) 1).

Definition gaussian_quotient (va vb : complex di_int) : complex df_frac :=
  frac_quotient (promote va) (promote vb).

(** The Gaussian zero test on components, as [dc_int_is_zero]. *)
Definition int_is_zero (v : complex di_int) : bool :=
  di_is_zero (real v) && di_is_zero (imag v).

(** The double that holds the integer [k] (negated if [s]) exactly, for
    [k] of at most 53 binary digits: the mantissa is [k] shifted to 53 digits
    and the exponent undoes the shift. *)
Definition exact_double (s : bool) (k : positive) : double :=
  S754_finite s (Z.to_pos (Z.pos k * 2 ^ (53 - Z.pos (digits2_pos k))))
              (Z.pos (digits2_pos k) - 53).

(** A state holding the Gaussian integer [2^53 + 1] at pointer 1. *)
Definition large_world : world :=
  alloc Int (Cell 1 (Complex (2 ^ 53 + 1) 0)) initial_world.

(** A property of the components behind a handle that must be live. *)
Definition holds {T} (K : kind T) (w : world) (c : handle) (P : T -> bool) : bool :=
  match value_at K w c with
  | Some v => P v
  | None => false
  end.

Definition is_live {T} (K : kind T) (w : world) (c : handle) : bool :=
  holds K w c (fun _ => true).

(** The double complex zero test on components, as [dc_double_is_zero]. *)
Definition double_is_zero (v : complex double) : bool :=
  double_eqb (creal v) double_zero && double_eqb (cimag v) double_zero.

(** Both denominators of a rational complex value are positive. *)
Definition positive_denominators (v : complex df_frac) : bool :=
  (0 <? denominator (real v)) && (0 <? denominator (imag v)).

(** [(int64_t)round(x)] is defined. *)
Definition roundable (x : double) : bool :=
  match double_to_int64 (round x) with Some _ => true | None => false end.

(** The preconditions of a constructing call: its handle operands are live
    (fractions with the engine's positive denominators where the engine
    divides), a divisor or the argument of the logarithm is not zero, a
    denominator given as an integer is not zero, the bound on the
    denominator is positive, and a component to be converted to [int64_t]
    has one. *)
Definition well_formed (c : call) (w : world) : bool :=
  match c with
  | call_dc_int_from_di re im => negb (is_null re) && negb (is_null im)
  | call_dc_int_copy c | call_dc_int_negate c | call_dc_int_conj c
  | call_dc_int_to_frac c | call_dc_int_to_double c => is_live Int w c
  | call_dc_int_add a b | call_dc_int_sub a b | call_dc_int_mul a b =>
      is_live Int w a && is_live Int w b
  | call_dc_int_div a b =>
      is_live Int w a && holds Int w b (fun v => negb (int_is_zero v))
  | call_dc_frac_from_ints _ real_den _ imag_den =>
      negb (real_den =? 0) && negb (imag_den =? 0)
  | call_dc_frac_from_df re im => negb (is_null re) && negb (is_null im)
  | call_dc_frac_copy c | call_dc_frac_negate c | call_dc_frac_conj c
  | call_dc_frac_to_double c => is_live Rat w c
  | call_dc_frac_add a b | call_dc_frac_sub a b | call_dc_frac_mul a b =>
      is_live Rat w a && is_live Rat w b
  | call_dc_frac_div a b =>
      is_live Rat w a
      && holds Rat w b (fun v => positive_denominators v && negb (frac_is_zero v))
  | call_dc_frac_reciprocal c =>
      holds Rat w c (fun v => positive_denominators v && negb (frac_is_zero v))
  | call_dc_frac_to_int c =>
      holds Rat w c (fun v => roundable (df_to_double (real v))
                              && roundable (df_to_double (imag v)))
  | call_dc_double_copy c | call_dc_double_negate c | call_dc_double_conj c
  | call_dc_double_exp c | call_dc_double_sqrt c | call_dc_double_sin c
  | call_dc_double_cos c | call_dc_double_tan c | call_dc_double_sinh c
  | call_dc_double_cosh c | call_dc_double_tanh c => is_live Dbl w c
  | call_dc_double_add a b | call_dc_double_sub a b | call_dc_double_mul a b
  | call_dc_double_pow a b => is_live Dbl w a && is_live Dbl w b
  | call_dc_double_div a b =>
      is_live Dbl w a && holds Dbl w b (fun v => negb (double_is_zero v))
  | call_dc_double_log c => holds Dbl w c (fun v => negb (double_is_zero v))
  | call_dc_double_to_int c =>
      holds Dbl w c (fun v => roundable (creal v) && roundable (cimag v))
  | call_dc_double_to_frac c max_denominator =>
      is_live Dbl w c && (0 <? max_denominator)
  | _ => true
  end.

(** A runtime to evaluate calls with when none of its functions matters. *)
Definition trivial_runtime : runtime :=
  Runtime (fun z _ => z) (fun z _ => z) id id (fun z _ => z) id id id id id id id
          real real (fun _ => ""%string) (fun _ _ => df_zero).

(* ====================================================================== *)
(** ** Definitions used by the further properties *)
(* ====================================================================== *)

(** The components of an object of any of the three types. *)
Inductive components : Type :=
| IntValue (v : complex di_int)
| FracValue (v : complex df_frac)
| DoubleValue (v : complex double).

(** The object behind a pointer, if it is live: its count and components. *)
Definition object_at (t : ctype) (w : world) (p : loc) : option (Z * components) :=
  match t with
  | TInt => (fun o => (ref_count o, IntValue (value o))) <$> objects (ints w) !! p
  | TFrac => (fun o => (ref_count o, FracValue (value o))) <$> objects (fracs w) !! p
  | TDouble => (fun o => (ref_count o, DoubleValue (value o))) <$> objects (doubles w) !! p
  end.

Definition retain_of (t : ctype) : handle -> M world handle :=
  match t with
  | TInt => dc_int_retain
  | TFrac => dc_frac_retain
  | TDouble => dc_double_retain
  end.

(** The fifteen singleton accessors, by type and constant. *)
Definition accessor_of (t : ctype) (s : singleton) : M world handle :=
  match t, s with
  | TInt, zero_singleton => dc_int_zero
  | TInt, one_singleton => dc_int_one
  | TInt, i_singleton => dc_int_i
  | TInt, neg_one_singleton => dc_int_neg_one
  | TInt, neg_i_singleton => dc_int_neg_i
  | TFrac, zero_singleton => dc_frac_zero
  | TFrac, one_singleton => dc_frac_one
  | TFrac, i_singleton => dc_frac_i
  | TFrac, neg_one_singleton => dc_frac_neg_one
  | TFrac, neg_i_singleton => dc_frac_neg_i
  | TDouble, zero_singleton => dc_double_zero
  | TDouble, one_singleton => dc_double_one
  | TDouble, i_singleton => dc_double_i
  | TDouble, neg_one_singleton => dc_double_neg_one
  | TDouble, neg_i_singleton => dc_double_neg_i
  end.

(** The constants 0, 1, i, -1 and -i as pairs of integers, and as components
    of each type: [n/1] for a fraction, the double of the integer for a
    double. *)
Definition unit_of (s : singleton) : complex Z :=
  match s with
  | zero_singleton => Complex 0 0
  | one_singleton => Complex 1 0
  | i_singleton => Complex 0 1
  | neg_one_singleton => Complex (-1) 0
  | neg_i_singleton => Complex 0 (-1)
  end.

Definition constant_of (t : ctype) (s : singleton) : components :=
  let u := unit_of s in
  match t with
  | TInt => IntValue u
  | TFrac => FracValue (Complex (Frac (real u) 1) (Frac (imag u) 1))
  | TDouble => DoubleValue (Complex (double_of_Z (real u)) (double_of_Z (imag u)))
  end.

Definition all_singletons : list singleton :=
  [zero_singleton; one_singleton; i_singleton; neg_one_singleton; neg_i_singleton].

(** One of the five singleton pointers of the type holds [p]. *)
Definition held_by_singleton (t : ctype) (w : world) (p : loc) : bool :=
  existsb (fun s => bool_decide (static_of t w s = Some p)) all_singletons.

(** No singleton pointer dangles. *)
Definition singletons_live (w : world) : Prop :=
  forall t s p, static_of t w s = Some p -> live t w p = true.

(** No singleton pointer of an arena dangles; [singletons_live] says so of
    the three arenas. *)
Definition arena_ok {T} (a : arena T) : Prop :=
  forall s p, statics a s = Some p -> is_Some (objects a !! p).

(** Every live object of an arena has components with the property [Q]. *)
Definition arena_all {T} (Q : T -> Prop) (a : arena T) : Prop :=
  forall p o, objects a !! p = Some o -> Q (value o).

(** The components [dc_frac_mul] stores in its result, written with the
    engine operations in the order of the header. *)
Definition frac_product (va vb : complex df_frac) : complex df_frac :=
  let ac := df_mul (real va) (real vb) in
  let bd := df_mul (imag va) (imag vb) in
  let ad := df_mul (real va) (imag vb) in
  let bc := df_mul (imag va) (real vb) in
  Complex (df_sub ac bd) (df_add ad bc).

(** Every live rational complex value is in reduced form. *)
Definition fractions_reduced (w : world) : Prop := arena_all reduced (fracs w).

(** The fractions a call brings in from outside, if any, are reduced. *)
Definition reduced_operands (c : call) : Prop :=
  match c with
  | call_dc_frac_from_df (Some re) (Some im) => df_reduced re /\ df_reduced im
  | _ => True
  end.

(** A double is one of the two zeros. *)
Definition is_signed_zero (x : double) : bool :=
  match x with S754_zero _ => true | _ => false end.

(** Two doubles agree: both are NaN or neither is, and when they are not
    NaN they are the same datum, sign of zero included.  Which NaN an
    operation returns is left open. *)
Definition double_agree (x y : double) : Prop :=
  isnan x = isnan y /\ (isnan x = false -> x = y).

Definition complex_agree (u v : complex double) : Prop :=
  double_agree (real u) (real v) /\ double_agree (imag u) (imag v).

(** [sample_world] after the first use of [dc_int_zero] and [dc_frac_zero]:
    the Gaussian zero and the rational zero are live, each at pointer 3. *)
Definition zeros_world : world :=
  world_after (dc_int_zero;; dc_frac_zero) sample_world.

(** [sample_world] with a second double complex value, [i], at pointer 2. *)
Definition doubles_world : world :=
  alloc Dbl (Cell 1 (Complex double_zero double_one)) sample_world.

(** A client program, as the sequence of exported calls it makes; the
    results are collected. *)
Fixpoint run_calls {rt : runtime} (cs : list call) : M world (list result) :=
  match cs with
  | [] => ret []
  | c :: cs' =>
      r ← exec c;
      rs ← run_calls cs';
      ret (r :: rs)
  end.

(* ====================================================================== *)
(** * Theorems *)
(* ====================================================================== *)

(** ** The rational engine: invariant and denotation *)

Lemma df_normalize_spec n d :
  d <> 0 ->
  0 < denominator (df_normalize n d)
  /\ Z.gcd (numerator (df_normalize n d)) (denominator (df_normalize n d)) = 1
  /\ numerator (df_normalize n d) * d = n * denominator (df_normalize n d).
Proof.
  intros Hd. unfold df_normalize.
  set (g := Z.gcd n d).
  assert (Hg : 0 < g).
  { pose proof (Z.gcd_nonneg n d). assert (g <> 0); [|lia].
    unfold g. intros H0. apply Z.gcd_eq_0_r in H0. contradiction. }
  assert (Hcop : Z.gcd (n / g) (d / g) = 1).
  { apply Z.gcd_div_gcd; [lia | reflexivity]. }
  destruct (Z.gcd_divide_l n d) as [n' Hn].
  destruct (Z.gcd_divide_r n d) as [d' Hd'].
  fold g in Hn, Hd'.
  assert (En : n / g = n') by (rewrite Hn; apply Z.div_mul; lia).
  assert (Ed : d / g = d') by (rewrite Hd'; apply Z.div_mul; lia).
  assert (En' : - n / g = - n').
  { rewrite Hn, <- Z.mul_opp_l. apply Z.div_mul; lia. }
  assert (Ed'' : - d / g = - d').
  { rewrite Hd', <- Z.mul_opp_l. apply Z.div_mul; lia. }
  rewrite En, Ed in Hcop.
  destruct (d <? 0) eqn:Hneg; cbn [numerator denominator].
  - apply Z.ltb_lt in Hneg. rewrite En', Ed''.
    split; [nia|]. split.
    + rewrite Z.gcd_opp_l, Z.gcd_opp_r. exact Hcop.
    + clearbody g. subst n d. ring.
  - apply Z.ltb_ge in Hneg. rewrite En, Ed.
    split; [nia|]. split; [exact Hcop|].
    clearbody g. subst n d. ring.
Qed.

Lemma df_normalize_reduced n d : d <> 0 -> df_reduced (df_normalize n d).
Proof. intros H. destruct (df_normalize_spec n d H) as (? & ? & ?). split; assumption. Qed.

(** The denotation of a normalised pair, for either sign of the denominator. *)
Lemma df_normalize_Q n d :
  d <> 0 -> df_to_Q (df_normalize n d) == inject_Z n / inject_Z d.
Proof.
  intros Hd. destruct (df_normalize_spec n d Hd) as (Hpos & _ & Hx).
  unfold df_to_Q. set (r := df_normalize n d) in *.
  assert (Hq : ~ inject_Z d == 0).
  { unfold Qeq, inject_Z. simpl. lia. }
  apply (Qmult_inj_r _ _ (inject_Z d) Hq).
  rewrite (Qmult_comm (_ / _)), Qmult_div_r by exact Hq.
  unfold Qeq, Qmult, inject_Z. simpl.
  rewrite Pos.mul_1_r, Z2Pos.id by exact Hpos. lia.
Qed.

Lemma df_to_Q_frac a :
  0 < denominator a -> df_to_Q a == inject_Z (numerator a) / inject_Z (denominator a).
Proof.
  intros Hpos. unfold df_to_Q.
  assert (Hq : ~ inject_Z (denominator a) == 0).
  { unfold Qeq, inject_Z. simpl. lia. }
  apply (Qmult_inj_r _ _ (inject_Z (denominator a)) Hq).
  rewrite (Qmult_comm (_ / _)), Qmult_div_r by exact Hq.
  unfold Qeq, Qmult, inject_Z. simpl.
  rewrite Pos.mul_1_r, Z2Pos.id by exact Hpos. lia.
Qed.

Lemma inject_Z_nonzero z : z <> 0 -> ~ inject_Z z == 0.
Proof. unfold Qeq, inject_Z. simpl. lia. Qed.

Lemma df_add_Q a b :
  0 < denominator a -> 0 < denominator b ->
  df_to_Q (df_add a b) == df_to_Q a + df_to_Q b.
Proof.
  intros Ha Hb. unfold df_add.
  rewrite df_normalize_Q by nia.
  rewrite (df_to_Q_frac a Ha), (df_to_Q_frac b Hb).
  rewrite inject_Z_plus, !inject_Z_mult.
  field. split; apply inject_Z_nonzero; lia.
Qed.

Lemma df_sub_Q a b :
  0 < denominator a -> 0 < denominator b ->
  df_to_Q (df_sub a b) == df_to_Q a - df_to_Q b.
Proof.
  intros Ha Hb. unfold df_sub.
  rewrite df_normalize_Q by nia.
  rewrite (df_to_Q_frac a Ha), (df_to_Q_frac b Hb).
  unfold Z.sub. rewrite inject_Z_plus, inject_Z_opp, !inject_Z_mult.
  field. split; apply inject_Z_nonzero; lia.
Qed.

Lemma df_mul_Q a b :
  0 < denominator a -> 0 < denominator b ->
  df_to_Q (df_mul a b) == df_to_Q a * df_to_Q b.
Proof.
  intros Ha Hb. unfold df_mul.
  rewrite df_normalize_Q by nia.
  rewrite (df_to_Q_frac a Ha), (df_to_Q_frac b Hb).
  rewrite !inject_Z_mult.
  field. split; apply inject_Z_nonzero; lia.
Qed.

Lemma df_quot_Q a b :
  0 < denominator a -> 0 < denominator b -> numerator b <> 0 ->
  df_to_Q (df_quot a b) == df_to_Q a / df_to_Q b.
Proof.
  intros Ha Hb Hn. unfold df_quot.
  rewrite df_normalize_Q by nia.
  rewrite (df_to_Q_frac a Ha), (df_to_Q_frac b Hb).
  rewrite !inject_Z_mult.
  field. repeat split; apply inject_Z_nonzero; lia.
Qed.

Lemma df_add_reduced a b :
  0 < denominator a -> 0 < denominator b -> df_reduced (df_add a b).
Proof. intros. apply df_normalize_reduced. nia. Qed.

Lemma df_sub_reduced a b :
  0 < denominator a -> 0 < denominator b -> df_reduced (df_sub a b).
Proof. intros. apply df_normalize_reduced. nia. Qed.

Lemma df_mul_reduced a b :
  0 < denominator a -> 0 < denominator b -> df_reduced (df_mul a b).
Proof. intros. apply df_normalize_reduced. nia. Qed.

Lemma df_quot_reduced a b :
  0 < denominator a -> 0 < denominator b -> numerator b <> 0 ->
  df_reduced (df_quot a b).
Proof. intros. apply df_normalize_reduced. nia. Qed.

Lemma df_negate_reduced a : df_reduced a -> df_reduced (df_negate a).
Proof.
  intros [Hp Hg]. split; cbn; [exact Hp|]. rewrite Z.gcd_opp_l. exact Hg.
Qed.

(** The sign of a normalised numerator is that of the quotient it denotes. *)
Lemma df_normalize_sign n d :
  0 < d ->
  (numerator (df_normalize n d) = 0 <-> n = 0)
  /\ (0 <= n -> 0 <= numerator (df_normalize n d)).
Proof.
  intros Hd. destruct (df_normalize_spec n d) as (Hp & _ & Hx); [lia|].
  split; [split|]; intros; nia.
Qed.

(** The squared modulus [c*c + d*d] of a non-zero divisor is not zero, so
    the two divisions of [dc_frac_div] pass the engine's assertion. *)
Lemma squared_modulus_nonzero c d :
  0 < denominator c -> 0 < denominator d ->
  df_is_zero c && df_is_zero d = false ->
  df_is_zero (df_add (df_mul c c) (df_mul d d)) = false.
Proof.
  intros Hc Hd Hnz. unfold df_is_zero in *.
  apply Z.eqb_neq. intros H0.
  destruct (df_mul_reduced c c Hc Hc) as [Hcc _].
  destruct (df_mul_reduced d d Hd Hd) as [Hdd _].
  unfold df_add in H0. apply df_normalize_sign in H0; [|nia].
  destruct (df_normalize_sign (numerator c * numerator c)
              (denominator c * denominator c)) as [Hc0 Hc1]; [nia|].
  destruct (df_normalize_sign (numerator d * numerator d)
              (denominator d * denominator d)) as [Hd0 Hd1]; [nia|].
  fold (df_mul c c) in Hc0, Hc1. fold (df_mul d d) in Hd0, Hd1.
  assert (0 <= numerator (df_mul c c)) by (apply Hc1; nia).
  assert (0 <= numerator (df_mul d d)) by (apply Hd1; nia).
  assert (numerator (df_mul c c) = 0 /\ numerator (df_mul d d) = 0) as [E1 E2] by nia.
  apply Hc0 in E1. apply Hd0 in E2.
  assert (numerator c = 0) by nia. assert (numerator d = 0) by nia.
  apply andb_false_iff in Hnz. destruct Hnz as [Hnz|Hnz]; apply Z.eqb_neq in Hnz; lia.
Qed.

(** With a reduced fraction, a denominator of one is the same as denoting
    an integer. *)
Lemma df_is_integer_iff a :
  df_reduced a ->
  (df_is_integer a = true <-> exists z : Z, df_to_Q a == inject_Z z).
Proof.
  intros [Hp Hg]. unfold df_is_integer, df_to_Q. rewrite Z.eqb_eq. split.
  - intros H1. exists (numerator a). rewrite H1. reflexivity.
  - intros [z Hz]. unfold Qeq, inject_Z in Hz. simpl in Hz.
    rewrite Z2Pos.id in Hz by exact Hp.
    assert (Hdiv : (denominator a | numerator a)).
    { exists z. lia. }
    assert (Hd : (denominator a | Z.gcd (numerator a) (denominator a))).
    { apply Z.gcd_greatest; [exact Hdiv | apply Z.divide_refl]. }
    rewrite Hg in Hd. apply Z.divide_1_r_nonneg in Hd; lia.
Qed.

(** ** The monad: evaluation and inversion *)

Global Instance Int_lawful : lawful Int.
Proof. split; intros; try destruct w; reflexivity. Qed.
Global Instance Rat_lawful : lawful Rat.
Proof. split; intros; try destruct w; reflexivity. Qed.
Global Instance Dbl_lawful : lawful Dbl.
Proof. split; intros; try destruct w; reflexivity. Qed.

Section Eval.
Context {S : Type}.

Lemma bind_intro {A B} (m : M S A) (f : A -> M S B) s a s1 r :
  m s = Ret a s1 -> f a s1 = r -> bind m f s = r.
Proof. intros H1 H2. unfold bind. rewrite H1. exact H2. Qed.

Lemma bind_inv {A B} (m : M S A) (f : A -> M S B) s b s2 :
  bind m f s = Ret b s2 -> exists a s1, m s = Ret a s1 /\ f a s1 = Ret b s2.
Proof.
  unfold bind. destruct (m s) as [a s1| |]; intros H; try discriminate.
  exists a, s1. split; [reflexivity | exact H].
Qed.

Lemma assert_intro (cond : bool) msg (s : S) :
  cond = true -> DC_ASSERT cond msg s = Ret tt s.
Proof. intros ->. reflexivity. Qed.

Lemma assert_inv (cond : bool) msg (s s' : S) u :
  DC_ASSERT cond msg s = Ret u s' -> cond = true /\ s' = s.
Proof. unfold DC_ASSERT. destruct cond; intros H; inversion H; auto. Qed.

Lemma ret_inv {A} (a b : A) (s s' : S) : ret a s = Ret b s' -> b = a /\ s' = s.
Proof. unfold ret. intros H; inversion H; auto. Qed.
End Eval.

Section Lens.
Context {T : Type} (K : kind T) `{!lawful K}.

Lemma fields_intro w c v : value_at K w c = Some v -> fields K c w = Ret v w.
Proof.
  unfold value_at, fields, bind, on, deref, ret.
  destruct c as [p|]; [|discriminate].
  destruct (objects (arena_of K w) !! p) as [o|]; [|discriminate].
  cbn. intros [= <-]. rewrite with_arena_of. reflexivity.
Qed.

Lemma fields_inv w c v w' :
  fields K c w = Ret v w' -> w' = w /\ value_at K w c = Some v.
Proof.
  unfold value_at, fields, bind, on, deref, ret.
  destruct c as [p|]; [|discriminate].
  destruct (objects (arena_of K w) !! p) as [o|]; [|discriminate].
  cbn. intros [= <- <-]. rewrite with_arena_of. auto.
Qed.

Lemma malloc_eval init w :
  on K (DC_MALLOC init) w = Ret (Some (new_loc K w)) (alloc K init w).
Proof. reflexivity. Qed.

Lemma new_loc_fresh w : objects (arena_of K w) !! new_loc K w = None.
Proof. apply not_elem_of_dom. unfold new_loc. apply is_fresh. Qed.

Lemma alloc_objects init w :
  objects (arena_of K (alloc K init w))
  = <[new_loc K w := init]> (objects (arena_of K w)).
Proof. unfold alloc. rewrite arena_of_with. reflexivity. Qed.

Lemma alloc_value_new init w :
  value_at K (alloc K init w) (Some (new_loc K w)) = Some (value init).
Proof. unfold value_at. rewrite alloc_objects, lookup_insert_eq. reflexivity. Qed.

(** An allocation leaves every live handle with its components. *)
Lemma alloc_value_old init w c v :
  value_at K w c = Some v -> value_at K (alloc K init w) c = Some v.
Proof.
  unfold value_at. destruct c as [p|]; [|discriminate]. intros H.
  rewrite alloc_objects, lookup_insert_ne; [exact H|].
  intros E. rewrite <- E, new_loc_fresh in H. discriminate.
Qed.

Lemma alloc_lookup_old init w p o :
  objects (arena_of K w) !! p = Some o ->
  objects (arena_of K (alloc K init w)) !! p = Some o.
Proof.
  intros H. rewrite alloc_objects, lookup_insert_ne; [exact H|].
  intros E. rewrite <- E, new_loc_fresh in H. discriminate.
Qed.

Lemma alloc_lookup_new init w :
  objects (arena_of K (alloc K init w)) !! new_loc K w = Some init.
Proof. rewrite alloc_objects. apply lookup_insert_eq. Qed.

Lemma new_loc_ne w p o :
  objects (arena_of K w) !! p = Some o -> p <> new_loc K w.
Proof. intros H E. rewrite E, new_loc_fresh in H. discriminate. Qed.
End Lens.

Lemma value_at_notnull {T} (K : kind T) w c v :
  value_at K w c = Some v -> notnull c = true.
Proof. destruct c; [reflexivity | discriminate]. Qed.

(** Evaluation of straight-line code: each step either is an assertion that
    holds, reads the components of a live handle, or allocates. *)
Ltac eval_atom :=
  first
    [ apply assert_intro;
      first [ eapply value_at_notnull; eassumption | reflexivity | eassumption
            | apply Z.ltb_lt; eassumption ]
    | apply fields_intro; [ typeclasses eauto | eassumption ]
    | apply malloc_eval
    | reflexivity ].

Ltac eval_step :=
  cbv beta zeta;
  lazymatch goal with
  | |- bind _ _ _ = _ => eapply bind_intro; [ eval_atom | ]
  | |- _ => eval_atom
  end.

Lemma dc_frac_is_zero_eval w c v :
  value_at Rat w c = Some v ->
  dc_frac_is_zero c w = Ret (df_is_zero (real v) && df_is_zero (imag v)) w.
Proof. intros Hc. unfold dc_frac_is_zero. repeat eval_step. Qed.

Lemma dc_frac_from_df_eval w re im :
  dc_frac_from_df (Some re) (Some im) w
  = Ret (Some (new_loc Rat w)) (alloc Rat (Cell 1 (Complex re im)) w).
Proof. reflexivity. Qed.

Lemma dc_frac_div_eval w a b va vb :
  value_at Rat w a = Some va -> value_at Rat w b = Some vb ->
  0 < denominator (real vb) -> 0 < denominator (imag vb) ->
  frac_is_zero vb = false ->
  dc_frac_div a b w
  = Ret (Some (new_loc Rat w)) (alloc Rat (Cell 1 (frac_quotient va vb)) w).
Proof.
  intros Ha Hb Hc Hd Hnz. unfold frac_is_zero in Hnz.
  pose proof (squared_modulus_nonzero _ _ Hc Hd Hnz) as Hden.
  unfold dc_frac_div.
  eval_step. eval_step.
  eapply bind_intro; [apply dc_frac_is_zero_eval; eassumption|].
  eapply bind_intro; [apply assert_intro; rewrite Hnz; reflexivity|].
  eval_step. eval_step.
  unfold df_div.
  eapply bind_intro.
  { eapply bind_intro; [apply assert_intro; rewrite Hden; reflexivity | reflexivity]. }
  eapply bind_intro.
  { eapply bind_intro; [apply assert_intro; rewrite Hden; reflexivity | reflexivity]. }
  reflexivity.
Qed.

Lemma dc_frac_div_by_zero w a b va vb :
  value_at Rat w a = Some va -> value_at Rat w b = Some vb ->
  frac_is_zero vb = true ->
  dc_frac_div a b w = AssertFail "dc_frac_div: division by zero".
Proof.
  intros Ha Hb Hz. unfold frac_is_zero in Hz. unfold dc_frac_div.
  eval_step. eval_step.
  eapply bind_intro; [apply dc_frac_is_zero_eval; eassumption|].
  rewrite Hz. reflexivity.
Qed.

(** What the stored quotient denotes. *)
Lemma frac_quotient_denotes va vb :
  0 < denominator (real va) -> 0 < denominator (imag va) ->
  0 < denominator (real vb) -> 0 < denominator (imag vb) ->
  frac_is_zero vb = false ->
  reduced (frac_quotient va vb)
  /\ df_to_Q (real (frac_quotient va vb))
     == (df_to_Q (real va) * df_to_Q (real vb) + df_to_Q (imag va) * df_to_Q (imag vb))
        / (df_to_Q (real vb) * df_to_Q (real vb) + df_to_Q (imag vb) * df_to_Q (imag vb))
  /\ df_to_Q (imag (frac_quotient va vb))
     == (df_to_Q (imag va) * df_to_Q (real vb) - df_to_Q (real va) * df_to_Q (imag vb))
        / (df_to_Q (real vb) * df_to_Q (real vb) + df_to_Q (imag vb) * df_to_Q (imag vb)).
Proof.
  intros Har Hai Hc Hd Hnz. unfold frac_is_zero in Hnz.
  pose proof (squared_modulus_nonzero _ _ Hc Hd Hnz) as Hden.
  apply Z.eqb_neq in Hden. unfold frac_quotient.
  set (denom := df_add (df_mul (real vb) (real vb)) (df_mul (imag vb) (imag vb))) in *.
  set (real_num := df_add (df_mul (real va) (real vb)) (df_mul (imag va) (imag vb))) in *.
  set (imag_num := df_sub (df_mul (imag va) (real vb)) (df_mul (real va) (imag vb))) in *.
  assert (Hdp : 0 < denominator denom).
  { apply df_add_reduced; apply df_mul_reduced; assumption. }
  assert (Hrp : 0 < denominator real_num).
  { apply df_add_reduced; apply df_mul_reduced; assumption. }
  assert (Hip : 0 < denominator imag_num).
  { apply df_sub_reduced; apply df_mul_reduced; assumption. }
  assert (Hcc : 0 < denominator (df_mul (real vb) (real vb))) by (apply df_mul_reduced; assumption).
  assert (Hdd : 0 < denominator (df_mul (imag vb) (imag vb))) by (apply df_mul_reduced; assumption).
  assert (Hac : 0 < denominator (df_mul (real va) (real vb))) by (apply df_mul_reduced; assumption).
  assert (Hbd : 0 < denominator (df_mul (imag va) (imag vb))) by (apply df_mul_reduced; assumption).
  assert (Hbc : 0 < denominator (df_mul (imag va) (real vb))) by (apply df_mul_reduced; assumption).
  assert (Had : 0 < denominator (df_mul (real va) (imag vb))) by (apply df_mul_reduced; assumption).
  assert (Edenom : df_to_Q denom
                   == df_to_Q (real vb) * df_to_Q (real vb)
                      + df_to_Q (imag vb) * df_to_Q (imag vb)).
  { unfold denom. rewrite df_add_Q, !df_mul_Q by assumption. reflexivity. }
  cbn [real imag]. split; [|split].
  - split; cbn [real imag]; apply df_quot_reduced; assumption.
  - rewrite df_quot_Q by assumption. rewrite Edenom.
    unfold real_num. rewrite df_add_Q, !df_mul_Q by assumption. reflexivity.
  - rewrite df_quot_Q by assumption. rewrite Edenom.
    unfold imag_num. rewrite df_sub_Q, !df_mul_Q by assumption. reflexivity.
Qed.

(** ** Rational division *)

(** C2: for live rational complex operands [a = a_r + a_i i] and
    [b = c + d i] in reduced form, with [b] not zero, [dc_frac_div a b]
    returns a rational complex value in reduced form whose real part denotes
    [(a_r c + a_i d) / (c c + d d)] and whose imaginary part denotes
    [(a_i c - a_r d) / (c c + d d)]; with [b] zero the call stops at the
    assertion "dc_frac_div: division by zero". *)
Theorem dc_frac_div_formula w a b va vb :
  value_at Rat w a = Some va -> value_at Rat w b = Some vb ->
  reduced va -> reduced vb ->
  (frac_is_zero vb = false ->
   exists v, returns Rat (dc_frac_div a b) w v
     /\ reduced v
     /\ df_to_Q (real v)
        == (df_to_Q (real va) * df_to_Q (real vb) + df_to_Q (imag va) * df_to_Q (imag vb))
           / (df_to_Q (real vb) * df_to_Q (real vb) + df_to_Q (imag vb) * df_to_Q (imag vb))
     /\ df_to_Q (imag v)
        == (df_to_Q (imag va) * df_to_Q (real vb) - df_to_Q (real va) * df_to_Q (imag vb))
           / (df_to_Q (real vb) * df_to_Q (real vb) + df_to_Q (imag vb) * df_to_Q (imag vb)))
  /\ (frac_is_zero vb = true ->
      dc_frac_div a b w = AssertFail "dc_frac_div: division by zero").
Proof.
  intros Ha Hb [[Har _] [Hai _]] [[Hc _] [Hd _]]. split.
  - intros Hnz.
    destruct (frac_quotient_denotes va vb Har Hai Hc Hd Hnz) as (Hred & Hre & Him).
    exists (frac_quotient va vb). repeat split; try assumption; try apply Hred.
    eexists _, _. split; [apply (dc_frac_div_eval w a b va vb); assumption|].
    apply (alloc_value_new Rat).
  - intros Hz. apply (dc_frac_div_by_zero w a b va vb); assumption.
Qed.

Lemma dc_frac_div_formula_witness :
  exists v, returns Rat (dc_frac_div (Some 1%positive) (Some 2%positive)) sample_world v
    /\ reduced v /\ df_to_Q (real v) == 2 # 75 /\ df_to_Q (imag v) == 12 # 25.
Proof.
  destruct (dc_frac_div_formula sample_world (Some 1%positive) (Some 2%positive)
              (Complex (Frac 1 2) (Frac 1 3)) (Complex (Frac 3 4) (Frac (-1) 1)))
    as [Hdiv _].
  - vm_compute. reflexivity.
  - vm_compute. reflexivity.
  - repeat split; reflexivity.
  - repeat split; reflexivity.
  - destruct (Hdiv eq_refl) as (v & Hret & Hred & Hre & Him).
    exists v. repeat split; try assumption; try apply Hred.
    + rewrite Hre. vm_compute. reflexivity.
    + rewrite Him. vm_compute. reflexivity.
Defined.

(** ** Reference counting *)

Section Lifecycle.
Context {T : Type}.
Implicit Types (a : arena T) (p : loc) (o : cell T).

Lemma deref_eval a p o :
  objects a !! p = Some o -> deref (Some p) a = Ret o a.
Proof. intros H. unfold deref. rewrite H. reflexivity. Qed.

Lemma store_eval a p o v :
  objects a !! p = Some o ->
  DC_ATOMIC_STORE (Some p) v a
  = Ret tt (Arena (<[p := Cell v (value o)]> (objects a)) (statics a)).
Proof. intros H. unfold DC_ATOMIC_STORE, bind. rewrite (deref_eval _ _ _ H). reflexivity. Qed.

Lemma fetch_sub_eval a p o :
  objects a !! p = Some o ->
  DC_ATOMIC_FETCH_SUB (Some p) 1 a
  = Ret (ref_count o)
        (Arena (<[p := Cell (size_t (ref_count o - 1)) (value o)]> (objects a))
               (statics a)).
Proof.
  intros H. unfold DC_ATOMIC_FETCH_SUB, bind.
  rewrite (deref_eval _ _ _ H), (store_eval _ _ _ _ H). reflexivity.
Qed.

Lemma fetch_add_eval a p o :
  objects a !! p = Some o ->
  DC_ATOMIC_FETCH_ADD (Some p) 1 a
  = Ret (ref_count o)
        (Arena (<[p := Cell (size_t (ref_count o + 1)) (value o)]> (objects a))
               (statics a)).
Proof.
  intros H. unfold DC_ATOMIC_FETCH_ADD, bind.
  rewrite (deref_eval _ _ _ H), (store_eval _ _ _ _ H). reflexivity.
Qed.

Lemma is_singleton_static a p s :
  statics a s = Some p -> is_singleton (Some p) a = Ret true a.
Proof.
  intros H. unfold is_singleton. f_equal. cbn [notnull andb].
  destruct s; rewrite (bool_decide_eq_true_2 _ (eq_sym H));
    rewrite ?orb_true_r; reflexivity.
Qed.

(** One release of a live object: the caller's variable becomes NULL, the
    singleton pointers and every other object are as before, and the
    object itself survives with its count decremented unless the old count
    was one and no singleton pointer holds it. *)
Lemma release_live a p o :
  objects a !! p = Some o ->
  exists a',
    release (Some (Some p)) a = Ret (Some NULL) a'
    /\ statics a' = statics a
    /\ (forall q, q <> p -> objects a' !! q = objects a !! q)
    /\ ((exists s, statics a s = Some p) \/ ref_count o <> 1 ->
        objects a' !! p = Some (Cell (size_t (ref_count o - 1)) (value o))).
Proof.
  intros H. unfold release, bind. rewrite (fetch_sub_eval _ _ _ H).
  set (a1 := Arena _ _).
  destruct (ref_count o =? 1) eqn:E1.
  - unfold is_singleton. cbv beta iota.
    set (single := (_ && _)%bool).
    assert (Hs : (exists s, statics a s = Some p) -> single = true).
    { intros [s Hs]. pose proof (is_singleton_static a1 p s Hs) as Hx.
      unfold is_singleton in Hx. injection Hx as Hx. exact Hx. }
    destruct single eqn:Es.
    + exists a1. repeat split.
      * intros q Hq. cbn. apply lookup_insert_ne. congruence.
      * intros _. cbn. apply lookup_insert_eq.
    + unfold DC_FREE. cbn [objects a1]. rewrite lookup_insert_eq.
      eexists. split; [reflexivity|]. repeat split.
      * intros q Hq. cbn. rewrite lookup_delete_ne, lookup_insert_ne by congruence.
        reflexivity.
      * intros [Hx|Hx]; [apply Hs in Hx; discriminate|].
        apply Z.eqb_eq in E1. contradiction.
  - exists a1. repeat split.
    + intros q Hq. cbn. apply lookup_insert_ne. congruence.
    + intros _. cbn. apply lookup_insert_eq.
Qed.

Lemma retain_live a p o msg :
  objects a !! p = Some o ->
  retain msg (Some p) a
  = Ret (Some p)
        (Arena (<[p := Cell (size_t (ref_count o + 1)) (value o)]> (objects a))
               (statics a)).
Proof.
  intros H. unfold retain, bind, DC_ASSERT. cbn [notnull].
  rewrite (fetch_add_eval _ _ _ H). reflexivity.
Qed.
End Lifecycle.

Section LifecycleWorld.
Context {T : Type} (K : kind T) `{!lawful K}.

Lemma on_release_live w p o :
  objects (arena_of K w) !! p = Some o ->
  exists a',
    on K (release (Some (Some p))) w = Ret (Some NULL) (with_arena K a' w)
    /\ statics a' = statics (arena_of K w)
    /\ (forall q, q <> p -> objects a' !! q = objects (arena_of K w) !! q)
    /\ ((exists s, statics (arena_of K w) s = Some p) \/ ref_count o <> 1 ->
        objects a' !! p = Some (Cell (size_t (ref_count o - 1)) (value o))).
Proof.
  intros H. destruct (release_live _ _ _ H) as (a' & Hr & Hrest).
  exists a'. split; [|exact Hrest]. unfold on. rewrite Hr. reflexivity.
Qed.
End LifecycleWorld.

Lemma release_of_singleton t w s p c :
  static_of t w s = Some p -> count_of t w p = Some c ->
  exists w', release_of t (Some (Some p)) w = Ret (Some NULL) w'
             /\ count_of t w' p = Some (size_t (c - 1))
             /\ (forall s', static_of t w' s' = static_of t w s').
Proof.
  intros Hs Hc.
  destruct t; cbn [static_of count_of release_of] in *;
    unfold dc_int_release, dc_frac_release, dc_double_release;
    match goal with
    | H : ref_count <$> ?m !! p = Some c |- _ =>
        destruct (m !! p) as [o|] eqn:Ho; [|discriminate];
        cbn in H; injection H as <-
    end.
  - destruct (on_release_live Int w p o Ho) as (a' & Hr & Hst & _ & Hkeep).
    eexists. split; [exact Hr|]. cbn. rewrite Hkeep by (left; eauto).
    split; [reflexivity|]. intros s'. rewrite Hst. reflexivity.
  - destruct (on_release_live Rat w p o Ho) as (a' & Hr & Hst & _ & Hkeep).
    eexists. split; [exact Hr|]. cbn. rewrite Hkeep by (left; eauto).
    split; [reflexivity|]. intros s'. rewrite Hst. reflexivity.
  - destruct (on_release_live Dbl w p o Ho) as (a' & Hr & Hst & _ & Hkeep).
    eexists. split; [exact Hr|]. cbn. rewrite Hkeep by (left; eauto).
    split; [reflexivity|]. intros s'. rewrite Hst. reflexivity.
Qed.

(** C5: for each of the three types, if a singleton pointer of the type
    holds [p] and the object at [p] is live with count [c], then any number
    [n] of releases of [p] all return with the caller's variable set to
    NULL, leave the object live (never deallocated) with the count
    decremented [n] times modulo the width of [size_t], so through zero
    too, and leave the singleton pointers as they were. *)
Theorem release_singleton_never_frees t w s p c n :
  static_of t w s = Some p -> count_of t w p = Some c ->
  exists w',
    release_times t p n w = Ret (repeat (Some NULL) n) w'
    /\ live t w' p = true
    /\ count_of t w' p = Some (Nat.iter n (fun k => size_t (k - 1)) c)
    /\ static_of t w' s = Some p.
Proof.
  revert w c. induction n as [|n IH]; intros w c Hs Hc.
  - exists w. cbn. unfold live. rewrite Hc.
    repeat split; assumption.
  - destruct (release_of_singleton t w s p c Hs Hc) as (w1 & Hr & Hc1 & Hs1).
    destruct (IH w1 (size_t (c - 1))) as (w' & Hrn & Hlive & Hcn & Hsn).
    { rewrite Hs1. exact Hs. }
    { exact Hc1. }
    exists w'. split; [|split; [exact Hlive|split; [|exact Hsn]]].
    + cbn [release_times repeat]. unfold bind at 1. rewrite Hr.
      unfold bind at 1. rewrite Hrn. reflexivity.
    + rewrite Hcn. f_equal. rewrite Nat.iter_succ_r. reflexivity.
Qed.

Lemma release_singleton_never_frees_witness :
  exists w',
    release_times TInt 1%positive 3 worn_world = Ret (repeat (Some NULL) 3) w'
    /\ live TInt w' 1%positive = true
    /\ count_of TInt w' 1%positive = Some (SIZE_MAX - 1)
    /\ static_of TInt w' zero_singleton = Some 1%positive.
Proof.
  apply (release_singleton_never_frees TInt worn_world zero_singleton 1%positive 1 3).
  - reflexivity.
  - reflexivity.
Defined.

(** C9: for each of the three types, release called with a NULL pointer, or
    with a pointer to a handle variable that is NULL, returns at once and
    leaves the whole state as it was: no assertion fails, no count changes,
    nothing is deallocated. *)
Theorem release_null_is_noop t w :
  release_of t None w = Ret None w
  /\ release_of t (Some NULL) w = Ret (Some NULL) w.
Proof. destruct t, w; split; reflexivity. Qed.


Lemma df_normalize_1 n : df_normalize n 1 = Frac n 1.
Proof.
  unfold df_normalize. rewrite Z.gcd_1_r. cbn [Z.ltb Z.compare].
  rewrite Z.div_1_r. reflexivity.
Qed.

(** ** Gaussian division *)

(** Promotion is lossless: each integer [n] becomes [n/1]. *)
Lemma dc_int_to_frac_eval w c v :
  value_at Int w c = Some v ->
  dc_int_to_frac c w
  = Ret (Some (new_loc Rat w)) (alloc Rat (Cell 1 (promote v)) w).
Proof.
  intros Hc. unfold dc_int_to_frac, df_from_di, promote.
  eval_step. eval_step. unfold bind at 1 2. cbn [DC_ASSERT di_is_zero di_one Z.eqb negb ret].
  unfold bind at 1 2. cbn [DC_ASSERT di_is_zero di_one Z.eqb negb ret].
  rewrite !df_normalize_1. reflexivity.
Qed.

Lemma promoted_div_eval w va vb :
  int_is_zero vb = false ->
  let w1 := alloc Rat (Cell 1 (promote va)) w in
  let w2 := alloc Rat (Cell 1 (promote vb)) w1 in
  dc_frac_div (Some (new_loc Rat w)) (Some (new_loc Rat w1)) w2
  = Ret (Some (new_loc Rat w2)) (alloc Rat (Cell 1 (gaussian_quotient va vb)) w2).
Proof.
  intros Hnz w1 w2.
  apply (dc_frac_div_eval w2 _ _ (promote va) (promote vb)).
  - apply alloc_value_old; [typeclasses eauto|].
    apply (alloc_value_new Rat).
  - apply (alloc_value_new Rat).
  - reflexivity.
  - reflexivity.
  - exact Hnz.
Qed.

Lemma promote_then_divide_eval w a b va vb :
  value_at Int w a = Some va -> value_at Int w b = Some vb ->
  int_is_zero vb = false ->
  let w1 := alloc Rat (Cell 1 (promote va)) w in
  let w2 := alloc Rat (Cell 1 (promote vb)) w1 in
  (af ← dc_int_to_frac a; bf ← dc_int_to_frac b; dc_frac_div af bf) w
  = Ret (Some (new_loc Rat w2)) (alloc Rat (Cell 1 (gaussian_quotient va vb)) w2).
Proof.
  intros Ha Hb Hnz w1 w2.
  eapply bind_intro; [apply dc_int_to_frac_eval; exact Ha|].
  eapply bind_intro; [apply dc_int_to_frac_eval; exact Hb|].
  apply promoted_div_eval. exact Hnz.
Qed.

Lemma dc_int_div_eval w a b va vb :
  value_at Int w a = Some va -> value_at Int w b = Some vb ->
  int_is_zero vb = false ->
  exists p w',
    dc_int_div a b w = Ret (Some p) w'
    /\ objects (fracs w) !! p = None
    /\ objects (fracs w') !! p = Some (Cell 1 (gaussian_quotient va vb)).
Proof.
  intros Ha Hb Hnz.
  pose proof (promoted_div_eval w va vb Hnz) as Hpd.
  cbv zeta in Hpd.
  set (fa := promote va) in *.
  set (fb := promote vb) in *.
  set (w1 := alloc Rat (Cell 1 fa) w) in *.
  set (w2 := alloc Rat (Cell 1 fb) w1) in *.
  set (w3 := alloc Rat (Cell 1 (gaussian_quotient va vb)) w2) in *.
  set (paf := new_loc Rat w). set (pbf := new_loc Rat w1).
  set (pr := new_loc Rat w2) in *.
  assert (Haf2 : objects (arena_of Rat w2) !! paf = Some (Cell 1 fa)).
  { apply alloc_lookup_old; [typeclasses eauto|]. apply (alloc_lookup_new Rat). }
  assert (Hbf2 : objects (arena_of Rat w2) !! pbf = Some (Cell 1 fb)).
  { apply (alloc_lookup_new Rat). }
  assert (Haf3 : objects (arena_of Rat w3) !! paf = Some (Cell 1 fa)).
  { apply alloc_lookup_old; [typeclasses eauto | exact Haf2]. }
  assert (Hbf3 : objects (arena_of Rat w3) !! pbf = Some (Cell 1 fb)).
  { apply alloc_lookup_old; [typeclasses eauto | exact Hbf2]. }
  assert (Hr3 : objects (arena_of Rat w3) !! pr = Some (Cell 1 (gaussian_quotient va vb))).
  { apply (alloc_lookup_new Rat). }
  assert (Nab : pbf <> paf).
  { intros E. apply (new_loc_ne Rat w1 paf (Cell 1 fa)); [|symmetry; exact E].
    apply (alloc_lookup_new Rat). }
  assert (Nra : pr <> paf) by (intros E; eapply (new_loc_ne Rat w2 paf); eauto).
  assert (Nrb : pr <> pbf) by (intros E; eapply (new_loc_ne Rat w2 pbf); eauto).
  destruct (on_release_live Rat w3 paf _ Haf3) as (a4 & Hrel4 & _ & Hfr4 & _).
  set (w4 := with_arena Rat a4 w3) in *.
  assert (Hbf4 : objects (arena_of Rat w4) !! pbf = Some (Cell 1 fb)).
  { unfold w4. rewrite arena_of_with, Hfr4 by exact Nab. exact Hbf3. }
  destruct (on_release_live Rat w4 pbf _ Hbf4) as (a5 & Hrel5 & _ & Hfr5 & _).
  exists pr, (with_arena Rat a5 w4). split; [|split].
  - unfold dc_int_div.
    eval_step. eval_step.
    eapply bind_intro; [apply dc_int_to_frac_eval; exact Ha|].
    eapply bind_intro; [apply dc_int_to_frac_eval; exact Hb|].
    eapply bind_intro; [exact Hpd|].
    eapply bind_intro; [exact Hrel4|].
    eapply bind_intro; [exact Hrel5|].
    reflexivity.
  - destruct (objects (fracs w) !! pr) as [o|] eqn:E; [|reflexivity].
    exfalso. apply (new_loc_ne Rat w2 pr o); [|reflexivity].
    apply alloc_lookup_old; [typeclasses eauto|].
    apply alloc_lookup_old; [typeclasses eauto|]. exact E.
  - change (fracs (with_arena Rat a5 w4)) with (arena_of Rat (with_arena Rat a5 w4)).
    rewrite arena_of_with, Hfr5 by exact Nrb.
    unfold w4. rewrite arena_of_with, Hfr4 by exact Nra. exact Hr3.
Qed.

Lemma returns_of_lookup {T} (K : kind T) `{!lawful K} (m : M world handle) w p w' o :
  m w = Ret (Some p) w' -> objects (arena_of K w') !! p = Some o ->
  returns K m w (value o).
Proof.
  intros Hm Ho. exists (Some p), w'. split; [exact Hm|].
  unfold value_at. rewrite Ho. reflexivity.
Qed.

(** C1: for live Gaussian operands [a] and [b] with [b] not zero,
    [dc_int_div a b] returns a handle into the rational arena (a
    RationalComplex, never a GaussianComplex), and the value behind it is the
    one obtained by promoting both operands with [dc_int_to_frac] and
    applying [dc_frac_div]; it is in reduced form and denotes
    [(a_r c + a_i d) / (c c + d d)] and [(a_i c - a_r d) / (c c + d d)] for
    the integer components themselves, the promotion being lossless. *)
Theorem dc_int_div_promotes_then_divides w a b va vb :
  value_at Int w a = Some va -> value_at Int w b = Some vb ->
  int_is_zero vb = false ->
  exists v,
    returns Rat (dc_int_div a b) w v
    /\ returns Rat (af ← dc_int_to_frac a; bf ← dc_int_to_frac b; dc_frac_div af bf) w v
    /\ reduced v
    /\ df_to_Q (real v)
       == (inject_Z (real va) * inject_Z (real vb) + inject_Z (imag va) * inject_Z (imag vb))
          / (inject_Z (real vb) * inject_Z (real vb) + inject_Z (imag vb) * inject_Z (imag vb))
    /\ df_to_Q (imag v)
       == (inject_Z (imag va) * inject_Z (real vb) - inject_Z (real va) * inject_Z (imag vb))
          / (inject_Z (real vb) * inject_Z (real vb) + inject_Z (imag vb) * inject_Z (imag vb)).
Proof.
  intros Ha Hb Hnz.
  destruct (dc_int_div_eval w a b va vb Ha Hb Hnz) as (p & w' & Hrun & _ & Hp).
  destruct (frac_quotient_denotes (promote va) (promote vb)) as (Hred & Hre & Him);
    try reflexivity; [exact Hnz|].
  exists (gaussian_quotient va vb). split; [|split; [|split; [|split]]].
  - apply (returns_of_lookup Rat _ _ _ _ _ Hrun Hp).
  - eexists _, _. split; [apply promote_then_divide_eval; eassumption|].
    apply (alloc_value_new Rat).
  - exact Hred.
  - exact Hre.
  - exact Him.
Qed.

Lemma dc_int_div_promotes_then_divides_witness :
  exists v,
    returns Rat (dc_int_div (Some 1%positive) (Some 2%positive)) sample_world v
    /\ df_to_Q (real v) == -1 # 1 /\ df_to_Q (imag v) == 2 # 1.
Proof.
  destruct (dc_int_div_promotes_then_divides sample_world
              (Some 1%positive) (Some 2%positive) (Complex 3 4) (Complex 1 (-2)))
    as (v & Hret & _ & _ & Hre & Him).
  - reflexivity.
  - reflexivity.
  - reflexivity.
  - exists v. split; [exact Hret|]. split.
    + rewrite Hre. reflexivity.
    + rewrite Him. reflexivity.
Defined.

(** ** Reciprocal *)

Lemma dc_frac_reciprocal_eval w c vc :
  value_at Rat w c = Some vc ->
  0 < denominator (real vc) -> 0 < denominator (imag vc) ->
  frac_is_zero vc = false ->
  exists p w',
    dc_frac_reciprocal c w = Ret (Some p) w'
    /\ objects (fracs w) !! p = None
    /\ objects (fracs w') !! p
       = Some (Cell 1 (frac_quotient (Complex df_one df_zero) vc)).
Proof.
  intros Hc Hre Him Hnz.
  set (one := Complex df_one df_zero).
  set (w1 := alloc Rat (Cell 1 one) w).
  set (w2 := alloc Rat (Cell 1 (frac_quotient one vc)) w1).
  set (pn := new_loc Rat w). set (pr := new_loc Rat w1).
  assert (Hdiv : dc_frac_div (Some pn) c w1 = Ret (Some pr) w2).
  { apply (dc_frac_div_eval w1 _ _ one vc); try assumption.
    - apply (alloc_value_new Rat).
    - apply alloc_value_old; [typeclasses eauto | exact Hc]. }
  assert (Hn2 : objects (arena_of Rat w2) !! pn = Some (Cell 1 one)).
  { apply alloc_lookup_old; [typeclasses eauto|]. apply (alloc_lookup_new Rat). }
  assert (Hr2 : objects (arena_of Rat w2) !! pr = Some (Cell 1 (frac_quotient one vc))).
  { apply (alloc_lookup_new Rat). }
  assert (Nrn : pr <> pn).
  { intros E. apply (new_loc_ne Rat w1 pn (Cell 1 one)); [|symmetry; exact E].
    apply (alloc_lookup_new Rat). }
  destruct (on_release_live Rat w2 pn _ Hn2) as (a3 & Hrel & _ & Hfr & _).
  exists pr, (with_arena Rat a3 w2). split; [|split].
  - unfold dc_frac_reciprocal.
    eval_step.
    eapply bind_intro; [apply dc_frac_is_zero_eval; exact Hc|].
    eapply bind_intro; [apply assert_intro; unfold frac_is_zero in Hnz; rewrite Hnz; reflexivity|].
    cbv beta zeta.
    eapply bind_intro; [apply dc_frac_from_df_eval|].
    eapply bind_intro; [exact Hdiv|].
    eapply bind_intro; [exact Hrel|].
    reflexivity.
  - destruct (objects (fracs w) !! pr) as [o|] eqn:E; [|reflexivity].
    exfalso. apply (new_loc_ne Rat w1 pr o); [|reflexivity].
    apply alloc_lookup_old; [typeclasses eauto | exact E].
  - change (fracs (with_arena Rat a3 w2)) with (arena_of Rat (with_arena Rat a3 w2)).
    rewrite arena_of_with, Hfr by exact Nrn. exact Hr2.
Qed.



(** ** The exactness oracle *)

Lemma dc_frac_is_gaussian_int_eval w c v :
  value_at Rat w c = Some v ->
  dc_frac_is_gaussian_int c w
  = Ret (df_is_integer (real v) && df_is_integer (imag v)) w.
Proof. intros Hc. unfold dc_frac_is_gaussian_int. repeat eval_step. Qed.

(** C4: for a live rational complex [q] with components in reduced form,
    [dc_frac_is_gaussian_int q] returns, without changing the state, a truth
    value that is true if and only if both reduced denominators are exactly
    1, which is the case if and only if both components denote integers. *)
Theorem dc_frac_is_gaussian_int_iff w c v :
  value_at Rat w c = Some v -> reduced v ->
  exists b,
    dc_frac_is_gaussian_int c w = Ret b w
    /\ (b = true <-> denominator (real v) = 1 /\ denominator (imag v) = 1)
    /\ (b = true <->
        (exists z, df_to_Q (real v) == inject_Z z)
        /\ (exists z, df_to_Q (imag v) == inject_Z z)).
Proof.
  intros Hc [Hre Him].
  exists (df_is_integer (real v) && df_is_integer (imag v)).
  split; [apply dc_frac_is_gaussian_int_eval; exact Hc|].
  rewrite andb_true_iff. split.
  - unfold df_is_integer. rewrite !Z.eqb_eq. reflexivity.
  - rewrite (df_is_integer_iff _ Hre), (df_is_integer_iff _ Him). reflexivity.
Qed.

Lemma dc_frac_is_gaussian_int_iff_witness :
  dc_frac_is_gaussian_int (Some 1%positive) sample_world = Ret false sample_world.
Proof.
  destruct (dc_frac_is_gaussian_int_iff sample_world (Some 1%positive)
              (Complex (Frac 1 2) (Frac 1 3))) as (b & Hrun & Hden & _).
  - vm_compute. reflexivity.
  - repeat split; reflexivity.
  - rewrite Hrun. f_equal. destruct b; [|reflexivity].
    destruct Hden as [Hden _]. destruct (Hden eq_refl) as [H _]. discriminate H.
Defined.

(** ** Rendering *)

Lemma di_to_string_inj a b : di_to_string a = di_to_string b -> a = b.
Proof.
  unfold di_to_string. intros H. apply to_int_inj.
  assert (Hn : forall z, NilZero.int_of_string (NilZero.string_of_int (Z.to_int z))
                         = Some (Z.to_int z)).
  { intros z. apply NilZero.isi; destruct z; cbn; try discriminate;
      intros [= E]; exact (Unsigned.to_uint_nonnil _ E). }
  pose proof (Hn a) as Ha. rewrite H, Hn in Ha. injection Ha as Ha. symmetry. exact Ha.
Qed.

Lemma streq_di_to_string a b : streq (di_to_string a) (di_to_string b) = (a =? b).
Proof.
  unfold streq. destruct (String.eqb_spec (di_to_string a) (di_to_string b)) as [E|E].
  - apply di_to_string_inj in E. subst. symmetry. apply Z.eqb_refl.
  - symmetry. apply Z.eqb_neq. intros ->. apply E. reflexivity.
Qed.

(** On reduced fractions, comparing equal to one by [df_cmp] is being the
    fraction [1/1], and the same for minus one. *)
Lemma df_cmp_one a :
  df_reduced a -> (df_cmp a df_one =? 0) = df_eq a df_one.
Proof.
  intros [Hp Hg]. unfold df_cmp, df_eq, df_one. cbn [numerator denominator].
  rewrite Z.mul_1_r, Z.mul_1_l.
  destruct (Z.compare_spec (numerator a) (denominator a)) as [E|E|E].
  - rewrite E, Z.gcd_diag, Z.abs_eq in Hg by lia.
    rewrite E, Hg. reflexivity.
  - cbn. symmetry. apply andb_false_iff.
    destruct (Z.eqb_spec (numerator a) 1), (Z.eqb_spec (denominator a) 1); auto; lia.
  - cbn. symmetry. apply andb_false_iff.
    destruct (Z.eqb_spec (numerator a) 1), (Z.eqb_spec (denominator a) 1); auto; lia.
Qed.

Lemma df_cmp_neg_one a :
  df_reduced a -> (df_cmp a df_neg_one =? 0) = df_eq a df_neg_one.
Proof.
  intros [Hp Hg]. unfold df_cmp, df_eq, df_neg_one. cbn [numerator denominator].
  rewrite Z.mul_1_r.
  destruct (Z.compare_spec (numerator a) (-1 * denominator a)) as [E|E|E].
  - assert (E' : numerator a = - denominator a) by lia.
    rewrite E', Z.gcd_opp_l, Z.gcd_diag, Z.abs_eq in Hg by lia.
    rewrite E', Hg. reflexivity.
  - cbn. symmetry. apply andb_false_iff.
    destruct (Z.eqb_spec (numerator a) (-1)), (Z.eqb_spec (denominator a) 1); auto; lia.
  - cbn. symmetry. apply andb_false_iff.
    destruct (Z.eqb_spec (numerator a) (-1)), (Z.eqb_spec (denominator a) 1); auto; lia.
Qed.

(** C8: [dc_int_to_string] and [dc_frac_to_string] follow the shared
    formatting table, each on its own operand and in every state.  For
    every live Gaussian integer the text is the table applied to the
    decimal texts of the components and to the queries "is zero", "is 1",
    "is -1", "is negative" on the integers; for every live rational complex
    in reduced form it is the table applied to the fraction texts and to
    the same queries on the fractions.  The state is unchanged. *)
Theorem to_string_follows_table w :
  (forall ci vi,
      value_at Int w ci = Some vi ->
      dc_int_to_string ci w
      = Ret (format_table (di_to_string (real vi)) (di_to_string (imag vi))
               (real vi =? 0) (imag vi =? 0) (imag vi =? 1) (imag vi =? -1)
               (imag vi <? 0)) w)
  /\ (forall cf vf,
         value_at Rat w cf = Some vf -> reduced vf ->
         dc_frac_to_string cf w
         = Ret (format_table (df_to_string (real vf)) (df_to_string (imag vf))
                  (df_is_zero (real vf)) (df_is_zero (imag vf))
                  (df_eq (imag vf) df_one) (df_eq (imag vf) df_neg_one)
                  (df_is_negative (imag vf))) w).
Proof.
  split; [intros ci vi Hi | intros cf vf Hf [_ Him]].
  - unfold dc_int_to_string. eval_step. eval_step.
    unfold ret. f_equal. unfold format_table, di_is_zero, di_is_negative.
    change "-1"%string with (di_to_string (-1)).
    change "1"%string with (di_to_string 1).
    rewrite !streq_di_to_string.
    destruct (real vi =? 0), (imag vi =? 0), (imag vi =? 1), (imag vi =? -1),
      (imag vi <? 0); reflexivity.
  - unfold dc_frac_to_string. eval_step. eval_step.
    unfold ret. f_equal. unfold format_table.
    fold (df_cmp (imag vf) df_one =? 0) (df_cmp (imag vf) df_neg_one =? 0).
    rewrite (df_cmp_one _ Him), (df_cmp_neg_one _ Him).
    destruct (df_is_zero (real vf)), (df_is_zero (imag vf)),
      (df_eq (imag vf) df_one), (df_eq (imag vf) df_neg_one),
      (df_is_negative (imag vf)); reflexivity.
Qed.

Lemma to_string_follows_table_witness :
  dc_int_to_string (Some 2%positive) sample_world = Ret "1-2i"%string sample_world
  /\ dc_frac_to_string (Some 2%positive) sample_world = Ret "3/4-i"%string sample_world.
Proof.
  destruct (to_string_follows_table sample_world) as [Hi Hf].
  split.
  - rewrite (Hi (Some 2%positive) (Complex 1 (-2)) eq_refl). reflexivity.
  - rewrite (Hf (Some 2%positive) (Complex (Frac 3 4) (Frac (-1) 1)) eq_refl).
    + reflexivity.
    + repeat split; reflexivity.
Defined.

(** ** NULL operands *)

(** C6, as stated, fails: a release whose handle variable is NULL takes a
    NULL operand and returns normally, with the state unchanged. *)
Lemma null_release_returns_normally :
  null_operand (call_dc_int_release (Some NULL)) = true
  /\ exec (rt := trivial_runtime) (call_dc_int_release (Some NULL)) initial_world
     = Ret (RVar (Some NULL)) initial_world.
Proof. split; reflexivity. Qed.

(** C6, amended: every exported operation other than the three release
    functions stops at an assertion, whatever the state, when one of its
    handle operands is NULL; a release given a NULL pointer or a NULL handle
    variable returns normally and leaves the state as it was. *)
Theorem null_operand_asserts {rt : runtime} (c : call) (w : world) :
  null_operand c = true ->
  if is_release c then exists v, exec c w = Ret (RVar v) w
  else exists msg, exec c w = AssertFail msg.
Proof.
  intros Hnull.
  destruct c; cbn in Hnull; try discriminate; cbn [is_release];
    repeat match goal with
           | h : handle |- _ => destruct h
           | h : option handle |- _ => destruct h
           | h : option di_int |- _ => destruct h
           | h : option df_frac |- _ => destruct h
           end;
    cbn in Hnull; try discriminate;
    try (eexists; reflexivity);
    destruct w; eexists; reflexivity.
Qed.

Lemma null_operand_asserts_witness :
  exists msg,
    exec (rt := trivial_runtime)
         (call_dc_frac_div (Some 1%positive) NULL) sample_world = AssertFail msg.
Proof.
  apply (null_operand_asserts (rt := trivial_runtime)
           (call_dc_frac_div (Some 1%positive) NULL) sample_world).
  reflexivity.
Defined.

(** ** Fresh results *)

(** Inversion of a run that returned: every step returned. *)
Ltac invert_run :=
  repeat
    (cbv beta zeta in *;
     match goal with
     | H : bind _ _ _ = Ret _ _ |- _ =>
         apply bind_inv in H; destruct H as (? & ? & ? & H)
     | H : DC_ASSERT _ _ _ = Ret _ _ |- _ =>
         apply assert_inv in H; destruct H as [? ?]; subst
     | H : ret _ _ = Ret _ _ |- _ =>
         apply ret_inv in H; destruct H as [? ?]; subst
     | H : fault _ = Ret _ _ |- _ => discriminate H
     | H : fields ?K _ _ = Ret _ _ |- _ =>
         apply (fields_inv K) in H; destruct H as [? ?]; subst
     | H : on ?K (DC_MALLOC _) _ = Ret _ _ |- _ =>
         rewrite (malloc_eval K) in H; injection H as ? ?; subst
     | H : (match ?x with _ => _ end) _ = Ret _ _ |- _ => destruct x eqn:?
     end).

Lemma alloc_fresh_count_one_int w v :
  live TInt w (new_loc Int w) = false
  /\ count_of TInt (alloc Int (Cell 1 v) w) (new_loc Int w) = Some 1.
Proof.
  unfold live, count_of.
  change (ints ?x) with (arena_of Int x).
  rewrite (new_loc_fresh Int), (alloc_lookup_new Int). split; reflexivity.
Qed.

Lemma alloc_fresh_count_one_frac w v :
  live TFrac w (new_loc Rat w) = false
  /\ count_of TFrac (alloc Rat (Cell 1 v) w) (new_loc Rat w) = Some 1.
Proof.
  unfold live, count_of.
  change (fracs ?x) with (arena_of Rat x).
  rewrite (new_loc_fresh Rat), (alloc_lookup_new Rat). split; reflexivity.
Qed.

Lemma alloc_fresh_count_one_double w v :
  live TDouble w (new_loc Dbl w) = false
  /\ count_of TDouble (alloc Dbl (Cell 1 v) w) (new_loc Dbl w) = Some 1.
Proof.
  unfold live, count_of.
  change (doubles ?x) with (arena_of Dbl x).
  rewrite (new_loc_fresh Dbl), (alloc_lookup_new Dbl). split; reflexivity.
Qed.

Create HintDb dc_unfold.
#[global] Hint Unfold
  dc_int_from_ints dc_int_from_di dc_int_copy dc_int_add dc_int_sub
  dc_int_mul dc_int_negate dc_int_conj dc_frac_from_ints dc_frac_from_df
  dc_frac_copy dc_frac_add dc_frac_sub dc_frac_mul dc_frac_div
  dc_frac_negate dc_frac_conj dc_double_from_doubles dc_double_from_polar
  dc_double_copy dc_double_add dc_double_sub dc_double_mul dc_double_div
  dc_double_negate dc_double_conj dc_double_exp dc_double_log dc_double_pow
  dc_double_sqrt dc_double_sin dc_double_cos dc_double_tan dc_double_sinh
  dc_double_cosh dc_double_tanh dc_int_to_frac dc_int_to_double
  dc_frac_to_double dc_frac_to_int dc_double_to_int dc_double_to_frac
  dc_frac_is_zero dc_double_is_zero df_from_ints df_from_di df_div rounded
  : dc_unfold.

(** A release that returns has touched no object but the one released. *)
Lemma on_release_inv {T} (K : kind T) `{!lawful K} w p x w' :
  on K (release (Some (Some p))) w = Ret x w' ->
  forall q, q <> p ->
    objects (arena_of K w') !! q = objects (arena_of K w) !! q.
Proof.
  intros H q Hq.
  destruct (objects (arena_of K w) !! p) as [o|] eqn:E.
  - destruct (on_release_live K w p o E) as (a' & Hr & _ & Hfr & _).
    rewrite Hr in H. injection H as <- <-.
    rewrite arena_of_with. apply Hfr. exact Hq.
  - unfold on, release, bind, DC_ATOMIC_FETCH_SUB, bind, deref in H.
    rewrite E in H. discriminate H.
Qed.

Lemma dc_int_to_frac_fresh w c h w' :
  dc_int_to_frac c w = Ret h w' ->
  exists v, h = Some (new_loc Rat w) /\ w' = alloc Rat (Cell 1 v) w.
Proof.
  intros H. autounfold with dc_unfold in H. invert_run. eexists. split; reflexivity.
Qed.

Lemma dc_frac_div_fresh w a b h w' :
  dc_frac_div a b w = Ret h w' ->
  exists v, h = Some (new_loc Rat w) /\ w' = alloc Rat (Cell 1 v) w.
Proof.
  intros H. autounfold with dc_unfold in H. invert_run. eexists. split; reflexivity.
Qed.

Lemma dc_frac_from_df_fresh w re im h w' :
  dc_frac_from_df re im w = Ret h w' ->
  exists v, h = Some (new_loc Rat w) /\ w' = alloc Rat (Cell 1 v) w.
Proof.
  intros H. autounfold with dc_unfold in H. invert_run. eexists. split; reflexivity.
Qed.

Lemma dc_int_div_fresh w a b h w' :
  dc_int_div a b w = Ret h w' ->
  exists p, h = Some p /\ live TFrac w p = false /\ count_of TFrac w' p = Some 1.
Proof.
  intros H. unfold dc_int_div in H. invert_run.
  repeat match goal with
         | H : dc_int_to_frac _ _ = Ret _ _ |- _ =>
             apply dc_int_to_frac_fresh in H; destruct H as (? & -> & ->)
         | H : dc_frac_div _ _ _ = Ret _ _ |- _ =>
             apply dc_frac_div_fresh in H; destruct H as (? & -> & ->)
         end.
  match goal with
  | R1 : dc_frac_release _ ?w3 = Ret _ ?w4, R2 : dc_frac_release _ ?w4 = Ret _ _ |- _ =>
      pose proof (on_release_inv Rat _ _ _ _ R1) as F1;
      pose proof (on_release_inv Rat _ _ _ _ R2) as F2;
      clear R1 R2
  end.
  match goal with
  | |- context [new_loc Rat (alloc Rat ?i1 (alloc Rat ?i0 ?w0))] =>
      set (u0 := w0) in *; set (u1 := alloc Rat i0 u0) in *;
      set (u2 := alloc Rat i1 u1) in *
  end.
  assert (N0 : new_loc Rat u2 <> new_loc Rat u0).
  { intros E. eapply (new_loc_ne Rat u2 (new_loc Rat u0)); [|symmetry; exact E].
    apply alloc_lookup_old; [typeclasses eauto|]. apply (alloc_lookup_new Rat). }
  assert (N1 : new_loc Rat u2 <> new_loc Rat u1).
  { intros E. eapply (new_loc_ne Rat u2 (new_loc Rat u1)); [|symmetry; exact E].
    apply (alloc_lookup_new Rat). }
  exists (new_loc Rat u2). split; [reflexivity|]. split.
  - unfold live, count_of. change (fracs ?x) with (arena_of Rat x).
    destruct (objects (arena_of Rat u0) !! new_loc Rat u2) as [o|] eqn:E; [|reflexivity].
    exfalso. eapply (new_loc_ne Rat u2 (new_loc Rat u2)); [|reflexivity].
    apply alloc_lookup_old; [typeclasses eauto|].
    apply alloc_lookup_old; [typeclasses eauto|]. exact E.
  - unfold count_of. change (fracs ?x) with (arena_of Rat x).
    rewrite (F2 _ N1), (F1 _ N0), (alloc_lookup_new Rat). reflexivity.
Qed.

Lemma dc_frac_reciprocal_fresh w c h w' :
  dc_frac_reciprocal c w = Ret h w' ->
  exists p, h = Some p /\ live TFrac w p = false /\ count_of TFrac w' p = Some 1.
Proof.
  intros H. unfold dc_frac_reciprocal, dc_frac_is_zero in H. invert_run.
  repeat match goal with
         | H : dc_frac_from_df _ _ _ = Ret _ _ |- _ =>
             apply dc_frac_from_df_fresh in H; destruct H as (? & -> & ->)
         | H : dc_frac_div _ _ _ = Ret _ _ |- _ =>
             apply dc_frac_div_fresh in H; destruct H as (? & -> & ->)
         end.
  match goal with
  | R1 : dc_frac_release _ _ = Ret _ _ |- _ =>
      pose proof (on_release_inv Rat _ _ _ _ R1) as F1; clear R1
  end.
  match goal with
  | |- context [new_loc Rat (alloc Rat ?i0 ?w0)] =>
      set (u0 := w0) in *; set (u1 := alloc Rat i0 u0) in *
  end.
  assert (N0 : new_loc Rat u1 <> new_loc Rat u0).
  { intros E. eapply (new_loc_ne Rat u1 (new_loc Rat u0)); [|symmetry; exact E].
    apply (alloc_lookup_new Rat). }
  exists (new_loc Rat u1). split; [reflexivity|]. split.
  - unfold live, count_of. change (fracs ?x) with (arena_of Rat x).
    destruct (objects (arena_of Rat u0) !! new_loc Rat u1) as [o|] eqn:E; [|reflexivity].
    exfalso. eapply (new_loc_ne Rat u1 (new_loc Rat u1)); [|reflexivity].
    apply alloc_lookup_old; [typeclasses eauto|]. exact E.
  - unfold count_of. change (fracs ?x) with (arena_of Rat x).
    rewrite (F1 _ N0), (alloc_lookup_new Rat). reflexivity.
Qed.

Lemma constructors_fresh {rt : runtime} (c : call) (w : world) (r : result) (w' : world) :
  returns_complex c = true -> is_retain c = false ->
  is_singleton_accessor c = false ->
  exec c w = Ret r w' ->
  exists t p, returned_handle r = Some (t, Some p)
              /\ live t w p = false /\ count_of t w' p = Some 1.
Proof.
  intros Hc Hnr Hna H.
  destruct c; cbn in Hc, Hnr, Hna; try discriminate;
    cbn [exec] in H; unfold returning in H;
    apply bind_inv in H; destruct H as (x & w1 & H & Hret);
    apply ret_inv in Hret; destruct Hret as [-> ->].
  all: try (apply dc_int_div_fresh in H; destruct H as (p & -> & Hl & Hn);
            eexists _, p; split; [reflexivity|]; split; assumption).
  all: try (apply dc_frac_reciprocal_fresh in H; destruct H as (p & -> & Hl & Hn);
            eexists _, p; split; [reflexivity|]; split; assumption).
  all: autounfold with dc_unfold in H; invert_run;
    eexists _, _; split; [reflexivity|];
    first [ apply alloc_fresh_count_one_int
          | apply alloc_fresh_count_one_frac
          | apply alloc_fresh_count_one_double ].
Qed.

Ltac eval_run :=
  cbv beta zeta;
  lazymatch goal with
  | |- bind _ _ _ = _ => eapply bind_intro; [ eval_run | eval_run ]
  | |- (match ?x with Some _ => _ | None => _ end) _ = _ =>
      match goal with H : x = Some _ |- _ => rewrite H end; eval_run
  | |- _ => eval_atom
  end.

Ltac unpack_well_formed :=
  repeat match goal with
         | H : (_ && _)%bool = true |- _ => apply andb_prop in H; destruct H
         | H : is_live _ _ _ = true |- _ => unfold is_live in H
         | H : holds ?K ?w ?c _ = true |- _ =>
             unfold holds in H; destruct (value_at K w c) eqn:?; [|discriminate H]
         | H : roundable ?x = true |- _ =>
             unfold roundable in H;
             destruct (double_to_int64 (round x)) eqn:?; [|discriminate H]
         | H : negb (is_null ?h) = true |- _ => destruct h; [clear H|discriminate H]
         | H : positive_denominators _ = true |- _ => unfold positive_denominators in H
         | H : (0 <? _) = true |- _ => apply Z.ltb_lt in H
         | H : negb (frac_is_zero _) = true |- _ => apply negb_true_iff in H
         | H : negb (int_is_zero _) = true |- _ => apply negb_true_iff in H
         end.

Lemma constructors_return {rt : runtime} (c : call) (w : world) :
  returns_complex c = true -> is_retain c = false ->
  is_singleton_accessor c = false -> well_formed c w = true ->
  exists r w', exec c w = Ret r w'.
Proof.
  intros Hc Hr Ha Hv.
  destruct c; cbn in Hc, Hr, Ha; try discriminate;
    cbn [well_formed] in Hv; unpack_well_formed.
  all: try match goal with
       | |- exists r w', exec (call_dc_int_div ?a ?b) ?w = _ =>
           edestruct (dc_int_div_eval w a b) as (p & w' & Hrun & _); [eassumption..|];
           eexists _, _; cbn [exec]; unfold returning;
           eapply bind_intro; [exact Hrun | reflexivity]
       | |- exists r w', exec (call_dc_frac_reciprocal ?c) ?w = _ =>
           edestruct (dc_frac_reciprocal_eval w c) as (p & w' & Hrun & _); [eassumption..|];
           eexists _, _; cbn [exec]; unfold returning;
           eapply bind_intro; [exact Hrun | reflexivity]
       | |- exists r w', exec (call_dc_frac_div ?a ?b) ?w = _ =>
           eexists _, _; cbn [exec]; unfold returning;
           eapply bind_intro; [eapply dc_frac_div_eval; eassumption | reflexivity]
       end.
  all: eexists _, _; cbn [exec]; unfold returning;
    (eapply bind_intro; [|reflexivity]);
    autounfold with dc_unfold; eval_run.
Qed.

(** C10: every exported operation that returns a complex handle and is
    neither a retain nor a singleton accessor (creation from primitives and
    from components, copy, every arithmetic and transcendental operation,
    the six conversions) returns on operands that meet its preconditions,
    and whenever it returns, in any state, the handle is not NULL, points to
    an object that was not live before the call (a fresh instance), and the
    count of that object after the call is exactly 1.  So retain and the
    singleton accessors are the only operations that can return an instance
    with another count. *)
Theorem constructors_return_fresh_count_one {rt : runtime} (c : call) (w : world) :
  returns_complex c = true -> is_retain c = false ->
  is_singleton_accessor c = false ->
  (well_formed c w = true -> exists r w', exec c w = Ret r w')
  /\ (forall r w', exec c w = Ret r w' ->
       exists t p, returned_handle r = Some (t, Some p)
                   /\ live t w p = false /\ count_of t w' p = Some 1).
Proof.
  intros Hc Hnr Hna. split.
  - apply constructors_return; assumption.
  - intros r w' H. apply (constructors_fresh c w r w'); assumption.
Qed.

Lemma constructors_return_fresh_count_one_witness :
  exists r w',
    exec (rt := trivial_runtime)
         (call_dc_int_mul (Some 1%positive) (Some 2%positive)) sample_world
    = Ret r w'
    /\ exists t p, returned_handle r = Some (t, Some p)
                   /\ live t sample_world p = false /\ count_of t w' p = Some 1.
Proof.
  destruct (constructors_return_fresh_count_one (rt := trivial_runtime)
              (call_dc_int_mul (Some 1%positive) (Some 2%positive)) sample_world
              eq_refl eq_refl eq_refl) as [Htotal Hfresh].
  destruct (Htotal eq_refl) as (r & w' & Hrun).
  exists r, w'. split; [exact Hrun | exact (Hfresh r w' Hrun)].
Defined.

(** The two kinds of operation C10 sets apart do return other counts: a
    retain of an object with count one returns it with count two, and the
    first use of a singleton accessor returns the constant with the
    saturated count plus one. *)
Example retain_returns_count_two :
  exists w', dc_int_retain (Some 1%positive) sample_world = Ret (Some 1%positive) w'
             /\ count_of TInt w' 1%positive = Some 2.
Proof. eexists. split; [vm_compute; reflexivity | reflexivity]. Qed.

Example accessor_returns_saturated_count :
  exists w', dc_int_zero initial_world = Ret (Some 1%positive) w'
             /\ count_of TInt w' 1%positive = Some (SIZE_MAX / 2 + 1)
             /\ static_of TInt w' zero_singleton = Some 1%positive.
Proof. eexists. split; [vm_compute; reflexivity | split; reflexivity]. Qed.

(** The scenarios of the specification, section 8. *)
Example scenario_gaussian_product :
  returns Int (dc_int_mul (Some 1%positive) (Some 2%positive)) sample_world
          (Complex 11 (-2)).
Proof. eexists _, _. split; [vm_compute; reflexivity | reflexivity]. Qed.

Example scenario_rational_sum :
  returns Rat (r ← dc_frac_from_ints 1 4 1 6; dc_frac_add (Some 1%positive) r)
          sample_world (Complex (Frac 3 4) (Frac 1 2)).
Proof. eexists _, _. split; [vm_compute; reflexivity | reflexivity]. Qed.

(** ** Conversions through double *)

Lemma iter_xO_value k j : Z.pos (Pos.iter xO k j) = Z.pos k * 2 ^ Z.pos j.
Proof.
  induction j as [|j IH] using Pos.peano_ind.
  - cbn. lia.
  - rewrite Pos.iter_succ, (Pos2Z.inj_xO (Pos.iter xO k j)), IH, Pos2Z.inj_succ,
      Z.pow_succ_r by lia.
    ring.
Qed.

Lemma iter_xO_digits k j :
  digits2_pos (Pos.iter xO k j) = (digits2_pos k + j)%positive.
Proof.
  induction j as [|j IH] using Pos.peano_ind.
  - cbn. lia.
  - rewrite Pos.iter_succ. cbn [digits2_pos]. rewrite IH. lia.
Qed.

Lemma binary_round_aux_canonical s m e :
  Z.pos (digits2_pos m) = 53 -> -1074 <= e <= 971 ->
  binary_round_aux 53 1024 s (Z.pos m) e loc_Exact = S754_finite s m e.
Proof.
  intros Hd He. unfold binary_round_aux, shr_fexp, fexp, emin.
  cbn [Zdigits2 shr_record_of_loc]. rewrite Hd.
  replace (Z.max (53 + e - 53) (3 - 1024 - 53) - e) with 0 by lia.
  cbn [shr shr_m loc_of_shr_record round_nearest_even Zdigits2 shr_record_of_loc].
  rewrite Hd.
  replace (Z.max (53 + e - 53) (3 - 1024 - 53) - e) with 0 by lia.
  cbn [shr shr_m].
  replace (e <=? 1024 - 53) with true by (symmetry; apply Z.leb_le; lia).
  reflexivity.
Qed.

Lemma binary_round_exact s k :
  Z.pos (digits2_pos k) <= 53 ->
  binary_round 53 1024 s k 0 = exact_double s k.
Proof.
  intros Hd. unfold binary_round, exact_double, fexp, emin.
  replace (Z.max (Z.pos (digits2_pos k) + 0 - 53) (3 - 1024 - 53))
    with (Z.pos (digits2_pos k) - 53) by lia.
  unfold shl_align. rewrite Z.sub_0_r.
  destruct (Z.pos (digits2_pos k) - 53) as [|j|j] eqn:E; try lia.
  - replace (53 - Z.pos (digits2_pos k)) with 0 by lia.
    rewrite Z.pow_0_r, Z.mul_1_r. cbn [Z.to_pos].
    apply binary_round_aux_canonical; lia.
  - replace (53 - Z.pos (digits2_pos k)) with (Z.pos j) by lia.
    rewrite <- iter_xO_value. cbn [Z.to_pos].
    apply binary_round_aux_canonical.
    + rewrite iter_xO_digits. lia.
    + lia.
Qed.

Lemma exact_double_mantissa k :
  Z.pos (digits2_pos k) <= 53 ->
  Z.pos (Z.to_pos (Z.pos k * 2 ^ (53 - Z.pos (digits2_pos k))))
  = Z.pos k * 2 ^ (53 - Z.pos (digits2_pos k))
  /\ Z.pos (digits2_pos (Z.to_pos (Z.pos k * 2 ^ (53 - Z.pos (digits2_pos k))))) = 53.
Proof.
  intros Hd.
  destruct (53 - Z.pos (digits2_pos k)) as [|j|j] eqn:E; try lia.
  - rewrite Z.pow_0_r, Z.mul_1_r. cbn [Z.to_pos]. split; lia.
  - rewrite <- iter_xO_value. cbn [Z.to_pos]. split; [reflexivity|].
    rewrite iter_xO_digits. lia.
Qed.

Lemma div_by_one_canonical s m e :
  Z.pos (digits2_pos m) = 53 -> -52 <= e <= 0 ->
  SFdiv 53 1024 (S754_finite s m e) (S754_finite false 4503599627370496 (-52))
  = S754_finite s m e.
Proof.
  intros Hd He. unfold SFdiv, SFdiv_core_binary, fexp, emin.
  change (Zdigits2 (Z.pos m)) with (Z.pos (digits2_pos m)). rewrite Hd.
  change (Zdigits2 4503599627370496) with 53.
  replace (Z.min (Z.max (53 + e - (53 + -52) - 53) (3 - 1024 - 53)) (e - -52))
    with (e - 1) by lia.
  replace (e - -52 - (e - 1)) with 53 by lia.
  cbv iota.
  rewrite Z.shiftl_mul_pow2 by lia.
  pose proof (Z_div_mod (Z.pos m * 2 ^ 53) 4503599627370496 eq_refl) as Hdm.
  destruct (Z.div_eucl (Z.pos m * 2 ^ 53) 4503599627370496) as [q r].
  assert (Hq : q = Z.pos m~0 /\ r = 0).
  { change (2 ^ 53) with 9007199254740992 in Hdm. lia. }
  destruct Hq as [-> ->].
  change (new_location 4503599627370496 0) with loc_Exact.
  unfold binary_round_aux, shr_fexp, fexp, emin.
  cbn [Zdigits2 digits2_pos shr_record_of_loc]. rewrite Pos2Z.inj_succ, Hd.
  replace (Z.max (Z.succ 53 + (e - 1) - 53) (3 - 1024 - 53) - (e - 1)) with 1 by lia.
  cbn [shr SpecFloat.iter_pos shr_1 shr_m loc_of_shr_record round_nearest_even orb
       shr_record_of_loc].
  change (Zdigits2 (Z.pos m)) with (Z.pos (digits2_pos m)). rewrite Hd.
  replace (Z.max (53 + (e - 1 + 1) - 53) (3 - 1024 - 53) - (e - 1 + 1)) with 0 by lia.
  cbn [shr shr_m].
  replace (e - 1 + 1 <=? 1024 - 53) with true by (symmetry; apply Z.leb_le; lia).
  replace (e - 1 + 1) with e by lia.
  rewrite xorb_false_r. reflexivity.
Qed.

Lemma exact_double_div_one s k :
  Z.pos (digits2_pos k) <= 53 ->
  double_div (exact_double s k) (double_of_Z 1) = exact_double s k.
Proof.
  intros Hd. destruct (exact_double_mantissa k Hd) as [_ Hdig].
  change (double_of_Z 1) with (S754_finite false 4503599627370496 (-52)).
  unfold double_div, prec, emax, exact_double.
  apply div_by_one_canonical; [exact Hdig | lia].
Qed.

Lemma exact_double_round s k :
  Z.pos (digits2_pos k) <= 53 -> round (exact_double s k) = exact_double s k.
Proof.
  intros Hd. destruct (exact_double_mantissa k Hd) as [Hm _].
  unfold round. unfold exact_double at 1.
  destruct (0 <=? Z.pos (digits2_pos k) - 53) eqn:E; [reflexivity|].
  apply Z.leb_gt in E.
  rewrite Hm.
  replace (- (Z.pos (digits2_pos k) - 53)) with (53 - Z.pos (digits2_pos k)) by lia.
  assert (Hp : 0 < 2 ^ (53 - Z.pos (digits2_pos k))) by (apply Z.pow_pos_nonneg; lia).
  rewrite Z.mod_mul, Z.div_mul by lia.
  replace (2 ^ (53 - Z.pos (digits2_pos k)) <=? 2 * 0) with false
    by (symmetry; apply Z.leb_gt; lia).
  unfold prec, emax. destruct s; cbn [cond_Zopp Z.opp binary_normalize];
    apply binary_round_exact; exact Hd.
Qed.

Lemma exact_double_trunc s k :
  Z.pos (digits2_pos k) <= 53 ->
  double_trunc (exact_double s k) = Some (cond_Zopp s (Z.pos k)).
Proof.
  intros Hd. destruct (exact_double_mantissa k Hd) as [Hm _].
  unfold double_trunc, exact_double. rewrite Hm. do 2 f_equal.
  destruct (0 <=? Z.pos (digits2_pos k) - 53) eqn:E.
  - apply Z.leb_le in E.
    replace (Z.pos (digits2_pos k) - 53) with 0 by lia.
    replace (53 - Z.pos (digits2_pos k)) with 0 by lia. cbn. lia.
  - apply Z.leb_gt in E.
    replace (- (Z.pos (digits2_pos k) - 53)) with (53 - Z.pos (digits2_pos k)) by lia.
    assert (Hp : 0 < 2 ^ (53 - Z.pos (digits2_pos k))) by (apply Z.pow_pos_nonneg; lia).
    rewrite Z.div_mul by lia. reflexivity.
Qed.

(** A positive number below [2^53] has at most 53 binary digits. *)
Lemma digits2_pos_bound k : Z.pos k < 2 ^ 53 -> Z.pos (digits2_pos k) <= 53.
Proof.
  intros Hk.
  assert (Hlow : forall p, 2 ^ (Z.pos (digits2_pos p) - 1) <= Z.pos p).
  { induction p as [p IH|p IH|]; cbn [digits2_pos].
    - rewrite Pos2Z.inj_succ, (Pos2Z.inj_xI p).
      replace (Z.succ (Z.pos (digits2_pos p)) - 1)
        with (Z.succ (Z.pos (digits2_pos p) - 1)) by lia.
      rewrite Z.pow_succ_r by lia. lia.
    - rewrite Pos2Z.inj_succ, (Pos2Z.inj_xO p).
      replace (Z.succ (Z.pos (digits2_pos p)) - 1)
        with (Z.succ (Z.pos (digits2_pos p) - 1)) by lia.
      rewrite Z.pow_succ_r by lia. lia.
    - cbn. lia. }
  destruct (Z.le_gt_cases (Z.pos (digits2_pos k)) 53) as [H|H]; [exact H|].
  exfalso. specialize (Hlow k).
  assert (2 ^ 53 <= 2 ^ (Z.pos (digits2_pos k) - 1)) by (apply Z.pow_le_mono_r; lia).
  lia.
Qed.

(** Every integer of magnitude at most [2^53] survives the conversion to
    double, the division by one, [round] and the conversion to [int64_t]. *)
Lemma rounded_exact n :
  Z.abs n <= 2 ^ 53 ->
  double_to_int64 (round (df_to_double (Frac n 1))) = Some n.
Proof.
  intros Hn. unfold df_to_double, di_to_double. cbn [numerator denominator].
  destruct (Z.eq_dec (Z.abs n) (2 ^ 53)) as [E|E].
  - assert (n = 2 ^ 53 \/ n = - 2 ^ 53) as [-> | ->] by lia; vm_compute; reflexivity.
  - destruct n as [|k|k].
    + vm_compute. reflexivity.
    + assert (Hd : Z.pos (digits2_pos k) <= 53) by (apply digits2_pos_bound; lia).
      unfold double_of_Z at 1, prec, emax. cbn [binary_normalize].
      rewrite (binary_round_exact false k Hd), (exact_double_div_one false k Hd),
        (exact_double_round false k Hd).
      unfold double_to_int64. rewrite (exact_double_trunc false k Hd).
      cbn [cond_Zopp].
      replace ((int64_min <=? Z.pos k) && (Z.pos k <=? int64_max)) with true; [reflexivity|].
      symmetry. apply andb_true_iff. unfold int64_min, int64_max.
      split; apply Z.leb_le; lia.
    + assert (Hd : Z.pos (digits2_pos k) <= 53) by (apply digits2_pos_bound; lia).
      unfold double_of_Z at 1, prec, emax. cbn [binary_normalize].
      rewrite (binary_round_exact true k Hd), (exact_double_div_one true k Hd),
        (exact_double_round true k Hd).
      unfold double_to_int64. rewrite (exact_double_trunc true k Hd).
      cbn [cond_Zopp]. change (- Z.pos k) with (Z.neg k).
      replace ((int64_min <=? Z.neg k) && (Z.neg k <=? int64_max)) with true; [reflexivity|].
      symmetry. apply andb_true_iff. unfold int64_min, int64_max.
      split; apply Z.leb_le; lia.
Qed.

(** C3, as stated, fails: the Gaussian integer [2^53 + 1] is live at
    pointer 1, and its round trip through [dc_int_to_frac] and
    [dc_frac_to_int] returns [2^53], not the integer itself. *)
Lemma round_trip_changes_large_integer :
  value_at Int large_world (Some 1%positive) = Some (Complex (2 ^ 53 + 1) 0)
  /\ returns Int (round_trip (Some 1%positive)) large_world (Complex (2 ^ 53) 0)
  /\ ~ returns Int (round_trip (Some 1%positive)) large_world (Complex (2 ^ 53 + 1) 0).
Proof.
  split; [reflexivity|]. split.
  - eexists _, _. split; [vm_compute; reflexivity | reflexivity].
  - intros (c & w' & Hrun & Hval).
    vm_compute in Hrun. injection Hrun as <- <-.
    vm_compute in Hval. discriminate Hval.
Qed.

(** C3, amended: for every live Gaussian integer whose real and imaginary
    parts have magnitude at most [2^53], the conversion to a rational
    complex with [dc_int_to_frac] followed by [dc_frac_to_int] returns a
    Gaussian integer equal to it. *)
Theorem round_trip_identity_within_double w g v :
  value_at Int w g = Some v ->
  Z.abs (real v) <= 2 ^ 53 -> Z.abs (imag v) <= 2 ^ 53 ->
  returns Int (round_trip g) w v.
Proof.
  intros Hg Hre Him.
  set (w1 := alloc Rat (Cell 1 (promote v)) w).
  exists (Some (new_loc Int w1)), (alloc Int (Cell 1 v) w1). split.
  - unfold round_trip.
    eapply bind_intro; [apply dc_int_to_frac_eval; exact Hg|]. fold w1.
    unfold dc_frac_to_int.
    eval_step.
    eapply bind_intro.
    { apply (fields_intro Rat). apply (alloc_value_new Rat). }
    cbv beta zeta. cbn [promote value real imag].
    unfold rounded. rewrite (rounded_exact _ Hre), (rounded_exact _ Him).
    eapply bind_intro; [reflexivity|]. eapply bind_intro; [reflexivity|].
    destruct v as [re im]. reflexivity.
  - apply (alloc_value_new Int).
Qed.

Lemma round_trip_identity_within_double_witness :
  returns Int (round_trip (Some 1%positive)) sample_world (Complex 3 4).
Proof.
  apply (round_trip_identity_within_double sample_world (Some 1%positive) (Complex 3 4)).
  - reflexivity.
  - vm_compute. discriminate.
  - vm_compute. discriminate.
Defined.

(** ** The binary64 layer on concrete values *)

Example round_half_away_from_zero :
  round (double_div (double_of_Z 5) (double_of_Z 2)) = double_of_Z 3
  /\ round (double_div (double_of_Z (-5)) (double_of_Z 2)) = double_of_Z (-3)
  /\ round (double_div (double_of_Z 2) (double_of_Z 5)) = double_zero
  /\ double_to_int64 (round (double_div (double_of_Z 7) (double_of_Z 2))) = Some 4.
Proof. repeat split; vm_compute; reflexivity. Qed.

Example double_of_Z_rounds_to_even :
  double_of_Z (2 ^ 53 + 1) = double_of_Z (2 ^ 53)
  /\ double_of_Z (2 ^ 53 + 3) = double_of_Z (2 ^ 53 + 4)
  /\ double_to_int64 (double_of_Z (2 ^ 63)) = None.
Proof. repeat split; vm_compute; reflexivity. Qed.

(* ====================================================================== *)
(** * Further properties *)

(** ** Reference counting: exact effect of retain and release *)

Lemma Ret_inj {S A} (x y : A) (s s' : S) : Ret x s = Ret y s' -> x = y /\ s = s'.
Proof. intros H. injection H as -> ->. auto. Qed.

Section LifecycleExact.
Context {T : Type}.
Implicit Types (a : arena T) (p : loc) (o : cell T).

Lemma release_shared a p o :
  objects a !! p = Some o -> ref_count o <> 1 ->
  release (Some (Some p)) a
  = Ret (Some NULL)
        (Arena (<[p := Cell (size_t (ref_count o - 1)) (value o)]> (objects a))
               (statics a)).
Proof.
  intros H Hn. unfold release, bind. rewrite (fetch_sub_eval _ _ _ H).
  apply Z.eqb_neq in Hn. rewrite Hn. reflexivity.
Qed.

Lemma is_singleton_eval a p :
  is_singleton (Some p) a
  = Ret (existsb (fun s => bool_decide (statics a s = Some p)) all_singletons) a.
Proof.
  unfold is_singleton, all_singletons, existsb. cbn [notnull andb]. f_equal.
  rewrite orb_false_r, !orb_assoc.
  repeat f_equal; apply bool_decide_ext; split; congruence.
Qed.

Lemma release_last a p o :
  objects a !! p = Some o -> ref_count o = 1 ->
  existsb (fun s => bool_decide (statics a s = Some p)) all_singletons = false ->
  release (Some (Some p)) a
  = Ret (Some NULL) (Arena (delete p (objects a)) (statics a)).
Proof.
  intros H H1 Hs. unfold release, bind. rewrite (fetch_sub_eval _ _ _ H).
  rewrite H1. cbn [Z.eqb Pos.eqb]. rewrite is_singleton_eval. cbn [statics].
  rewrite Hs. unfold DC_FREE. cbn [objects statics]. rewrite lookup_insert_eq.
  cbn [ret]. rewrite delete_insert_eq. reflexivity.
Qed.

Lemma release_held a p o :
  objects a !! p = Some o ->
  existsb (fun s => bool_decide (statics a s = Some p)) all_singletons = true ->
  release (Some (Some p)) a
  = Ret (Some NULL)
        (Arena (<[p := Cell (size_t (ref_count o - 1)) (value o)]> (objects a))
               (statics a)).
Proof.
  intros H Hs. unfold release, bind. rewrite (fetch_sub_eval _ _ _ H).
  destruct (ref_count o =? 1); [|reflexivity].
  rewrite is_singleton_eval. cbn [statics]. rewrite Hs. reflexivity.
Qed.

Lemma size_t_succ_pred c : 0 <= c <= SIZE_MAX -> size_t (size_t (c + 1) - 1) = c.
Proof.
  unfold size_t, SIZE_MAX. intros Hc.
  destruct (Z.eq_dec c (2 ^ 64 - 1)) as [->|Hne].
  - reflexivity.
  - rewrite (Z.mod_small (c + 1)) by lia. rewrite Z.mod_small; lia.
Qed.

Lemma retain_release_arena a p o msg :
  objects a !! p = Some o -> 0 < ref_count o <= SIZE_MAX ->
  (h ← retain msg (Some p); release (Some h)) a = Ret (Some NULL) a.
Proof.
  intros H Hc. eapply bind_intro; [apply retain_live; exact H|].
  cbv beta.
  set (o1 := Cell (size_t (ref_count o + 1)) (value o)).
  set (a1 := Arena _ _).
  assert (H1 : objects a1 !! p = Some o1) by apply lookup_insert_eq.
  etransitivity; [apply (release_shared a1 p o1 H1)|].
  - unfold o1. cbn [ref_count]. unfold size_t, SIZE_MAX in *.
    destruct (Z.eq_dec (ref_count o) (2 ^ 64 - 1)) as [->|Hne].
    + discriminate.
    + rewrite Z.mod_small; lia.
  - f_equal. unfold a1, o1. cbn [objects statics ref_count value].
    rewrite insert_insert_eq, size_t_succ_pred by lia.
    destruct a as [objs st], o as [c v]. cbn in *.
    rewrite insert_id by exact H. reflexivity.
Qed.

Lemma release_exact a p o :
  objects a !! p = Some o ->
  release (Some (Some p)) a
  = Ret (Some NULL)
        (Arena (if (ref_count o =? 1)
                   && negb (existsb (fun s => bool_decide (statics a s = Some p))
                                    all_singletons)
                then delete p (objects a)
                else <[p := Cell (size_t (ref_count o - 1)) (value o)]> (objects a))
               (statics a)).
Proof.
  intros H.
  destruct (existsb _ all_singletons) eqn:Hs.
  - rewrite andb_false_r. apply (release_held a p o); assumption.
  - destruct (ref_count o =? 1) eqn:E; cbn [andb negb].
    + apply (release_last a p o); [assumption | apply Z.eqb_eq; exact E | exact Hs].
    + apply (release_shared a p o); [assumption | apply Z.eqb_neq; exact E].
Qed.
End LifecycleExact.

Section LifecycleExactWorld.
Context {T : Type} (K : kind T) `{!lawful K}.

Lemma on_bind {A B} (m : M (arena T) A) (f : A -> M (arena T) B) w :
  (x ← on K m; on K (f x)) w = on K (x ← m; f x) w.
Proof.
  unfold on, bind. destruct (m (arena_of K w)) as [x a1| |]; try reflexivity.
  rewrite arena_of_with. destruct (f x a1); try reflexivity.
  rewrite with_with. reflexivity.
Qed.

Lemma on_eval {A} (m : M (arena T) A) w x a' :
  m (arena_of K w) = Ret x a' -> on K m w = Ret x (with_arena K a' w).
Proof. intros H. unfold on. rewrite H. reflexivity. Qed.

Lemma retain_release_world w p o msg :
  objects (arena_of K w) !! p = Some o -> 0 < ref_count o <= SIZE_MAX ->
  (h ← on K (retain msg (Some p)); on K (release (Some h))) w = Ret (Some NULL) w.
Proof.
  intros H Hc. rewrite on_bind.
  rewrite (on_eval _ _ _ _ (retain_release_arena _ _ _ msg H Hc)).
  rewrite with_arena_of. reflexivity.
Qed.
End LifecycleExactWorld.

Lemma object_at_count t w p c v :
  object_at t w p = Some (c, v) -> count_of t w p = Some c.
Proof.
  destruct t; cbn [object_at count_of];
    match goal with |- context [?m !! p] => destruct (m !! p) end;
    cbn; congruence.
Qed.

(** X1: for each of the three types and every live object whose count is
    in [1 .. SIZE_MAX], a retain followed by a release through a variable
    holding the returned handle returns with the variable NULL and leaves
    the complex objects of all three types exactly as they were before the
    retain: same objects, same counts, same singleton pointers. *)
Theorem retain_then_release_restores t w p c v :
  object_at t w p = Some (c, v) -> 0 < c <= SIZE_MAX ->
  (h ← retain_of t (Some p); release_of t (Some h)) w = Ret (Some NULL) w.
Proof.
  intros H Hc.
  destruct t; cbn [object_at retain_of release_of] in *;
    unfold dc_int_retain, dc_int_release, dc_frac_retain, dc_frac_release,
      dc_double_retain, dc_double_release;
    match type of H with
    | _ <$> ?m !! p = _ => destruct (m !! p) as [o|] eqn:Ho; [|discriminate H]
    end;
    cbn in H; injection H as <- _.
  - apply (retain_release_world Int w p o); assumption.
  - apply (retain_release_world Rat w p o); assumption.
  - apply (retain_release_world Dbl w p o); assumption.
Qed.

Lemma retain_then_release_restores_witness :
  (h ← retain_of TFrac (Some 2%positive); release_of TFrac (Some h)) sample_world
  = Ret (Some NULL) sample_world.
Proof.
  apply (retain_then_release_restores TFrac sample_world 2%positive 1
           (FracValue (Complex (Frac 3 4) (Frac (-1) 1)))).
  - reflexivity.
  - unfold SIZE_MAX. lia.
Defined.

(** X2: for each of the three types, a release of a live object with count
    [c] returns with the caller's variable NULL.  The object is deallocated
    exactly when [c] is 1 and no singleton pointer of the type holds it;
    otherwise it stays live with its components and the count [c - 1]
    (modulo the width of [size_t]).  Every other object of every type and
    all singleton pointers are unchanged. *)
Theorem release_frees_at_last_reference t w p c v :
  object_at t w p = Some (c, v) ->
  exists w',
    release_of t (Some (Some p)) w = Ret (Some NULL) w'
    /\ object_at t w' p
       = (if (c =? 1) && negb (held_by_singleton t w p) then None
          else Some (size_t (c - 1), v))
    /\ (forall t' q, (t', q) <> (t, p) -> object_at t' w' q = object_at t' w q)
    /\ (forall t' s, static_of t' w' s = static_of t' w s).
Proof.
  intros H.
  destruct t; cbn [object_at release_of] in *;
    unfold dc_int_release, dc_frac_release, dc_double_release;
    match type of H with
    | _ <$> ?m !! p = _ => destruct (m !! p) as [o|] eqn:Ho; [|discriminate H]
    end;
    cbn in H; injection H as <- <-.
  - eexists. split; [apply (on_eval Int), release_exact; exact Ho|].
    unfold held_by_singleton. cbn [static_of arena_of Int with_arena ints objects statics].
    split; [|split].
    + destruct (_ && _); [rewrite lookup_delete_eq | rewrite lookup_insert_eq];
        reflexivity.
    + intros t' q Hq. destruct t'; try reflexivity. cbn [object_at ints objects].
      assert (q <> p) by congruence.
      destruct (_ && _); [rewrite lookup_delete_ne | rewrite lookup_insert_ne];
        congruence.
    + intros [] s; reflexivity.
  - eexists. split; [apply (on_eval Rat), release_exact; exact Ho|].
    unfold held_by_singleton. cbn [static_of arena_of Rat with_arena fracs objects statics].
    split; [|split].
    + destruct (_ && _); [rewrite lookup_delete_eq | rewrite lookup_insert_eq];
        reflexivity.
    + intros t' q Hq. destruct t'; try reflexivity. cbn [object_at fracs objects].
      assert (q <> p) by congruence.
      destruct (_ && _); [rewrite lookup_delete_ne | rewrite lookup_insert_ne];
        congruence.
    + intros [] s; reflexivity.
  - eexists. split; [apply (on_eval Dbl), release_exact; exact Ho|].
    unfold held_by_singleton. cbn [static_of arena_of Dbl with_arena doubles objects statics].
    split; [|split].
    + destruct (_ && _); [rewrite lookup_delete_eq | rewrite lookup_insert_eq];
        reflexivity.
    + intros t' q Hq. destruct t'; try reflexivity. cbn [object_at doubles objects].
      assert (q <> p) by congruence.
      destruct (_ && _); [rewrite lookup_delete_ne | rewrite lookup_insert_ne];
        congruence.
    + intros [] s; reflexivity.
Qed.

Lemma release_frees_at_last_reference_witness :
  exists w',
    release_of TInt (Some (Some 2%positive)) sample_world = Ret (Some NULL) w'
    /\ object_at TInt w' 2%positive = None
    /\ object_at TInt w' 1%positive = Some (1, IntValue (Complex 3 4)).
Proof.
  destruct (release_frees_at_last_reference TInt sample_world 2%positive 1
              (IntValue (Complex 1 (-2))) eq_refl) as (w' & Hrun & Hp & Hfr & _).
  exists w'. split; [exact Hrun|]. split; [exact Hp|].
  rewrite Hfr by discriminate. reflexivity.
Defined.

(** ** Singleton accessors *)

Section AccessorExact.
Context {T : Type} (K : kind T) `{!lawful K}.

Lemma on_get_static w s : on K (get_static s) w = Ret (statics (arena_of K w) s) w.
Proof. unfold on, get_static. rewrite with_arena_of. reflexivity. Qed.

Lemma on_retain_eval w p o msg :
  objects (arena_of K w) !! p = Some o ->
  on K (retain msg (Some p)) w
  = Ret (Some p)
        (with_arena K
           (Arena (<[p := Cell (size_t (ref_count o + 1)) (value o)]>
                     (objects (arena_of K w)))
                  (statics (arena_of K w))) w).
Proof. intros H. apply on_eval, retain_live. exact H. Qed.

(** A later use of an accessor is a retain of the object its pointer holds. *)
Lemma singleton_accessor_set w s p create retain_it :
  statics (arena_of K w) s = Some p ->
  singleton_accessor K s create retain_it w = retain_it (Some p) w.
Proof.
  intros Hs. unfold singleton_accessor.
  eapply bind_intro; [apply on_get_static|]. rewrite Hs. cbn [notnull].
  eapply bind_intro; [reflexivity|].
  eapply bind_intro; [apply on_get_static|]. rewrite Hs. reflexivity.
Qed.

(** The first use creates the constant, stores the saturated count and
    retains it once. *)
Lemma singleton_accessor_unset w s v create msg :
  statics (arena_of K w) s = None ->
  create w = Ret (Some (new_loc K w)) (alloc K (Cell 1 v) w) ->
  singleton_accessor K s create (fun c => on K (retain msg c)) w
  = Ret (Some (new_loc K w))
        (with_arena K
           (Arena (<[new_loc K w := Cell (SIZE_MAX / 2 + 1) v]> (objects (arena_of K w)))
                  (fun s' => if decide (s' = s) then Some (new_loc K w)
                             else statics (arena_of K w) s')) w).
Proof.
  intros Hs Hcreate. unfold singleton_accessor.
  eapply bind_intro; [apply on_get_static|]. rewrite Hs. cbn [notnull].
  eapply bind_intro.
  { eapply bind_intro; [exact Hcreate|].
    eapply bind_intro; [apply on_eval; reflexivity|].
    apply on_eval. rewrite arena_of_with. apply store_eval.
    cbn [objects]. apply alloc_lookup_new. assumption. }
  eapply bind_intro; [apply on_get_static|].
  rewrite !arena_of_with. cbn [statics objects value].
  rewrite decide_True by reflexivity.
  etransitivity.
  { apply on_retain_eval. rewrite !arena_of_with. cbn [objects]. apply lookup_insert_eq. }
  f_equal. rewrite !arena_of_with, !with_with. cbn [objects statics ref_count value].
  unfold alloc. rewrite with_with, arena_of_with. cbn [objects statics].
  rewrite !insert_insert_eq. reflexivity.
Qed.
End AccessorExact.

Ltac unfold_accessors :=
  unfold dc_int_zero, dc_int_one, dc_int_i, dc_int_neg_one, dc_int_neg_i,
    dc_frac_zero, dc_frac_one, dc_frac_i, dc_frac_neg_one, dc_frac_neg_i,
    dc_double_zero, dc_double_one, dc_double_i, dc_double_neg_one,
    dc_double_neg_i in *.

(** X3: the first use of each of the fifteen singleton accessors (its
    singleton pointer is still NULL) returns a pointer to an object that
    was not live before, holding the constant the accessor is named after
    with the count [SIZE_MAX/2 + 1], and records that pointer in the
    accessor's singleton pointer.  No other singleton pointer and no other
    object changes. *)
Theorem singleton_first_use t s w :
  static_of t w s = None ->
  exists p w',
    accessor_of t s w = Ret (Some p) w'
    /\ object_at t w p = None
    /\ object_at t w' p = Some (SIZE_MAX / 2 + 1, constant_of t s)
    /\ static_of t w' s = Some p
    /\ (forall t' s', (t', s') <> (t, s) -> static_of t' w' s' = static_of t' w s')
    /\ (forall t' q, (t', q) <> (t, p) -> object_at t' w' q = object_at t' w q).
Proof.
  intros Hs.
  destruct t; cbn [static_of] in Hs.
  - exists (new_loc Int w).
    exists (with_arena Int
              (Arena (<[new_loc Int w := Cell (SIZE_MAX / 2 + 1) (unit_of s)]>
                        (objects (ints w)))
                     (fun s' => if decide (s' = s) then Some (new_loc Int w)
                                else statics (ints w) s')) w).
    split.
    { destruct s; cbn [accessor_of]; unfold_accessors;
        apply (singleton_accessor_unset Int w _ _ _ _ Hs); reflexivity. }
    cbn [object_at static_of arena_of Int with_arena ints objects statics].
    split; [rewrite (new_loc_fresh Int); reflexivity|].
    split; [rewrite lookup_insert_eq; reflexivity|].
    split; [rewrite decide_True by reflexivity; reflexivity|].
    split.
    + intros t' s' Hn. destruct t'; try reflexivity.
      cbn [static_of ints statics]. rewrite decide_False by congruence. reflexivity.
    + intros t' q Hn. destruct t'; try reflexivity.
      cbn [object_at ints objects]. rewrite lookup_insert_ne by congruence. reflexivity.
  - exists (new_loc Rat w).
    exists (with_arena Rat
              (Arena (<[new_loc Rat w := Cell (SIZE_MAX / 2 + 1) (Complex (Frac (real (unit_of s)) 1) (Frac (imag (unit_of s)) 1))]>
                        (objects (fracs w)))
                     (fun s' => if decide (s' = s) then Some (new_loc Rat w)
                                else statics (fracs w) s')) w).
    split.
    { destruct s; cbn [accessor_of]; unfold_accessors;
        apply (singleton_accessor_unset Rat w _ _ _ _ Hs); reflexivity. }
    cbn [object_at static_of arena_of Rat with_arena fracs objects statics].
    split; [rewrite (new_loc_fresh Rat); reflexivity|].
    split; [rewrite lookup_insert_eq; reflexivity|].
    split; [rewrite decide_True by reflexivity; reflexivity|].
    split.
    + intros t' s' Hn. destruct t'; try reflexivity.
      cbn [static_of fracs statics]. rewrite decide_False by congruence. reflexivity.
    + intros t' q Hn. destruct t'; try reflexivity.
      cbn [object_at fracs objects]. rewrite lookup_insert_ne by congruence. reflexivity.
  - exists (new_loc Dbl w).
    exists (with_arena Dbl
              (Arena (<[new_loc Dbl w := Cell (SIZE_MAX / 2 + 1) (Complex (double_of_Z (real (unit_of s))) (double_of_Z (imag (unit_of s))))]>
                        (objects (doubles w)))
                     (fun s' => if decide (s' = s) then Some (new_loc Dbl w)
                                else statics (doubles w) s')) w).
    split.
    { destruct s; cbn [accessor_of]; unfold_accessors;
        apply (singleton_accessor_unset Dbl w _ _ _ _ Hs); vm_compute; reflexivity. }
    cbn [object_at static_of arena_of Dbl with_arena doubles objects statics].
    split; [rewrite (new_loc_fresh Dbl); reflexivity|].
    split; [rewrite lookup_insert_eq; reflexivity|].
    split; [rewrite decide_True by reflexivity; reflexivity|].
    split.
    + intros t' s' Hn. destruct t'; try reflexivity.
      cbn [static_of doubles statics]. rewrite decide_False by congruence. reflexivity.
    + intros t' q Hn. destruct t'; try reflexivity.
      cbn [object_at doubles objects]. rewrite lookup_insert_ne by congruence. reflexivity.
Qed.

Lemma singleton_first_use_witness :
  exists p w',
    accessor_of TDouble neg_i_singleton sample_world = Ret (Some p) w'
    /\ object_at TDouble w' p
       = Some (SIZE_MAX / 2 + 1,
               DoubleValue (Complex double_zero (double_neg double_one)))
    /\ static_of TDouble w' neg_i_singleton = Some p.
Proof.
  destruct (singleton_first_use TDouble neg_i_singleton sample_world eq_refl)
    as (p & w' & Hrun & _ & Hobj & Hst & _).
  exists p, w'. split; [exact Hrun|]. split; [exact Hobj | exact Hst].
Defined.

(** X4: once its singleton pointer holds a live object, each of the
    fifteen accessors behaves as a retain of that object: it returns the
    pointer held, adds one to the count (modulo the width of [size_t]),
    creates nothing, and changes no singleton pointer and no other
    object. *)
Theorem singleton_later_use t s w p c v :
  static_of t w s = Some p -> object_at t w p = Some (c, v) ->
  exists w',
    accessor_of t s w = Ret (Some p) w'
    /\ retain_of t (Some p) w = Ret (Some p) w'
    /\ object_at t w' p = Some (size_t (c + 1), v)
    /\ (forall t' q, (t', q) <> (t, p) -> object_at t' w' q = object_at t' w q)
    /\ (forall t' s', static_of t' w' s' = static_of t' w s').
Proof.
  intros Hs H.
  destruct t; cbn [object_at static_of retain_of] in *;
    match type of H with
    | _ <$> ?m !! p = _ => destruct (m !! p) as [o|] eqn:Ho; [|discriminate H]
    end;
    cbn in H; injection H as <- <-.
  - eexists. split; [|split].
    { destruct s; cbn [accessor_of]; unfold_accessors;
        rewrite (singleton_accessor_set Int w _ p _ _ Hs);
        eapply (on_retain_eval Int w p o); exact Ho. }
    { eapply (on_retain_eval Int w p o); exact Ho. }
    cbn [object_at static_of arena_of Int with_arena ints objects statics].
    split; [rewrite lookup_insert_eq; reflexivity|]. split.
    + intros t' q Hn. destruct t'; try reflexivity.
      cbn [object_at ints objects]. rewrite lookup_insert_ne by congruence. reflexivity.
    + intros [] s'; reflexivity.
  - eexists. split; [|split].
    { destruct s; cbn [accessor_of]; unfold_accessors;
        rewrite (singleton_accessor_set Rat w _ p _ _ Hs);
        eapply (on_retain_eval Rat w p o); exact Ho. }
    { eapply (on_retain_eval Rat w p o); exact Ho. }
    cbn [object_at static_of arena_of Rat with_arena fracs objects statics].
    split; [rewrite lookup_insert_eq; reflexivity|]. split.
    + intros t' q Hn. destruct t'; try reflexivity.
      cbn [object_at fracs objects]. rewrite lookup_insert_ne by congruence. reflexivity.
    + intros [] s'; reflexivity.
  - eexists. split; [|split].
    { destruct s; cbn [accessor_of]; unfold_accessors;
        rewrite (singleton_accessor_set Dbl w _ p _ _ Hs);
        eapply (on_retain_eval Dbl w p o); exact Ho. }
    { eapply (on_retain_eval Dbl w p o); exact Ho. }
    cbn [object_at static_of arena_of Dbl with_arena doubles objects statics].
    split; [rewrite lookup_insert_eq; reflexivity|]. split.
    + intros t' q Hn. destruct t'; try reflexivity.
      cbn [object_at doubles objects]. rewrite lookup_insert_ne by congruence. reflexivity.
    + intros [] s'; reflexivity.
Qed.

Lemma singleton_later_use_witness :
  exists w',
    accessor_of TInt zero_singleton worn_world = Ret (Some 1%positive) w'
    /\ object_at TInt w' 1%positive = Some (2, IntValue (Complex 0 0)).
Proof.
  destruct (singleton_later_use TInt zero_singleton worn_world 1%positive 1
              (IntValue (Complex 0 0)) eq_refl eq_refl)
    as (w' & Hrun & _ & Hobj & _).
  exists w'. split; [exact Hrun | exact Hobj].
Defined.

(** ** Singleton pointers never dangle *)

Section ArenaOk.
Context {T : Type}.
Implicit Types (a : arena T) (p : loc) (o : cell T).

Lemma not_held a p :
  existsb (fun s => bool_decide (statics a s = Some p)) all_singletons = false ->
  forall s, statics a s <> Some p.
Proof.
  intros H s E.
  assert (Hx : existsb (fun s => bool_decide (statics a s = Some p)) all_singletons
               = true).
  { apply existsb_exists. exists s. split.
    - destruct s; cbn; auto 10.
    - apply bool_decide_eq_true_2. exact E. }
  congruence.
Qed.

Lemma release_inv a c x a' :
  release c a = Ret x a' ->
  a' = a
  \/ exists p o,
       c = Some (Some p) /\ objects a !! p = Some o
       /\ (a' = Arena (<[p := Cell (size_t (ref_count o - 1)) (value o)]> (objects a))
                      (statics a)
           \/ a' = Arena (delete p (objects a)) (statics a)
              /\ ref_count o = 1 /\ forall s, statics a s <> Some p).
Proof.
  intros H. destruct c as [[p|]|]; [|left; injection H; auto..].
  destruct (objects a !! p) as [o|] eqn:Ho.
  - right. exists p, o. split; [reflexivity|]. split; [exact Ho|].
    pose proof (eq_trans (eq_sym H) (release_exact a p o Ho)) as E.
    apply Ret_inj in E. destruct E as [_ ->]. clear H.
    destruct (ref_count o =? 1) eqn:E1; [|left; reflexivity].
    destruct (existsb _ all_singletons) eqn:Hs; [left; reflexivity|].
    right. split; [reflexivity|]. split; [apply Z.eqb_eq; exact E1|].
    apply not_held. exact Hs.
  - unfold release, bind, DC_ATOMIC_FETCH_SUB, bind, deref in H.
    rewrite Ho in H. discriminate H.
Qed.

Lemma retain_inv a c x a' msg :
  retain msg c a = Ret x a' ->
  exists p o,
    c = Some p /\ x = Some p /\ objects a !! p = Some o
    /\ a' = Arena (<[p := Cell (size_t (ref_count o + 1)) (value o)]> (objects a))
                  (statics a).
Proof.
  intros H. destruct c as [p|]; [|discriminate H].
  destruct (objects a !! p) as [o|] eqn:Ho.
  - pose proof (eq_trans (eq_sym H) (retain_live a p o msg Ho)) as E.
    injection E as -> ->. exists p, o. auto.
  - unfold retain, bind, DC_ASSERT, DC_ATOMIC_FETCH_ADD, bind, deref in H.
    cbn [notnull] in H. rewrite Ho in H. discriminate H.
Qed.

Lemma arena_ok_insert a p c st :
  arena_ok a -> (forall s q, st s = Some q -> q = p \/ statics a s = Some q) ->
  arena_ok (Arena (<[p := c]> (objects a)) st).
Proof.
  intros Hok Hst s q Hs. cbn [objects statics] in *.
  destruct (decide (q = p)) as [->|Hne].
  - rewrite lookup_insert_eq. eauto.
  - rewrite lookup_insert_ne by congruence.
    destruct (Hst s q Hs) as [?|Hold]; [contradiction|]. exact (Hok s q Hold).
Qed.

Lemma arena_ok_release a c x a' : release c a = Ret x a' -> arena_ok a -> arena_ok a'.
Proof.
  intros H Hok.
  destruct (release_inv _ _ _ _ H) as [->|(p & o & _ & Ho & [->|(-> & _ & Hs)])].
  - exact Hok.
  - apply arena_ok_insert; auto.
  - intros s q Hq. cbn [objects statics] in *.
    rewrite lookup_delete_ne; [exact (Hok s q Hq)|].
    intros ->. exact (Hs s Hq).
Qed.

Lemma arena_ok_retain a c x a' msg :
  retain msg c a = Ret x a' -> arena_ok a -> arena_ok a'.
Proof.
  intros H Hok. destruct (retain_inv _ _ _ _ _ H) as (p & o & _ & _ & _ & ->).
  apply arena_ok_insert; auto.
Qed.
End ArenaOk.

Section ArenaOkWorld.
Context {T : Type} (K : kind T) `{!lawful K}.

Lemma on_inv {A} (m : M (arena T) A) w x w' :
  on K m w = Ret x w' ->
  exists a', m (arena_of K w) = Ret x a' /\ w' = with_arena K a' w.
Proof.
  unfold on. destruct (m (arena_of K w)) as [y a'| |]; intros H; try discriminate H.
  injection H as <- <-. eauto.
Qed.

Lemma alloc_ok init w : arena_ok (arena_of K w) -> arena_ok (arena_of K (alloc K init w)).
Proof.
  intros H. unfold alloc. rewrite arena_of_with. apply arena_ok_insert; auto.
Qed.

Lemma on_release_ok c w x w' :
  on K (release c) w = Ret x w' ->
  arena_ok (arena_of K w) -> arena_ok (arena_of K w').
Proof.
  intros H Hok. apply on_inv in H. destruct H as (a' & H & ->).
  rewrite arena_of_with. exact (arena_ok_release _ _ _ _ H Hok).
Qed.

Lemma on_retain_ok msg c w x w' :
  on K (retain msg c) w = Ret x w' ->
  arena_ok (arena_of K w) -> arena_ok (arena_of K w').
Proof.
  intros H Hok. apply on_inv in H. destruct H as (a' & H & ->).
  rewrite arena_of_with. exact (arena_ok_retain _ _ _ _ _ H Hok).
Qed.

(** What a singleton accessor that returns has done: retained the object
    its pointer holds, or created the constant and recorded it. *)
Lemma singleton_accessor_inv w s create msg h w' :
  (forall u, exists v, create u = Ret (Some (new_loc K u)) (alloc K (Cell 1 v) u)) ->
  singleton_accessor K s create (fun c => on K (retain msg c)) w = Ret h w' ->
  (exists p o,
      statics (arena_of K w) s = Some p /\ objects (arena_of K w) !! p = Some o
      /\ h = Some p
      /\ w' = with_arena K
                (Arena (<[p := Cell (size_t (ref_count o + 1)) (value o)]>
                          (objects (arena_of K w)))
                       (statics (arena_of K w))) w)
  \/ (exists v,
        create w = Ret (Some (new_loc K w)) (alloc K (Cell 1 v) w)
        /\ statics (arena_of K w) s = None /\ h = Some (new_loc K w)
        /\ w' = with_arena K
                  (Arena (<[new_loc K w := Cell (SIZE_MAX / 2 + 1) v]>
                            (objects (arena_of K w)))
                         (fun s' => if decide (s' = s) then Some (new_loc K w)
                                    else statics (arena_of K w) s')) w).
Proof.
  intros Hcreate H.
  destruct (statics (arena_of K w) s) as [p|] eqn:Hs.
  - left. rewrite (singleton_accessor_set K w s p _ _ Hs) in H.
    apply on_inv in H. destruct H as (a' & H & ->).
    destruct (retain_inv _ _ _ _ _ H) as (q & o & [= <-] & -> & Ho & ->).
    exists p, o. auto.
  - right. destruct (Hcreate w) as (v & Hv). exists v.
    rewrite (singleton_accessor_unset K w s v create msg Hs Hv) in H.
    injection H as <- <-. auto.
Qed.

Lemma singleton_accessor_ok w s create msg h w' :
  (forall u, exists v, create u = Ret (Some (new_loc K u)) (alloc K (Cell 1 v) u)) ->
  singleton_accessor K s create (fun c => on K (retain msg c)) w = Ret h w' ->
  arena_ok (arena_of K w) -> arena_ok (arena_of K w').
Proof.
  intros Hcreate H Hok.
  destruct (singleton_accessor_inv _ _ _ _ _ _ Hcreate H)
    as [(p & o & _ & _ & _ & ->)|(v & _ & _ & _ & ->)];
    rewrite arena_of_with; apply arena_ok_insert; auto.
  intros s' q. destruct (decide (s' = s)); [intros [= <-]|]; auto.
Qed.
End ArenaOkWorld.

Lemma live_is_Some t w p :
  live t w p = true
  <-> match t with
      | TInt => is_Some (objects (ints w) !! p)
      | TFrac => is_Some (objects (fracs w) !! p)
      | TDouble => is_Some (objects (doubles w) !! p)
      end.
Proof.
  unfold live. rewrite bool_decide_eq_true.
  destruct t; cbn [count_of]; rewrite fmap_is_Some; reflexivity.
Qed.

Lemma singletons_live_arenas w :
  singletons_live w
  <-> arena_ok (arena_of Int w) /\ arena_ok (arena_of Rat w) /\ arena_ok (arena_of Dbl w).
Proof.
  unfold singletons_live, arena_ok. split.
  - intros H. repeat split; intros s p Hs.
    + apply (live_is_Some TInt), H with s. exact Hs.
    + apply (live_is_Some TFrac), H with s. exact Hs.
    + apply (live_is_Some TDouble), H with s. exact Hs.
  - intros (Hi & Hf & Hd) t s p Hs. apply live_is_Some.
    destruct t; cbn [static_of] in Hs; eauto.
Qed.

Create HintDb dc_readonly.
#[global] Hint Unfold
  dc_int_real dc_int_imag dc_int_eq dc_int_is_zero dc_int_is_real
  dc_int_is_imag dc_int_to_string dc_frac_real dc_frac_imag dc_frac_eq
  dc_frac_is_zero dc_frac_is_real dc_frac_is_imag dc_frac_is_gaussian_int
  dc_frac_to_string dc_double_real dc_double_imag dc_double_abs dc_double_arg
  dc_double_eq dc_double_is_zero dc_double_is_real dc_double_is_imag
  dc_double_is_nan dc_double_is_inf dc_double_to_string
  : dc_readonly.

Lemma creates_int re im u :
  exists v, dc_int_from_ints re im u
            = Ret (Some (new_loc Int u)) (alloc Int (Cell 1 v) u).
Proof. eexists. reflexivity. Qed.

Lemma creates_frac rn rd i_n id u :
  rd <> 0 -> id <> 0 ->
  exists v, dc_frac_from_ints rn rd i_n id u
            = Ret (Some (new_loc Rat u)) (alloc Rat (Cell 1 v) u).
Proof.
  intros Hr Hi. eexists. unfold dc_frac_from_ints, df_from_ints.
  apply Z.eqb_neq in Hr, Hi.
  eapply bind_intro; [eapply bind_intro; [apply assert_intro; rewrite Hr|]; reflexivity|].
  eapply bind_intro; [eapply bind_intro; [apply assert_intro; rewrite Hi|]; reflexivity|].
  reflexivity.
Qed.

Lemma creates_double re im u :
  exists v, dc_double_from_doubles re im u
            = Ret (Some (new_loc Dbl u)) (alloc Dbl (Cell 1 v) u).
Proof. eexists. reflexivity. Qed.

Lemma dc_int_div_ok w a b h w' :
  dc_int_div a b w = Ret h w' ->
  arena_ok (fracs w) ->
  ints w' = ints w /\ arena_ok (fracs w') /\ doubles w' = doubles w.
Proof.
  intros H Hok. unfold dc_int_div in H. invert_run.
  repeat match goal with
         | H : dc_int_to_frac _ _ = Ret _ _ |- _ =>
             apply dc_int_to_frac_fresh in H; destruct H as (? & -> & ->)
         | H : dc_frac_div _ _ _ = Ret _ _ |- _ =>
             apply dc_frac_div_fresh in H; destruct H as (? & -> & ->)
         end.
  repeat match goal with
         | R : dc_frac_release _ _ = Ret _ _ |- _ =>
             apply (on_inv Rat) in R; destruct R as (? & R & ->);
             apply arena_ok_release in R
         end.
  all: repeat split;
    first [ reflexivity | assumption | repeat apply (alloc_ok Rat); exact Hok ].
Qed.

Lemma dc_frac_reciprocal_ok w c h w' :
  dc_frac_reciprocal c w = Ret h w' ->
  arena_ok (fracs w) ->
  ints w' = ints w /\ arena_ok (fracs w') /\ doubles w' = doubles w.
Proof.
  intros H Hok. unfold dc_frac_reciprocal, dc_frac_is_zero in H. invert_run.
  repeat match goal with
         | H : dc_frac_from_df _ _ _ = Ret _ _ |- _ =>
             apply dc_frac_from_df_fresh in H; destruct H as (? & -> & ->)
         | H : dc_frac_div _ _ _ = Ret _ _ |- _ =>
             apply dc_frac_div_fresh in H; destruct H as (? & -> & ->)
         end.
  repeat match goal with
         | R : dc_frac_release _ _ = Ret _ _ |- _ =>
             apply (on_inv Rat) in R; destruct R as (? & R & ->);
             apply arena_ok_release in R
         end.
  all: repeat split;
    first [ reflexivity | assumption | repeat apply (alloc_ok Rat); exact Hok ].
Qed.

Ltac ok_finish :=
  repeat split;
  first [ assumption
        | apply (alloc_ok Int); assumption
        | apply (alloc_ok Rat); assumption
        | apply (alloc_ok Dbl); assumption ].

Lemma exec_keeps_singletons_live {rt : runtime} (c : call) (w : world) r w' :
  singletons_live w -> exec c w = Ret r w' -> singletons_live w'.
Proof.
  intros Hl H. apply singletons_live_arenas in Hl. destruct Hl as (Hi & Hf & Hd).
  apply singletons_live_arenas.
  destruct c; cbn [exec] in H; unfold returning in H;
    apply bind_inv in H; destruct H as (x & w1 & H & Hret);
    apply ret_inv in Hret; destruct Hret as [_ ->].
  all: try (apply dc_int_div_ok in H; [|exact Hf];
            destruct H as (Ei & Hf' & Ed); cbn [arena_of Int Rat Dbl];
            rewrite Ei, Ed; repeat split; assumption).
  all: try (apply dc_frac_reciprocal_ok in H; [|exact Hf];
            destruct H as (Ei & Hf' & Ed); cbn [arena_of Int Rat Dbl];
            rewrite Ei, Ed; repeat split; assumption).
  all: try (unfold dc_int_release, dc_frac_release, dc_double_release in H;
            apply on_inv in H; destruct H as (a' & H & ->);
            apply arena_ok_release in H; [|assumption];
            repeat split; assumption).
  all: try (unfold dc_int_retain, dc_frac_retain, dc_double_retain in H;
            apply on_inv in H; destruct H as (a' & H & ->);
            apply arena_ok_retain in H; [|assumption];
            repeat split; assumption).
  all: try (unfold_accessors;
            unfold dc_int_retain, dc_frac_retain, dc_double_retain in H;
            first [ pose proof (singleton_accessor_inv Int _ _ _ _ _ _
                                  (creates_int _ _) H) as Hx
                  | pose proof (singleton_accessor_inv Rat _ _ _ _ _ _
                                  (fun u => creates_frac _ 1 _ 1 u
                                              ltac:(discriminate) ltac:(discriminate)) H) as Hx
                  | pose proof (singleton_accessor_inv Dbl _ _ _ _ _ _
                                  (creates_double _ _) H) as Hx ];
            destruct Hx as [(p & o & _ & _ & _ & ->)|(v & _ & _ & _ & ->)];
            repeat split; try assumption;
            apply arena_ok_insert; auto;
            intros s' q; destruct (decide _); [intros [= <-]|]; auto).
  all: autounfold with dc_unfold dc_readonly in H; invert_run; ok_finish.
Qed.

(** X5: from a state where no singleton pointer dangles, every client
    program, that is every sequence of the 91 exported operations, that
    runs to completion ends in a state where no singleton pointer dangles:
    an object a singleton pointer holds is never deallocated, whatever is
    released and however often.  The initial state, with all pointers
    NULL, is such a state. *)
Theorem singletons_never_dangle {rt : runtime} (cs : list call) (w : world) rs w' :
  singletons_live w -> run_calls cs w = Ret rs w' -> singletons_live w'.
Proof.
  revert w rs. induction cs as [|c cs IH]; intros w rs Hl H.
  - injection H as _ <-. exact Hl.
  - cbn [run_calls] in H. invert_run.
    eapply IH; [|eassumption].
    eapply exec_keeps_singletons_live; eassumption.
Qed.

Lemma singletons_never_dangle_witness :
  singletons_live
    (world_after (run_calls (rt := trivial_runtime)
                    [call_dc_int_zero;
                     call_dc_int_release (Some (Some 1%positive));
                     call_dc_int_release (Some (Some 1%positive))])
                 initial_world).
Proof.
  apply (singletons_never_dangle (rt := trivial_runtime)
           [call_dc_int_zero;
            call_dc_int_release (Some (Some 1%positive));
            call_dc_int_release (Some (Some 1%positive))]
           initial_world
           [RInt (Some 1%positive); RVar (Some NULL); RVar (Some NULL)]).
  - intros t s p. destruct t; discriminate.
  - vm_compute. reflexivity.
Defined.

(** ** Nothing leaks *)

Section Reclaim.
Context {T : Type} (K : kind T) `{!lawful K}.

Lemma held_false (a : arena T) p :
  (forall s, statics a s <> Some p) ->
  existsb (fun s => bool_decide (statics a s = Some p)) all_singletons = false.
Proof.
  intros H. cbn. rewrite !bool_decide_eq_false_2 by apply H. reflexivity.
Qed.

Lemma fresh_not_held (a : arena T) p :
  arena_ok a -> objects a !! p = None -> forall s, statics a s <> Some p.
Proof.
  intros Hok Hp s Hs. destruct (Hok s p Hs) as [o Ho]. congruence.
Qed.

(** Releasing the only reference to an object that no singleton pointer
    holds removes the object and nothing else. *)
Lemma on_release_temp w p v :
  objects (arena_of K w) !! p = Some (Cell 1 v) ->
  (forall s, statics (arena_of K w) s <> Some p) ->
  on K (release (Some (Some p))) w
  = Ret (Some NULL)
        (with_arena K (Arena (delete p (objects (arena_of K w)))
                             (statics (arena_of K w))) w).
Proof.
  intros Hp Hs. apply on_eval.
  apply (release_last _ p (Cell 1 v)); [exact Hp | reflexivity|].
  apply held_false. exact Hs.
Qed.

Lemma arena_eta (a : arena T) : Arena (objects a) (statics a) = a.
Proof. destruct a. reflexivity. Qed.

Lemma release_inserted w r v :
  arena_ok (arena_of K w) -> objects (arena_of K w) !! r = None ->
  on K (release (Some (Some r)))
     (with_arena K (Arena (<[r := Cell 1 v]> (objects (arena_of K w)))
                          (statics (arena_of K w))) w)
  = Ret (Some NULL) w.
Proof.
  intros Hok Hr. rewrite (on_release_temp _ _ v).
  - rewrite with_with, arena_of_with. cbn [objects statics].
    rewrite delete_insert_id by exact Hr.
    rewrite arena_eta, with_arena_of. reflexivity.
  - rewrite arena_of_with. apply lookup_insert_eq.
  - rewrite arena_of_with. cbn [statics]. apply fresh_not_held; assumption.
Qed.

Lemma release_alloc w v :
  arena_ok (arena_of K w) ->
  on K (release (Some (Some (new_loc K w)))) (alloc K (Cell 1 v) w)
  = Ret (Some NULL) w.
Proof. intros Hok. apply release_inserted; [exact Hok | apply new_loc_fresh]. Qed.

(** A temporary allocated first and released after one or two later
    allocations: the state afterwards has the last allocation only. *)
Lemma drop_one_temp w v0 v1 :
  arena_ok (arena_of K w) ->
  let u1 := alloc K (Cell 1 v0) w in
  objects (arena_of K w) !! new_loc K u1 = None
  /\ on K (release (Some (Some (new_loc K w)))) (alloc K (Cell 1 v1) u1)
     = Ret (Some NULL)
           (with_arena K
              (Arena (<[new_loc K u1 := Cell 1 v1]> (objects (arena_of K w)))
                     (statics (arena_of K w))) w).
Proof.
  intros Hok u1.
  pose proof (new_loc_fresh K w) as Faf.
  assert (Fr : <[new_loc K w := Cell 1 v0]> (objects (arena_of K w)) !! new_loc K u1
               = None).
  { rewrite <- (alloc_objects K). apply new_loc_fresh. }
  apply lookup_insert_None in Fr. destruct Fr as [Fr Nr].
  split; [exact Fr|].
  assert (E2 : alloc K (Cell 1 v1) u1
               = with_arena K
                   (Arena (<[new_loc K u1 := Cell 1 v1]>
                             (<[new_loc K w := Cell 1 v0]> (objects (arena_of K w))))
                          (statics (arena_of K w))) w).
  { unfold alloc at 1. unfold u1 at 2 3 4. unfold alloc at 1 2 3.
    rewrite with_with, arena_of_with. reflexivity. }
  rewrite E2. clear E2.
  set (af := new_loc K w) in *. set (r := new_loc K u1) in *.
  clearbody af r. clear u1.
  rewrite (on_release_temp _ af v0).
  - rewrite arena_of_with, with_with. cbn [objects statics].
    rewrite delete_insert_ne by congruence.
    rewrite delete_insert_id by exact Faf. reflexivity.
  - rewrite arena_of_with. cbn [objects].
    rewrite lookup_insert_ne by congruence. apply lookup_insert_eq.
  - rewrite arena_of_with. cbn [statics]. apply fresh_not_held; assumption.
Qed.

Lemma drop_two_temps w v0 v1 v2 :
  arena_ok (arena_of K w) ->
  let u1 := alloc K (Cell 1 v0) w in
  let u2 := alloc K (Cell 1 v1) u1 in
  objects (arena_of K w) !! new_loc K u2 = None
  /\ (on K (release (Some (Some (new_loc K w))));;
      on K (release (Some (Some (new_loc K u1))))) (alloc K (Cell 1 v2) u2)
     = Ret (Some NULL)
           (with_arena K
              (Arena (<[new_loc K u2 := Cell 1 v2]> (objects (arena_of K w)))
                     (statics (arena_of K w))) w).
Proof.
  intros Hok u1 u2.
  pose proof (new_loc_fresh K w) as Faf.
  assert (Fbf : <[new_loc K w := Cell 1 v0]> (objects (arena_of K w)) !! new_loc K u1
                = None).
  { rewrite <- (alloc_objects K). apply new_loc_fresh. }
  assert (Fr : <[new_loc K u1 := Cell 1 v1]>
                 (<[new_loc K w := Cell 1 v0]> (objects (arena_of K w)))
               !! new_loc K u2 = None).
  { rewrite <- (alloc_objects K _ w). fold u1. rewrite <- (alloc_objects K _ u1).
    apply new_loc_fresh. }
  apply lookup_insert_None in Fr. destruct Fr as [Fr Nrb].
  apply lookup_insert_None in Fr. destruct Fr as [Fr Nra].
  apply lookup_insert_None in Fbf. destruct Fbf as [Fbf Nba].
  split; [exact Fr|].
  assert (E3 : alloc K (Cell 1 v2) u2
               = with_arena K
                   (Arena (<[new_loc K u2 := Cell 1 v2]>
                             (<[new_loc K u1 := Cell 1 v1]>
                                (<[new_loc K w := Cell 1 v0]> (objects (arena_of K w)))))
                          (statics (arena_of K w))) w).
  { unfold alloc at 1. unfold u2 at 2 3 4. unfold alloc at 1 2 3.
    rewrite with_with, arena_of_with. cbn [objects statics].
    unfold u1 at 2 3 4. unfold alloc at 1 2 3.
    rewrite with_with, arena_of_with. reflexivity. }
  rewrite E3. clear E3.
  set (af := new_loc K w) in *. set (bf := new_loc K u1) in *.
  set (r := new_loc K u2) in *. clearbody af bf r. clear u1 u2.
  eapply bind_intro.
  { apply (on_release_temp _ af v0).
    - rewrite arena_of_with. cbn [objects].
      rewrite !lookup_insert_ne by congruence. apply lookup_insert_eq.
    - rewrite arena_of_with. cbn [statics]. apply fresh_not_held; assumption. }
  rewrite arena_of_with, with_with. cbn [objects statics].
  rewrite !(delete_insert_ne _ af) by congruence.
  rewrite delete_insert_id by exact Faf.
  rewrite (on_release_temp _ bf v1).
  - rewrite arena_of_with, with_with. cbn [objects statics].
    rewrite delete_insert_ne by congruence.
    rewrite delete_insert_id by exact Fbf. reflexivity.
  - rewrite arena_of_with. cbn [objects].
    rewrite lookup_insert_ne by congruence. apply lookup_insert_eq.
  - rewrite arena_of_with. cbn [statics]. apply fresh_not_held; assumption.
Qed.
End Reclaim.


Lemma dc_int_div_exact w a b h w' :
  arena_ok (fracs w) ->
  dc_int_div a b w = Ret h w' ->
  exists r v,
    h = Some r /\ objects (fracs w) !! r = None
    /\ w' = with_arena Rat (Arena (<[r := Cell 1 v]> (objects (fracs w)))
                                  (statics (fracs w))) w.
Proof.
  intros Hok H. unfold dc_int_div in H. invert_run.
  repeat match goal with
         | H : dc_int_to_frac _ _ = Ret _ _ |- _ =>
             apply dc_int_to_frac_fresh in H; destruct H as (? & -> & ->)
         | H : dc_frac_div _ _ _ = Ret _ _ |- _ =>
             apply dc_frac_div_fresh in H; destruct H as (? & -> & ->)
         end.
  match goal with
  | R1 : dc_frac_release _ (alloc Rat (Cell 1 ?v2) (alloc Rat (Cell 1 ?v1)
                                                     (alloc Rat (Cell 1 ?v0) _)))
         = Ret _ _,
    R2 : dc_frac_release _ _ = Ret _ _ |- _ =>
      destruct (drop_two_temps Rat w v0 v1 v2 Hok) as [Fr E];
      pose proof (eq_trans (eq_sym (bind_intro _ _ _ _ _ _ R1 R2)) E) as X;
      apply Ret_inj in X; destruct X as [_ ->]
  end.
  eexists _, _. split; [reflexivity|]. split; [exact Fr | reflexivity].
Qed.

Lemma dc_frac_reciprocal_exact w c h w' :
  arena_ok (fracs w) ->
  dc_frac_reciprocal c w = Ret h w' ->
  exists r v,
    h = Some r /\ objects (fracs w) !! r = None
    /\ w' = with_arena Rat (Arena (<[r := Cell 1 v]> (objects (fracs w)))
                                  (statics (fracs w))) w.
Proof.
  intros Hok H. unfold dc_frac_reciprocal, dc_frac_is_zero in H. invert_run.
  repeat match goal with
         | H : dc_frac_from_df _ _ _ = Ret _ _ |- _ =>
             apply dc_frac_from_df_fresh in H; destruct H as (? & -> & ->)
         | H : dc_frac_div _ _ _ = Ret _ _ |- _ =>
             apply dc_frac_div_fresh in H; destruct H as (? & -> & ->)
         end.
  match goal with
  | R1 : dc_frac_release _ (alloc Rat (Cell 1 ?v1) (alloc Rat (Cell 1 ?v0) _))
         = Ret _ _ |- _ =>
      destruct (drop_one_temp Rat w v0 v1 Hok) as [Fr E];
      pose proof (eq_trans (eq_sym R1) E) as X;
      apply Ret_inj in X; destruct X as [_ ->]
  end.
  eexists _, _. split; [reflexivity|]. split; [exact Fr | reflexivity].
Qed.

(** X6: in a state where no singleton pointer dangles, whenever an exported
    operation that constructs its result (every handle-returning operation
    but retain and the singleton accessors) returns, one release of the
    returned handle brings the complex objects of all three types back to
    exactly what they were before the call.  So each such call allocates
    one complex object and no other survives it: the temporaries of
    [dc_int_div] and [dc_frac_reciprocal] are gone, and no operand's count
    has changed. *)
Theorem release_undoes_construction {rt : runtime} (c : call) (w : world) r w1 t h :
  singletons_live w ->
  returns_complex c = true -> is_retain c = false ->
  is_singleton_accessor c = false ->
  exec c w = Ret r w1 -> returned_handle r = Some (t, h) ->
  release_of t (Some h) w1 = Ret (Some NULL) w.
Proof.
  intros Hl Hc Hnr Hna H Hh.
  apply singletons_live_arenas in Hl. destruct Hl as (Hi & Hf & Hd).
  destruct c; cbn in Hc, Hnr, Hna; try discriminate;
    cbn [exec] in H; unfold returning in H;
    apply bind_inv in H; destruct H as (x & w2 & H & Hret);
    apply ret_inv in Hret; destruct Hret as [-> ->];
    cbn [returned_handle] in Hh; injection Hh as <- <-; cbn [release_of].
  all: try (apply dc_int_div_exact in H; [|exact Hf];
            destruct H as (p & v & -> & Hp & ->);
            apply (release_inserted Rat); assumption).
  all: try (apply dc_frac_reciprocal_exact in H; [|exact Hf];
            destruct H as (p & v & -> & Hp & ->);
            apply (release_inserted Rat); assumption).
  all: autounfold with dc_unfold in H; invert_run;
    first [ apply (release_alloc Int); assumption
          | apply (release_alloc Rat); assumption
          | apply (release_alloc Dbl); assumption ].
Qed.

Lemma release_undoes_construction_witness :
  exists p w1,
    dc_int_div (Some 1%positive) (Some 2%positive) sample_world = Ret (Some p) w1
    /\ dc_frac_release (Some (Some p)) w1 = Ret (Some NULL) sample_world.
Proof.
  exists 5%positive. eexists. split; [vm_compute; reflexivity|].
  apply (release_undoes_construction (rt := trivial_runtime)
           (call_dc_int_div (Some 1%positive) (Some 2%positive)) sample_world
           (RFrac (Some 5%positive)) _ TFrac (Some 5%positive)).
  - intros t s p. destruct t, s; discriminate.
  - reflexivity.
  - reflexivity.
  - reflexivity.
  - vm_compute. reflexivity.
  - reflexivity.
Defined.

(** ** Gaussian integer arithmetic *)

Lemma dc_int_add_eval w a b va vb :
  value_at Int w a = Some va -> value_at Int w b = Some vb ->
  dc_int_add a b w
  = Ret (Some (new_loc Int w))
        (alloc Int (Cell 1 (Complex (real va + real vb) (imag va + imag vb))) w).
Proof. intros Ha Hb. unfold dc_int_add, dc_int_from_di. eval_run. Qed.

Lemma dc_int_sub_eval w a b va vb :
  value_at Int w a = Some va -> value_at Int w b = Some vb ->
  dc_int_sub a b w
  = Ret (Some (new_loc Int w))
        (alloc Int (Cell 1 (Complex (real va - real vb) (imag va - imag vb))) w).
Proof. intros Ha Hb. unfold dc_int_sub, dc_int_from_di. eval_run. Qed.

Lemma dc_int_mul_eval w a b va vb :
  value_at Int w a = Some va -> value_at Int w b = Some vb ->
  dc_int_mul a b w
  = Ret (Some (new_loc Int w))
        (alloc Int (Cell 1 (Complex (real va * real vb - imag va * imag vb)
                                    (real va * imag vb + imag va * real vb))) w).
Proof. intros Ha Hb. unfold dc_int_mul, dc_int_from_di. eval_run. Qed.

Lemma dc_int_negate_eval w c v :
  value_at Int w c = Some v ->
  dc_int_negate c w
  = Ret (Some (new_loc Int w))
        (alloc Int (Cell 1 (Complex (- real v) (- imag v))) w).
Proof. intros Hc. unfold dc_int_negate, dc_int_from_di. eval_run. Qed.

Lemma dc_int_conj_eval w c v :
  value_at Int w c = Some v ->
  dc_int_conj c w
  = Ret (Some (new_loc Int w))
        (alloc Int (Cell 1 (Complex (real v) (- imag v))) w).
Proof. intros Hc. unfold dc_int_conj, dc_int_from_di. eval_run. Qed.

Lemma dc_int_copy_eval w c v :
  value_at Int w c = Some v ->
  dc_int_copy c w
  = Ret (Some (new_loc Int w))
        (alloc Int (Cell 1 (Complex (real v) (imag v))) w).
Proof. intros Hc. unfold dc_int_copy, dc_int_from_di. eval_run. Qed.

(** The operand handles of a later step are still live after the
    allocations in between. *)
Ltac live_now :=
  first [ eassumption
        | apply (alloc_value_new Int)
        | apply (alloc_value_new Rat)
        | apply (alloc_value_new Dbl)
        | apply alloc_value_old; [typeclasses eauto | live_now] ].

Ltac eval_int_op :=
  first [ eapply dc_int_add_eval | eapply dc_int_sub_eval | eapply dc_int_mul_eval
        | eapply dc_int_negate_eval | eapply dc_int_conj_eval
        | eapply dc_int_copy_eval ];
  live_now.

Ltac run_int :=
  eexists _, _; split;
  [ repeat (eapply bind_intro; [ eval_int_op | cbv beta ]); eval_int_op
  | rewrite (alloc_value_new Int); cbn [value real imag];
    try (f_equal; f_equal; ring) ].

(** X7: on live Gaussian operands the product is commutative and
    associative, it distributes over the sum, and the difference of a value
    with itself is zero.  Each law is stated on the components of the
    objects the two sides return. *)
Theorem gaussian_ring_laws w a b c va vb vc :
  value_at Int w a = Some va -> value_at Int w b = Some vb ->
  value_at Int w c = Some vc ->
  (exists v, returns Int (dc_int_mul a b) w v /\ returns Int (dc_int_mul b a) w v)
  /\ (exists v, returns Int (x ← dc_int_mul a b; dc_int_mul x c) w v
                /\ returns Int (y ← dc_int_mul b c; dc_int_mul a y) w v)
  /\ (exists v, returns Int (s ← dc_int_add b c; dc_int_mul a s) w v
                /\ returns Int (x ← dc_int_mul a b; y ← dc_int_mul a c;
                                dc_int_add x y) w v)
  /\ returns Int (dc_int_sub a a) w (Complex 0 0)
  /\ (exists v, returns Int (dc_int_sub a b) w v
                /\ returns Int (n ← dc_int_negate b; dc_int_add a n) w v).
Proof.
  intros Ha Hb Hc. repeat split.
  - exists (Complex (real va * real vb - imag va * imag vb)
                    (real va * imag vb + imag va * real vb)).
    split; run_int.
  - exists (Complex (real va * (real vb * real vc - imag vb * imag vc)
                     - imag va * (real vb * imag vc + imag vb * real vc))
                    (real va * (real vb * imag vc + imag vb * real vc)
                     + imag va * (real vb * real vc - imag vb * imag vc))).
    split; run_int.
  - exists (Complex (real va * (real vb + real vc) - imag va * (imag vb + imag vc))
                    (real va * (imag vb + imag vc) + imag va * (real vb + real vc))).
    split; run_int.
  - run_int.
  - exists (Complex (real va - real vb) (imag va - imag vb)).
    split; run_int.
Qed.

Lemma gaussian_ring_laws_witness :
  returns Int (dc_int_sub (Some 1%positive) (Some 1%positive)) sample_world
          (Complex 0 0).
Proof.
  apply (gaussian_ring_laws sample_world (Some 1%positive) (Some 2%positive)
           (Some 2%positive) (Complex 3 4) (Complex 1 (-2)) (Complex 1 (-2)));
    reflexivity.
Defined.

(** X8: conjugation of Gaussian integers is an involution, it commutes
    with the product, and the product of a value with its conjugate is the
    real number [re^2 + im^2]. *)
Theorem gaussian_conjugation_laws w a b va vb :
  value_at Int w a = Some va -> value_at Int w b = Some vb ->
  returns Int (x ← dc_int_conj a; dc_int_conj x) w va
  /\ (exists v, returns Int (p ← dc_int_mul a b; dc_int_conj p) w v
                /\ returns Int (x ← dc_int_conj a; y ← dc_int_conj b;
                                dc_int_mul x y) w v)
  /\ returns Int (x ← dc_int_conj a; dc_int_mul a x) w
             (Complex (real va * real va + imag va * imag va) 0).
Proof.
  intros Ha Hb. repeat split.
  - run_int. destruct va as [re im]. cbn [real imag].
    rewrite Z.opp_involutive. reflexivity.
  - exists (Complex (real va * real vb - imag va * imag vb)
                    (- (real va * imag vb + imag va * real vb))).
    split; run_int.
  - run_int.
Qed.

Lemma gaussian_conjugation_laws_witness :
  returns Int (x ← dc_int_conj (Some 1%positive); dc_int_mul (Some 1%positive) x)
          sample_world (Complex 25 0).
Proof.
  apply (gaussian_conjugation_laws sample_world (Some 1%positive) (Some 2%positive)
           (Complex 3 4) (Complex 1 (-2)));
    reflexivity.
Defined.

(** ** Rational complex arithmetic *)

(** A rational has one reduced form. *)
Lemma df_reduced_unique a b :
  df_reduced a -> df_reduced b -> df_to_Q a == df_to_Q b -> a = b.
Proof.
  intros [Hpa Hga] [Hpb Hgb] H.
  destruct a as [na da], b as [nb db]. cbn [numerator denominator] in *.
  unfold df_to_Q, Qeq in H. cbn [Qnum Qden numerator denominator] in H.
  rewrite !Z2Pos.id in H by assumption.
  assert (Hab : (da | db)).
  { apply (Z.gauss da na db); [|rewrite Z.gcd_comm; exact Hga].
    exists nb. exact H. }
  assert (Hba : (db | da)).
  { apply (Z.gauss db nb da); [|rewrite Z.gcd_comm; exact Hgb].
    exists na. symmetry. exact H. }
  assert (E : da = db) by (apply Z.divide_antisym_nonneg; first [lia | assumption]).
  subst db. f_equal. nia.
Qed.

Lemma reduced_unique (u v : complex df_frac) :
  reduced u -> reduced v ->
  df_to_Q (real u) == df_to_Q (real v) -> df_to_Q (imag u) == df_to_Q (imag v) ->
  u = v.
Proof.
  intros [Hur Hui] [Hvr Hvi] Hr Hi. destruct u, v. cbn in *.
  f_equal; apply df_reduced_unique; assumption.
Qed.

Lemma df_add_pos a b :
  0 < denominator a -> 0 < denominator b -> 0 < denominator (df_add a b).
Proof. intros. apply df_add_reduced; assumption. Qed.

Lemma df_sub_pos a b :
  0 < denominator a -> 0 < denominator b -> 0 < denominator (df_sub a b).
Proof. intros. apply df_sub_reduced; assumption. Qed.

Lemma df_mul_pos a b :
  0 < denominator a -> 0 < denominator b -> 0 < denominator (df_mul a b).
Proof. intros. apply df_mul_reduced; assumption. Qed.

Ltac den_pos :=
  repeat first [ assumption | apply df_add_pos | apply df_sub_pos | apply df_mul_pos ].

Lemma df_negate_Q a : df_to_Q (df_negate a) == - df_to_Q a.
Proof. reflexivity. Qed.

(** The squared modulus of a non-zero value is not zero as a rational. *)
Lemma modulus_Q_nonzero c d :
  0 < denominator c -> 0 < denominator d ->
  df_is_zero c && df_is_zero d = false ->
  ~ df_to_Q c * df_to_Q c + df_to_Q d * df_to_Q d == 0.
Proof.
  intros Hc Hd Hnz H.
  pose proof (squared_modulus_nonzero c d Hc Hd Hnz) as Hm.
  unfold df_is_zero in Hm. apply Z.eqb_neq in Hm. apply Hm.
  rewrite <- !df_mul_Q, <- df_add_Q in H by den_pos.
  unfold df_to_Q, Qeq in H. cbn in H. lia.
Qed.

Lemma dc_frac_add_eval w a b va vb :
  value_at Rat w a = Some va -> value_at Rat w b = Some vb ->
  dc_frac_add a b w
  = Ret (Some (new_loc Rat w))
        (alloc Rat (Cell 1 (Complex (df_add (real va) (real vb))
                                    (df_add (imag va) (imag vb)))) w).
Proof. intros Ha Hb. unfold dc_frac_add, dc_frac_from_df. eval_run. Qed.

Lemma dc_frac_sub_eval w a b va vb :
  value_at Rat w a = Some va -> value_at Rat w b = Some vb ->
  dc_frac_sub a b w
  = Ret (Some (new_loc Rat w))
        (alloc Rat (Cell 1 (Complex (df_sub (real va) (real vb))
                                    (df_sub (imag va) (imag vb)))) w).
Proof. intros Ha Hb. unfold dc_frac_sub, dc_frac_from_df. eval_run. Qed.

Lemma dc_frac_mul_eval w a b va vb :
  value_at Rat w a = Some va -> value_at Rat w b = Some vb ->
  dc_frac_mul a b w
  = Ret (Some (new_loc Rat w))
        (alloc Rat
           (Cell 1 (Complex (df_sub (df_mul (real va) (real vb))
                                    (df_mul (imag va) (imag vb)))
                            (df_add (df_mul (real va) (imag vb))
                                    (df_mul (imag va) (real vb))))) w).
Proof. intros Ha Hb. unfold dc_frac_mul, dc_frac_from_df. eval_run. Qed.

Lemma dc_frac_negate_eval w c v :
  value_at Rat w c = Some v ->
  dc_frac_negate c w
  = Ret (Some (new_loc Rat w))
        (alloc Rat (Cell 1 (Complex (df_negate (real v)) (df_negate (imag v)))) w).
Proof. intros Hc. unfold dc_frac_negate, dc_frac_from_df. eval_run. Qed.

Lemma dc_frac_conj_eval w c v :
  value_at Rat w c = Some v ->
  dc_frac_conj c w
  = Ret (Some (new_loc Rat w))
        (alloc Rat (Cell 1 (Complex (real v) (df_negate (imag v)))) w).
Proof. intros Hc. unfold dc_frac_conj, dc_frac_from_df. eval_run. Qed.

Lemma dc_frac_copy_eval w c v :
  value_at Rat w c = Some v ->
  dc_frac_copy c w
  = Ret (Some (new_loc Rat w))
        (alloc Rat (Cell 1 (Complex (real v) (imag v))) w).
Proof. intros Hc. unfold dc_frac_copy, dc_frac_from_df. eval_run. Qed.

(** X9: for live rational complex operands in reduced form, the sum, the
    difference and the product are again in reduced form, and their
    components denote the componentwise sum and difference and the complex
    product [(ac - bd) + (ad + bc) i] of the rationals the operands
    denote. *)
Theorem rational_arithmetic_denotes w a b va vb :
  value_at Rat w a = Some va -> value_at Rat w b = Some vb ->
  reduced va -> reduced vb ->
  (exists v, returns Rat (dc_frac_add a b) w v /\ reduced v
             /\ df_to_Q (real v) == df_to_Q (real va) + df_to_Q (real vb)
             /\ df_to_Q (imag v) == df_to_Q (imag va) + df_to_Q (imag vb))
  /\ (exists v, returns Rat (dc_frac_sub a b) w v /\ reduced v
                /\ df_to_Q (real v) == df_to_Q (real va) - df_to_Q (real vb)
                /\ df_to_Q (imag v) == df_to_Q (imag va) - df_to_Q (imag vb))
  /\ (exists v, returns Rat (dc_frac_mul a b) w v /\ reduced v
                /\ df_to_Q (real v)
                   == df_to_Q (real va) * df_to_Q (real vb)
                      - df_to_Q (imag va) * df_to_Q (imag vb)
                /\ df_to_Q (imag v)
                   == df_to_Q (real va) * df_to_Q (imag vb)
                      + df_to_Q (imag va) * df_to_Q (real vb)).
Proof.
  intros Ha Hb [[Par _] [Pai _]] [[Pbr _] [Pbi _]].
  split; [|split].
  - eexists. split; [|split; [|split]].
    + eexists _, _. split; [apply dc_frac_add_eval; eassumption|].
      apply (alloc_value_new Rat).
    + split; cbn [real imag]; apply df_add_reduced; assumption.
    + cbn [real]. apply df_add_Q; assumption.
    + cbn [imag]. apply df_add_Q; assumption.
  - eexists. split; [|split; [|split]].
    + eexists _, _. split; [apply dc_frac_sub_eval; eassumption|].
      apply (alloc_value_new Rat).
    + split; cbn [real imag]; apply df_sub_reduced; assumption.
    + cbn [real]. apply df_sub_Q; assumption.
    + cbn [imag]. apply df_sub_Q; assumption.
  - eexists. split; [|split; [|split]].
    + eexists _, _. split; [apply dc_frac_mul_eval; eassumption|].
      apply (alloc_value_new Rat).
    + split; cbn [real imag value]; [apply df_sub_reduced | apply df_add_reduced]; den_pos.
    + cbn [real value]. rewrite df_sub_Q, !df_mul_Q by den_pos. reflexivity.
    + cbn [imag value]. rewrite df_add_Q, !df_mul_Q by den_pos. reflexivity.
Qed.

Lemma rational_arithmetic_denotes_witness :
  exists v, returns Rat (dc_frac_mul (Some 1%positive) (Some 2%positive)) sample_world v
            /\ df_to_Q (real v) == 17 # 24 /\ df_to_Q (imag v) == -1 # 4.
Proof.
  destruct (rational_arithmetic_denotes sample_world (Some 1%positive)
              (Some 2%positive) (Complex (Frac 1 2) (Frac 1 3))
              (Complex (Frac 3 4) (Frac (-1) 1)))
    as (_ & _ & v & Hret & _ & Hre & Him).
  - reflexivity.
  - reflexivity.
  - repeat split; reflexivity.
  - repeat split; reflexivity.
  - exists v. split; [exact Hret|]. split.
    + rewrite Hre. reflexivity.
    + rewrite Him. reflexivity.
Defined.

Lemma frac_product_denotes va vb :
  0 < denominator (real va) -> 0 < denominator (imag va) ->
  0 < denominator (real vb) -> 0 < denominator (imag vb) ->
  reduced (frac_product va vb)
  /\ df_to_Q (real (frac_product va vb))
     == df_to_Q (real va) * df_to_Q (real vb) - df_to_Q (imag va) * df_to_Q (imag vb)
  /\ df_to_Q (imag (frac_product va vb))
     == df_to_Q (real va) * df_to_Q (imag vb) + df_to_Q (imag va) * df_to_Q (real vb).
Proof.
  intros Par Pai Pbr Pbi. unfold frac_product. cbn [real imag]. split; [|split].
  - split; cbn [real imag]; [apply df_sub_reduced | apply df_add_reduced]; den_pos.
  - rewrite df_sub_Q, !df_mul_Q by den_pos. reflexivity.
  - rewrite df_add_Q, !df_mul_Q by den_pos. reflexivity.
Qed.

(** Multiplying a quotient by the divisor, and dividing a product by a
    factor, give back the other operand in its reduced form. *)
Lemma frac_quotient_times va vb :
  reduced va -> reduced vb -> frac_is_zero vb = false ->
  frac_product (frac_quotient va vb) vb = va.
Proof.
  intros Hra Hrb Hnz.
  pose proof Hra as [[Par _] [Pai _]]. pose proof Hrb as [[Pbr _] [Pbi _]].
  destruct (frac_quotient_denotes va vb Par Pai Pbr Pbi Hnz)
    as ([[Pqr _] [Pqi _]] & Hre & Him).
  destruct (frac_product_denotes (frac_quotient va vb) vb Pqr Pqi Pbr Pbi)
    as (Hred & Hpr & Hpi).
  pose proof (modulus_Q_nonzero _ _ Pbr Pbi Hnz) as Hm.
  apply reduced_unique; [exact Hred | exact Hra | |].
  - rewrite Hpr, Hre, Him. field. exact Hm.
  - rewrite Hpi, Hre, Him. field. exact Hm.
Qed.

Lemma frac_product_over va vb :
  reduced va -> reduced vb -> frac_is_zero vb = false ->
  frac_quotient (frac_product va vb) vb = va.
Proof.
  intros Hra Hrb Hnz.
  pose proof Hra as [[Par _] [Pai _]]. pose proof Hrb as [[Pbr _] [Pbi _]].
  destruct (frac_product_denotes va vb Par Pai Pbr Pbi)
    as ([[Ppr _] [Ppi _]] & Hpr & Hpi).
  destruct (frac_quotient_denotes (frac_product va vb) vb Ppr Ppi Pbr Pbi Hnz)
    as (Hred & Hre & Him).
  pose proof (modulus_Q_nonzero _ _ Pbr Pbi Hnz) as Hm.
  apply reduced_unique; [exact Hred | exact Hra | |].
  - rewrite Hre, Hpr, Hpi. field. exact Hm.
  - rewrite Him, Hpr, Hpi. field. exact Hm.
Qed.

(** X10: for live rational complex operands [a] and [b] in reduced form
    with [b] not zero, multiplying the quotient [a / b] by [b] and dividing
    the product [a * b] by [b] both return exactly the components of [a]:
    [dc_frac_div] and [dc_frac_mul] are inverse to each other, with no
    error and no change of representation. *)
Theorem rational_division_inverts_product w a b va vb :
  value_at Rat w a = Some va -> value_at Rat w b = Some vb ->
  reduced va -> reduced vb -> frac_is_zero vb = false ->
  returns Rat (q ← dc_frac_div a b; dc_frac_mul q b) w va
  /\ returns Rat (p ← dc_frac_mul a b; dc_frac_div p b) w va.
Proof.
  intros Ha Hb Hra Hrb Hnz.
  pose proof Hra as [[Par _] [Pai _]]. pose proof Hrb as [[Pbr _] [Pbi _]].
  split.
  - eexists _, _. split.
    + eapply bind_intro; [apply (dc_frac_div_eval w a b va vb); assumption|].
      cbv beta. eapply dc_frac_mul_eval; live_now.
    + rewrite (alloc_value_new Rat). cbn [value]. f_equal.
      apply (frac_quotient_times va vb); assumption.
  - destruct (frac_product_denotes va vb Par Pai Pbr Pbi) as ([[Ppr _] [Ppi _]] & _).
    eexists _, _. split.
    + eapply bind_intro; [apply (dc_frac_mul_eval w a b va vb); assumption|].
      cbv beta. eapply (dc_frac_div_eval _ _ _ (frac_product va vb) vb); try assumption;
        live_now.
    + rewrite (alloc_value_new Rat). cbn [value]. f_equal.
      apply (frac_product_over va vb); assumption.
Qed.

Lemma rational_division_inverts_product_witness :
  returns Rat (q ← dc_frac_div (Some 1%positive) (Some 2%positive);
               dc_frac_mul q (Some 2%positive))
          sample_world (Complex (Frac 1 2) (Frac 1 3)).
Proof.
  apply (rational_division_inverts_product sample_world (Some 1%positive)
           (Some 2%positive) (Complex (Frac 1 2) (Frac 1 3))
           (Complex (Frac 3 4) (Frac (-1) 1))).
  - reflexivity.
  - reflexivity.
  - repeat split; reflexivity.
  - repeat split; reflexivity.
  - reflexivity.
Defined.

(** The operand of [dc_frac_reciprocal], and every other live object, is
    still there afterwards: the release inside touches the temporary only. *)
Lemma dc_frac_reciprocal_keeps w c h w' q v :
  dc_frac_reciprocal c w = Ret h w' ->
  value_at Rat w q = Some v -> value_at Rat w' q = Some v.
Proof.
  intros H Hq. unfold dc_frac_reciprocal, dc_frac_is_zero in H. invert_run.
  repeat match goal with
         | H : dc_frac_from_df _ _ _ = Ret _ _ |- _ =>
             apply dc_frac_from_df_fresh in H; destruct H as (? & -> & ->)
         | H : dc_frac_div _ _ _ = Ret _ _ |- _ =>
             apply dc_frac_div_fresh in H; destruct H as (? & -> & ->)
         end.
  match goal with
  | R1 : dc_frac_release _ _ = Ret _ _ |- _ =>
      pose proof (on_release_inv Rat _ _ _ _ R1) as F1; clear R1
  end.
  destruct q as [q|]; [|discriminate Hq]. unfold value_at in *.
  destruct (objects (arena_of Rat w) !! q) as [o|] eqn:Ho; [|discriminate Hq].
  rewrite F1 by (apply (new_loc_ne Rat _ _ _ Ho)).
  rewrite (alloc_lookup_old Rat _ _ q o); [exact Hq|].
  apply alloc_lookup_old; [typeclasses eauto | exact Ho].
Qed.

(** X11: for a live rational complex [c] in reduced form and not zero, the
    product of [c] with [dc_frac_reciprocal c] is exactly [1 + 0i], and the
    operand is still live afterwards. *)
Theorem reciprocal_times_operand_is_one w c vc :
  value_at Rat w c = Some vc -> reduced vc -> frac_is_zero vc = false ->
  returns Rat (r ← dc_frac_reciprocal c; dc_frac_mul r c) w (Complex df_one df_zero).
Proof.
  intros Hc Hr Hnz. pose proof Hr as [[Pr _] [Pi _]].
  destruct (dc_frac_reciprocal_eval w c vc Hc Pr Pi Hnz) as (p & w' & Hrun & _ & Hp).
  pose proof (dc_frac_reciprocal_keeps _ _ _ _ _ _ Hrun Hc) as Hc'.
  eexists _, _. split.
  - eapply bind_intro; [exact Hrun|]. cbv beta.
    eapply dc_frac_mul_eval; [|exact Hc'].
    unfold value_at. change (arena_of Rat w') with (fracs w'). rewrite Hp. reflexivity.
  - rewrite (alloc_value_new Rat). cbn [value]. f_equal.
    apply (frac_quotient_times (Complex df_one df_zero) vc);
      [repeat split; reflexivity | exact Hr | exact Hnz].
Qed.

Lemma reciprocal_times_operand_is_one_witness :
  returns Rat (r ← dc_frac_reciprocal (Some 2%positive);
               dc_frac_mul r (Some 2%positive))
          sample_world (Complex df_one df_zero).
Proof.
  apply (reciprocal_times_operand_is_one sample_world (Some 2%positive)
           (Complex (Frac 3 4) (Frac (-1) 1))).
  - reflexivity.
  - repeat split; reflexivity.
  - reflexivity.
Defined.

Lemma promote_reduced v : reduced (promote v).
Proof. repeat split; cbn; apply Z.gcd_1_r. Qed.

(** Dividing a Gaussian product by one of its factors gives the other. *)
Lemma gaussian_quotient_of_product va vb :
  int_is_zero vb = false ->
  gaussian_quotient
    (Complex (real va * real vb - imag va * imag vb)
             (real va * imag vb + imag va * real vb)) vb
  = promote va.
Proof.
  intros Hnz. unfold gaussian_quotient.
  set (prod := Complex _ _).
  destruct (frac_quotient_denotes (promote prod) (promote vb))
    as (Hred & Hre & Him); try reflexivity; [exact Hnz|].
  assert (Hm : ~ inject_Z (real vb) * inject_Z (real vb)
                 + inject_Z (imag vb) * inject_Z (imag vb) == 0).
  { apply (modulus_Q_nonzero (real (promote vb)) (imag (promote vb)));
      [reflexivity | reflexivity | exact Hnz]. }
  apply reduced_unique; [exact Hred | apply promote_reduced | |].
  - rewrite Hre. unfold prod, promote. cbn [real imag].
    change (df_to_Q (Frac ?n 1)) with (inject_Z n).
    unfold Z.sub. rewrite !inject_Z_plus, ?inject_Z_opp, !inject_Z_mult.
    unfold di_int in *. field. exact Hm.
  - rewrite Him. unfold prod, promote. cbn [real imag].
    change (df_to_Q (Frac ?n 1)) with (inject_Z n).
    unfold Z.sub. rewrite !inject_Z_plus, ?inject_Z_opp, !inject_Z_mult.
    unfold di_int in *. field. exact Hm.
Qed.

(** X12: for live Gaussian operands [a] and [b] with [b] not zero, dividing
    the product [a * b] by [b] with [dc_int_div] returns the rational
    complex whose components are those of [a] over 1, and
    [dc_frac_is_gaussian_int] answers true on it: the division is exact and
    the oracle recognises it. *)
Theorem gaussian_division_is_exact w a b va vb :
  value_at Int w a = Some va -> value_at Int w b = Some vb ->
  int_is_zero vb = false ->
  exists q w',
    (p ← dc_int_mul a b; dc_int_div p b) w = Ret q w'
    /\ value_at Rat w' q = Some (promote va)
    /\ dc_frac_is_gaussian_int q w' = Ret true w'.
Proof.
  intros Ha Hb Hnz.
  set (prod := Complex (real va * real vb - imag va * imag vb)
                       (real va * imag vb + imag va * real vb)).
  set (w1 := alloc Int (Cell 1 prod) w).
  destruct (dc_int_div_eval w1 (Some (new_loc Int w)) b prod vb)
    as (p & w' & Hrun & _ & Hp).
  { apply (alloc_value_new Int). }
  { apply alloc_value_old; [typeclasses eauto | exact Hb]. }
  { exact Hnz. }
  assert (Hv : value_at Rat w' (Some p) = Some (promote va)).
  { unfold value_at. change (arena_of Rat w') with (fracs w'). rewrite Hp.
    cbn [fmap option_fmap option_map value]. f_equal.
    apply gaussian_quotient_of_product. exact Hnz. }
  exists (Some p), w'. split; [|split].
  - eapply bind_intro; [apply (dc_int_mul_eval w a b va vb); assumption|].
    exact Hrun.
  - exact Hv.
  - rewrite (dc_frac_is_gaussian_int_eval w' (Some p) (promote va) Hv). reflexivity.
Qed.

Lemma gaussian_division_is_exact_witness :
  exists q w',
    (p ← dc_int_mul (Some 1%positive) (Some 2%positive);
     dc_int_div p (Some 2%positive)) sample_world = Ret q w'
    /\ value_at Rat w' q = Some (Complex (Frac 3 1) (Frac 4 1)).
Proof.
  destruct (gaussian_division_is_exact sample_world (Some 1%positive)
              (Some 2%positive) (Complex 3 4) (Complex 1 (-2)))
    as (q & w' & Hrun & Hv & _).
  - reflexivity.
  - reflexivity.
  - reflexivity.
  - exists q, w'. split; [exact Hrun | exact Hv].
Defined.

(** ** Equality and queries *)

Lemma di_compare_eq a b : (di_compare a b =? 0) = (a =? b).
Proof.
  unfold di_compare. destruct (Z.compare_spec a b) as [->|H|H].
  - symmetry. apply Z.eqb_refl.
  - symmetry. apply Z.eqb_neq. lia.
  - symmetry. apply Z.eqb_neq. lia.
Qed.

(** X13: in every state, on live operands [dc_int_eq] answers true exactly
    when the two Gaussian integers have the same components, and on live
    operands in reduced form [dc_frac_eq] answers true exactly when the two
    values denote the same complex rational; neither changes the state.
    Each half holds of its own operands alone. *)
Theorem equality_is_exact w :
  (forall a b va vb,
      value_at Int w a = Some va -> value_at Int w b = Some vb ->
      exists r, dc_int_eq a b w = Ret r w /\ (r = true <-> va = vb))
  /\ (forall fa fb vfa vfb,
         value_at Rat w fa = Some vfa -> value_at Rat w fb = Some vfb ->
         reduced vfa -> reduced vfb ->
         exists r, dc_frac_eq fa fb w = Ret r w
                   /\ (r = true <-> df_to_Q (real vfa) == df_to_Q (real vfb)
                                    /\ df_to_Q (imag vfa) == df_to_Q (imag vfb))).
Proof.
  split.
  - intros a b va vb Ha Hb. eexists. split.
    + unfold dc_int_eq. eval_run.
    + rewrite !di_compare_eq, andb_true_iff, !Z.eqb_eq.
      destruct va as [r1 i1], vb as [r2 i2]. cbn [real imag].
      split; [intros [-> ->]|intros [= -> ->]]; auto.
  - intros fa fb vfa vfb Hfa Hfb Hra Hrb. eexists. split.
    + unfold dc_frac_eq. eval_run.
    + unfold df_eq. rewrite !andb_true_iff, !Z.eqb_eq. split.
      * intros [[E1 E2] [E3 E4]]. unfold df_to_Q. rewrite E1, E2, E3, E4.
        split; reflexivity.
      * intros [Er Ei]. destruct Hra as [Har Hai], Hrb as [Hbr Hbi].
        rewrite (df_reduced_unique _ _ Har Hbr Er), (df_reduced_unique _ _ Hai Hbi Ei).
        auto.
Qed.

Lemma equality_is_exact_witness :
  (exists r, dc_int_eq (Some 1%positive) (Some 2%positive) sample_world
             = Ret r sample_world
             /\ (r = true <-> Complex 3 4 = Complex 1 (-2)))
  /\ (exists r, dc_frac_eq (Some 1%positive) (Some 2%positive) sample_world
                = Ret r sample_world
                /\ (r = true <-> df_to_Q (Frac 1 2) == df_to_Q (Frac 3 4)
                                 /\ df_to_Q (Frac 1 3) == df_to_Q (Frac (-1) 1))).
Proof.
  destruct (equality_is_exact sample_world) as [Hi Hf]. split.
  - apply (Hi (Some 1%positive) (Some 2%positive) (Complex 3 4) (Complex 1 (-2)));
      reflexivity.
  - apply (Hf (Some 1%positive) (Some 2%positive)
              (Complex (Frac 1 2) (Frac 1 3)) (Complex (Frac 3 4) (Frac (-1) 1)));
      first [reflexivity | repeat split; reflexivity].
Defined.

(** X14: an exported operation that returns neither a complex handle nor
    the result of a release (the component accessors, the predicates, the
    equality tests, the norm and argument, the renderers) leaves the
    complex objects of all three types as they were whenever it returns:
    it changes no count and no singleton pointer, and creates and frees no
    complex object. *)
Theorem queries_leave_state {rt : runtime} (c : call) (w : world) r w' :
  returns_complex c = false -> is_release c = false ->
  exec c w = Ret r w' -> w' = w.
Proof.
  intros Hc Hr H.
  destruct c; cbn in Hc, Hr; try discriminate;
    cbn [exec] in H; unfold returning in H;
    apply bind_inv in H; destruct H as (x & w1 & H & Hret);
    apply ret_inv in Hret; destruct Hret as [_ ->];
    autounfold with dc_readonly in H; invert_run; reflexivity.
Qed.

Lemma queries_leave_state_witness :
  world_after (exec (rt := trivial_runtime) (call_dc_frac_to_string (Some 1%positive)))
              sample_world
  = sample_world.
Proof.
  apply (queries_leave_state (rt := trivial_runtime)
           (call_dc_frac_to_string (Some 1%positive)) sample_world
           (RString "1/2+1/3i")).
  - reflexivity.
  - reflexivity.
  - vm_compute. reflexivity.
Defined.

(** ** Reduced form is an invariant *)

Section ArenaAll.
Context {T : Type} (Q : T -> Prop).
Implicit Types (a : arena T) (p : loc) (o : cell T).

Lemma arena_all_insert a p c st :
  arena_all Q a -> Q (value c) -> arena_all Q (Arena (<[p := c]> (objects a)) st).
Proof.
  intros Ha Hc q o. cbn [objects]. destruct (decide (q = p)) as [->|Hne].
  - rewrite lookup_insert_eq. intros [= <-]. exact Hc.
  - rewrite lookup_insert_ne by congruence. apply Ha.
Qed.

Lemma arena_all_delete a p st :
  arena_all Q a -> arena_all Q (Arena (delete p (objects a)) st).
Proof.
  intros Ha q o. cbn [objects]. intros H. apply lookup_delete_Some in H.
  destruct H as [_ H]. exact (Ha q o H).
Qed.

Lemma arena_all_release a c x a' :
  release c a = Ret x a' -> arena_all Q a -> arena_all Q a'.
Proof.
  intros H Ha.
  destruct (release_inv _ _ _ _ H) as [->|(p & o & _ & Ho & [->|(-> & _)])].
  - exact Ha.
  - apply arena_all_insert; [exact Ha | exact (Ha p o Ho)].
  - apply arena_all_delete. exact Ha.
Qed.

Lemma arena_all_retain a c x a' msg :
  retain msg c a = Ret x a' -> arena_all Q a -> arena_all Q a'.
Proof.
  intros H Ha. destruct (retain_inv _ _ _ _ _ H) as (p & o & _ & _ & Ho & ->).
  apply arena_all_insert; [exact Ha | exact (Ha p o Ho)].
Qed.
End ArenaAll.

Lemma alloc_reduced w c v :
  fractions_reduced w -> reduced v -> fractions_reduced (alloc Rat (Cell c v) w).
Proof. intros Hw Hv. apply arena_all_insert; assumption. Qed.

Lemma value_at_reduced w a v :
  fractions_reduced w -> value_at Rat w a = Some v -> reduced v.
Proof.
  intros Hw H. destruct a as [p|]; [|discriminate H]. unfold value_at in H.
  destruct (objects (arena_of Rat w) !! p) as [o|] eqn:Ho; [|discriminate H].
  injection H as <-. exact (Hw p o Ho).
Qed.

(** The operands read so far are reduced. *)
Ltac reduced_values Hw :=
  repeat match goal with
         | H : value_at Rat _ _ = Some ?v |- _ =>
             apply (value_at_reduced _ _ _ Hw) in H;
             let H1 := fresh in let H2 := fresh in
             pose proof H as [[H1 _] [H2 _]]; destruct H
         end.

Ltac reduced_goal :=
  split; cbn [real imag df_retain];
  first [ assumption
        | apply df_add_reduced; den_pos
        | apply df_sub_reduced; den_pos
        | apply df_mul_reduced; den_pos
        | apply df_negate_reduced; assumption
        | apply df_quot_reduced; [den_pos | den_pos |];
          match goal with
          | H : negb (df_is_zero _) = true |- _ =>
              apply negb_true_iff, Z.eqb_neq in H; exact H
          end
        | apply df_normalize_reduced;
          first [ discriminate
                | match goal with
                  | H : negb (_ =? 0) = true |- _ =>
                      apply negb_true_iff, Z.eqb_neq in H; exact H
                  end ] ].

Lemma dc_frac_div_reduced w a b h w' :
  dc_frac_div a b w = Ret h w' -> fractions_reduced w -> fractions_reduced w'.
Proof.
  intros H Hw. autounfold with dc_unfold in H. invert_run. reduced_values Hw.
  apply alloc_reduced; [exact Hw|]. reduced_goal.
Qed.

Lemma dc_int_to_frac_reduced w c h w' :
  dc_int_to_frac c w = Ret h w' -> fractions_reduced w -> fractions_reduced w'.
Proof.
  intros H Hw. autounfold with dc_unfold in H. invert_run.
  apply alloc_reduced; [exact Hw|]. reduced_goal.
Qed.

Lemma dc_frac_release_reduced c w x w' :
  dc_frac_release c w = Ret x w' -> fractions_reduced w -> fractions_reduced w'.
Proof.
  intros H Hw. unfold dc_frac_release in H. apply on_inv in H.
  destruct H as (a' & H & ->). exact (arena_all_release _ _ _ _ _ H Hw).
Qed.

Lemma dc_int_div_reduced w a b h w' :
  dc_int_div a b w = Ret h w' -> fractions_reduced w -> fractions_reduced w'.
Proof.
  intros H Hw. unfold dc_int_div in H. invert_run.
  repeat match goal with
         | H : dc_int_to_frac _ ?u = Ret _ _, I : fractions_reduced ?u |- _ =>
             apply dc_int_to_frac_reduced in H; [|exact I]
         | H : dc_frac_div _ _ ?u = Ret _ _, I : fractions_reduced ?u |- _ =>
             apply dc_frac_div_reduced in H; [|exact I]
         | H : dc_frac_release _ ?u = Ret _ _, I : fractions_reduced ?u |- _ =>
             apply dc_frac_release_reduced in H; [|exact I]
         end.
  assumption.
Qed.

Lemma dc_frac_reciprocal_reduced w c h w' :
  dc_frac_reciprocal c w = Ret h w' -> fractions_reduced w -> fractions_reduced w'.
Proof.
  intros H Hw. unfold dc_frac_reciprocal, dc_frac_is_zero in H. invert_run.
  match goal with
  | H : dc_frac_from_df (Some df_one) (Some df_zero) _ = Ret _ _ |- _ =>
      rewrite dc_frac_from_df_eval in H; apply Ret_inj in H; destruct H as [<- <-]
  end.
  assert (Hw1 : fractions_reduced (alloc Rat (Cell 1 (Complex df_one df_zero)) w)).
  { apply alloc_reduced; [exact Hw | repeat split; reflexivity]. }
  repeat match goal with
         | H : dc_frac_div _ _ ?u = Ret _ _, I : fractions_reduced ?u |- _ =>
             apply dc_frac_div_reduced in H; [|exact I]
         | H : dc_frac_release _ ?u = Ret _ _, I : fractions_reduced ?u |- _ =>
             apply dc_frac_release_reduced in H; [|exact I]
         end.
  assumption.
Qed.

Lemma dc_frac_from_ints_reduced rn rd i_n id w h w' :
  dc_frac_from_ints rn rd i_n id w = Ret h w' ->
  fractions_reduced w -> fractions_reduced w'.
Proof.
  intros H Hw. autounfold with dc_unfold in H. invert_run.
  apply alloc_reduced; [exact Hw|]. reduced_goal.
Qed.

Lemma frac_accessor_reduced w s rn i_n h w' :
  singleton_accessor Rat s (dc_frac_from_ints rn 1 i_n 1) dc_frac_retain w = Ret h w' ->
  fractions_reduced w -> fractions_reduced w'.
Proof.
  intros H Hw. unfold dc_frac_retain in H.
  destruct (singleton_accessor_inv Rat _ _ _ _ _ _
              (fun u => creates_frac rn 1 i_n 1 u ltac:(discriminate) ltac:(discriminate))
              H)
    as [(p & o & _ & Ho & _ & ->)|(v & Hv & _ & _ & ->)].
  - apply arena_all_insert; [exact Hw | exact (Hw p o Ho)].
  - apply arena_all_insert; [exact Hw|]. cbn [value].
    apply (dc_frac_from_ints_reduced _ _ _ _ _ _ _ Hv) in Hw.
    exact (Hw _ _ (alloc_lookup_new Rat _ w)).
Qed.

Lemma exec_keeps_fractions_reduced {rt : runtime} (c : call) (w : world) r w' :
  (forall x m, 0 < m -> df_reduced (df_from_double x m)) ->
  reduced_operands c -> fractions_reduced w ->
  exec c w = Ret r w' -> fractions_reduced w'.
Proof.
  intros Hrt Hops Hw H.
  destruct c; cbn [exec] in H; unfold returning in H;
    apply bind_inv in H; destruct H as (x & w1 & H & Hret);
    apply ret_inv in Hret; destruct Hret as [_ ->].
  all: try (apply dc_int_div_reduced in H; [exact H | exact Hw]).
  all: try (apply dc_frac_reciprocal_reduced in H; [exact H | exact Hw]).
  all: try (apply dc_frac_div_reduced in H; [exact H | exact Hw]).
  all: try (apply dc_frac_release_reduced in H; [exact H | exact Hw]).
  all: try (unfold_accessors; apply frac_accessor_reduced in H; [exact H | exact Hw]).
  all: try (unfold dc_frac_retain in H; apply on_inv in H; destruct H as (a' & H & ->);
            exact (arena_all_retain _ _ _ _ _ _ H Hw)).
  all: try (unfold dc_int_release, dc_double_release, dc_int_retain, dc_double_retain in H;
            apply on_inv in H; destruct H as (a' & H & ->); exact Hw).
  all: try (unfold_accessors;
            unfold dc_int_retain, dc_double_retain in H;
            first [ pose proof (singleton_accessor_inv Int _ _ _ _ _ _
                                  (creates_int _ _) H) as Hx
                  | pose proof (singleton_accessor_inv Dbl _ _ _ _ _ _
                                  (creates_double _ _) H) as Hx ];
            destruct Hx as [(p & o & _ & _ & _ & ->)|(v & _ & _ & _ & ->)];
            exact Hw).
  all: autounfold with dc_unfold dc_readonly in H; invert_run; reduced_values Hw;
    first [ exact Hw | apply alloc_reduced; [exact Hw|] ].
  all: try reduced_goal.
  - destruct Hops. split; assumption.
  - match goal with
    | H : (0 <? _) = true |- _ => apply Z.ltb_lt in H
    end.
    split; cbn [real imag df_retain]; apply Hrt; assumption.
Qed.

(** X15: reduced form is an invariant of the library.  From a state where
    every live rational complex value is in reduced form, every client
    program (sequence of the 91 exported operations) that runs to
    completion ends in such a state, provided the fractions it hands to
    [dc_frac_from_df] are reduced and the engine's conversion from double
    yields reduced fractions.  So the reduced-form precondition of the
    division, reciprocal, equality and oracle properties holds of every
    rational complex value the library itself has built. *)
Theorem fractions_stay_reduced {rt : runtime} (cs : list call) (w : world) rs w' :
  (forall x m, 0 < m -> df_reduced (df_from_double x m)) ->
  Forall reduced_operands cs -> fractions_reduced w ->
  run_calls cs w = Ret rs w' -> fractions_reduced w'.
Proof.
  intros Hrt. revert w rs. induction cs as [|c cs IH]; intros w rs Hops Hw H.
  - injection H as _ <-. exact Hw.
  - cbn [run_calls] in H. invert_run.
    apply Forall_cons_1 in Hops. destruct Hops as [Hc Hcs].
    eapply IH; [exact Hcs| |eassumption].
    eapply exec_keeps_fractions_reduced; eassumption.
Qed.

Lemma fractions_stay_reduced_witness :
  fractions_reduced
    (world_after (run_calls (rt := trivial_runtime)
                    [call_dc_frac_from_ints 2 (-4) 0 1;
                     call_dc_frac_reciprocal (Some 1%positive)])
                 initial_world).
Proof.
  apply (fractions_stay_reduced (rt := trivial_runtime)
           [call_dc_frac_from_ints 2 (-4) 0 1;
            call_dc_frac_reciprocal (Some 1%positive)]
           initial_world
           [RFrac (Some 1%positive); RFrac (Some 3%positive)]).
  - intros x m _. split; reflexivity.
  - repeat constructor.
  - intros p o Hp. unfold initial_world, empty_arena in Hp.
    cbn [fracs objects] in Hp. rewrite lookup_empty in Hp. discriminate Hp.
  - vm_compute. reflexivity.
Defined.

(** ** Division by zero *)

Lemma bind_fail {S A B} (m : M S A) (f : A -> M S B) s msg :
  m s = AssertFail msg -> bind m f s = AssertFail msg.
Proof. intros H. unfold bind. rewrite H. reflexivity. Qed.

(** X16: the exact types stop at an assertion on a zero divisor, in every
    state and each function on its own operands.  With live operands and a
    zero divisor, [dc_int_div], which has no zero test of its own, fails
    inside [dc_frac_div] with that function's message, after both
    promotions; [dc_frac_div] fails with its "division by zero" message;
    and [dc_frac_reciprocal] of a live zero fails with its own. *)
Theorem exact_division_by_zero_asserts w :
  (forall a b va vb,
      value_at Int w a = Some va -> value_at Int w b = Some vb ->
      int_is_zero vb = true ->
      dc_int_div a b w = AssertFail "dc_frac_div: division by zero")
  /\ (forall fa fb vfa vfb,
         value_at Rat w fa = Some vfa -> value_at Rat w fb = Some vfb ->
         frac_is_zero vfb = true ->
         dc_frac_div fa fb w = AssertFail "dc_frac_div: division by zero")
  /\ (forall fb vfb,
         value_at Rat w fb = Some vfb -> frac_is_zero vfb = true ->
         dc_frac_reciprocal fb w
         = AssertFail "dc_frac_reciprocal: division by zero").
Proof.
  split; [|split].
  - intros a b va vb Ha Hb Hz.
    unfold dc_int_div. eval_step. eval_step.
    eapply bind_intro; [apply dc_int_to_frac_eval; exact Ha|].
    eapply bind_intro; [apply dc_int_to_frac_eval; live_now|].
    apply bind_fail.
    eapply (dc_frac_div_by_zero _ _ _ (promote va) (promote vb)); [live_now..|].
    exact Hz.
  - intros fa fb vfa vfb Hfa Hfb Hfz.
    apply (dc_frac_div_by_zero w fa fb vfa vfb); assumption.
  - intros fb vfb Hfb Hfz.
    unfold dc_frac_reciprocal. eval_step.
    eapply bind_intro; [apply dc_frac_is_zero_eval; exact Hfb|].
    unfold frac_is_zero in Hfz. rewrite Hfz. reflexivity.
Qed.

Lemma exact_division_by_zero_asserts_witness :
  dc_int_div (Some 1%positive) (Some 3%positive) zeros_world
  = AssertFail "dc_frac_div: division by zero"
  /\ dc_frac_div (Some 1%positive) (Some 3%positive) zeros_world
     = AssertFail "dc_frac_div: division by zero"
  /\ dc_frac_reciprocal (Some 3%positive) zeros_world
     = AssertFail "dc_frac_reciprocal: division by zero".
Proof.
  destruct (exact_division_by_zero_asserts zeros_world) as (Hi & Hf & Hr).
  split; [|split].
  - apply (Hi (Some 1%positive) (Some 3%positive) (Complex 3 4) (Complex 0 0));
      reflexivity.
  - apply (Hf (Some 1%positive) (Some 3%positive)
              (Complex (Frac 1 2) (Frac 1 3)) (Complex (Frac 0 1) (Frac 0 1)));
      reflexivity.
  - apply (Hr (Some 3%positive) (Complex (Frac 0 1) (Frac 0 1))); reflexivity.
Defined.

(** ** Double complex values: zero tests, equality, rendering *)

Lemma double_eqb_zero x : double_eqb x double_zero = is_signed_zero x.
Proof. destruct x as [s|s| |s m e]; try destruct s; reflexivity. Qed.

(** X17: the zero tests of [dc_double_div] and [dc_double_log] are the
    floating comparison with [0.0].  On live operands they stop at the
    "division by zero" and "log of zero" assertions exactly when both
    components of the divisor or argument are zeros of either sign;
    otherwise, so also when a component is NaN, they return a fresh object
    holding the C library's quotient or logarithm. *)
Theorem double_zero_test_is_signless {rt : runtime} w a c va vc :
  value_at Dbl w a = Some va -> value_at Dbl w c = Some vc ->
  if is_signed_zero (real vc) && is_signed_zero (imag vc)
  then dc_double_div a c w = AssertFail "dc_double_div: division by zero"
       /\ dc_double_log c w = AssertFail "dc_double_log: log of zero"
  else dc_double_div a c w
       = Ret (Some (new_loc Dbl w)) (alloc Dbl (Cell 1 (cdiv va vc)) w)
       /\ dc_double_log c w
          = Ret (Some (new_loc Dbl w)) (alloc Dbl (Cell 1 (clog vc)) w).
Proof.
  intros Ha Hc.
  assert (Hz : dc_double_is_zero c w
               = Ret (is_signed_zero (real vc) && is_signed_zero (imag vc)) w).
  { unfold dc_double_is_zero. eval_step. eval_step.
    unfold creal, cimag. rewrite !double_eqb_zero. reflexivity. }
  destruct (is_signed_zero (real vc) && is_signed_zero (imag vc)); split.
  - unfold dc_double_div. eval_step. eval_step.
    eapply bind_intro; [exact Hz|]. reflexivity.
  - unfold dc_double_log. eval_step.
    eapply bind_intro; [exact Hz|]. reflexivity.
  - unfold dc_double_div. eval_step. eval_step.
    eapply bind_intro; [exact Hz|]. eval_run.
  - unfold dc_double_log. eval_step.
    eapply bind_intro; [exact Hz|]. eval_run.
Qed.

Lemma double_zero_test_is_signless_witness :
  dc_double_div (rt := trivial_runtime) (Some 1%positive) (Some 2%positive)
    (world_after (dc_double_from_doubles double_zero (double_neg double_zero))
                 sample_world)
  = AssertFail "dc_double_div: division by zero".
Proof.
  pose proof (double_zero_test_is_signless (rt := trivial_runtime)
                (world_after (dc_double_from_doubles double_zero (double_neg double_zero))
                             sample_world)
                (Some 1%positive) (Some 2%positive)
                (Complex double_one double_zero)
                (Complex double_zero (double_neg double_zero))
                eq_refl eq_refl) as H.
  exact (proj1 H).
Defined.

Lemma double_eqb_refl x : double_eqb x x = negb (isnan x).
Proof.
  destruct x as [s|s| |s m e]; try (destruct s; reflexivity); [reflexivity|].
  unfold double_eqb, SFeqb, SFcompare.
  rewrite Z.compare_refl, Pos.compare_cont_refl. destruct s; reflexivity.
Qed.

(** X18: [dc_double_eq] of a live value with itself answers true exactly
    when [dc_double_is_nan] answers false on it: a double complex value
    with a NaN component is not equal to itself, every other value is. *)
Theorem double_equality_is_reflexive_off_nan w c v :
  value_at Dbl w c = Some v ->
  exists n,
    dc_double_is_nan c w = Ret n w
    /\ dc_double_eq c c w = Ret (negb n) w
    /\ (n = true <-> real v = S754_nan \/ imag v = S754_nan).
Proof.
  intros Hc. exists (isnan (real v) || isnan (imag v)). split; [|split].
  - unfold dc_double_is_nan. eval_run.
  - unfold dc_double_eq. eval_step. eval_step. eval_step. eval_step.
    unfold ret, creal, cimag. rewrite !double_eqb_refl, negb_orb. reflexivity.
  - rewrite orb_true_iff. unfold isnan.
    destruct (real v), (imag v); intuition congruence.
Qed.

Lemma double_equality_is_reflexive_off_nan_witness :
  dc_double_eq (Some 2%positive) (Some 2%positive)
    (world_after (dc_double_from_doubles S754_nan double_zero) sample_world)
  = Ret false
      (world_after (dc_double_from_doubles S754_nan double_zero) sample_world).
Proof.
  destruct (double_equality_is_reflexive_off_nan
              (world_after (dc_double_from_doubles S754_nan double_zero) sample_world)
              (Some 2%positive) (Complex S754_nan double_zero) eq_refl)
    as (n & Hn & He & _).
  rewrite He. f_equal. apply Ret_inj in Hn. destruct Hn as [<- _]. reflexivity.
Defined.

(** X19: [dc_double_to_string] follows the shared formatting table too: for
    a live double complex value the text is the table applied to the [%g]
    texts of the components and to the floating comparisons of the
    components with 0, 1 and -1; the state is unchanged. *)
Theorem double_to_string_follows_table {rt : runtime} w c v :
  value_at Dbl w c = Some v ->
  dc_double_to_string c w
  = Ret (format_table (format_g (real v)) (format_g (imag v))
           (double_eqb (real v) double_zero) (double_eqb (imag v) double_zero)
           (double_eqb (imag v) double_one)
           (double_eqb (imag v) (double_neg double_one))
           (double_ltb (imag v) double_zero)) w.
Proof.
  intros Hc. unfold dc_double_to_string. eval_step. eval_step.
  unfold ret, creal, cimag, format_table. f_equal.
  destruct (double_eqb (real v) double_zero), (double_eqb (imag v) double_zero),
    (double_eqb (imag v) double_one), (double_eqb (imag v) (double_neg double_one)),
    (double_ltb (imag v) double_zero); reflexivity.
Qed.

Lemma double_to_string_follows_table_witness :
  dc_double_to_string (rt := trivial_runtime) (Some 1%positive) sample_world
  = Ret ""%string sample_world.
Proof.
  rewrite (double_to_string_follows_table (rt := trivial_runtime) sample_world
             (Some 1%positive) (Complex double_one double_zero) eq_refl).
  reflexivity.
Defined.

Lemma double_agree_refl x : double_agree x x.
Proof. split; [reflexivity | intros _; reflexivity]. Qed.

Lemma complex_agree_refl v : complex_agree v v.
Proof. split; apply double_agree_refl. Qed.

(** X20: in every state and for each type on its own operands,
    conjugating twice and negating twice give back the operand.  For a
    live rational complex value (reduced or not) the components returned
    are those of the operand.  For a live double complex value each
    component returned is NaN exactly when the operand's is, and otherwise
    is the operand's component itself, sign of zero included. *)
Theorem conjugation_and_negation_are_involutions w :
  (forall cf vf,
      value_at Rat w cf = Some vf ->
      returns Rat (x ← dc_frac_conj cf; dc_frac_conj x) w vf
      /\ returns Rat (x ← dc_frac_negate cf; dc_frac_negate x) w vf)
  /\ (forall cd vd,
         value_at Dbl w cd = Some vd ->
         (exists v, returns Dbl (x ← dc_double_conj cd; dc_double_conj x) w v
                    /\ complex_agree v vd)
         /\ (exists v, returns Dbl (x ← dc_double_negate cd; dc_double_negate x) w v
                       /\ complex_agree v vd)).
Proof.
  assert (Nf : forall a, df_negate (df_negate a) = a).
  { intros [n d]. unfold df_negate. cbn. rewrite Z.opp_involutive. reflexivity. }
  assert (Nd : forall x, double_neg (double_neg x) = x).
  { intros [s|s| |s m e]; cbn; rewrite ?negb_involutive; reflexivity. }
  split.
  - intros cf vf Hf. split.
    + eexists _, _. split.
      * eapply bind_intro; [apply dc_frac_conj_eval; exact Hf|].
        cbv beta. eapply dc_frac_conj_eval; live_now.
      * rewrite (alloc_value_new Rat). cbn [value real imag]. rewrite Nf.
        destruct vf; reflexivity.
    + eexists _, _. split.
      * eapply bind_intro; [apply dc_frac_negate_eval; exact Hf|].
        cbv beta. eapply dc_frac_negate_eval; live_now.
      * rewrite (alloc_value_new Rat). cbn [value real imag]. rewrite !Nf.
        destruct vf; reflexivity.
  - intros cd vd Hd. split.
    + exists vd. split; [|apply complex_agree_refl].
      eexists _, _. split.
      * unfold dc_double_conj.
        eapply bind_intro; [eval_run|]. cbv beta. eval_step.
        eapply bind_intro; [apply (fields_intro Dbl), (alloc_value_new Dbl)|].
        eval_run.
      * rewrite (alloc_value_new Dbl). unfold conj. cbn [value real imag]. rewrite Nd.
        destruct vd; reflexivity.
    + exists vd. split; [|apply complex_agree_refl].
      eexists _, _. split.
      * unfold dc_double_negate.
        eapply bind_intro; [eval_run|]. cbv beta. eval_step.
        eapply bind_intro; [apply (fields_intro Dbl), (alloc_value_new Dbl)|].
        eval_run.
      * rewrite (alloc_value_new Dbl). unfold cneg. cbn [value real imag]. rewrite !Nd.
        destruct vd; reflexivity.
Qed.

Lemma conjugation_and_negation_are_involutions_witness :
  (returns Rat (x ← dc_frac_conj (Some 1%positive); dc_frac_conj x) sample_world
           (Complex (Frac 1 2) (Frac 1 3))
   /\ returns Rat (x ← dc_frac_negate (Some 1%positive); dc_frac_negate x)
               sample_world (Complex (Frac 1 2) (Frac 1 3)))
  /\ ((exists v, returns Dbl (x ← dc_double_conj (Some 1%positive); dc_double_conj x)
                         sample_world v
                 /\ complex_agree v (Complex double_one double_zero))
      /\ (exists v, returns Dbl (x ← dc_double_negate (Some 1%positive);
                                 dc_double_negate x) sample_world v
                    /\ complex_agree v (Complex double_one double_zero))).
Proof.
  destruct (conjugation_and_negation_are_involutions sample_world) as [Hf Hd].
  split.
  - apply (Hf (Some 1%positive) (Complex (Frac 1 2) (Frac 1 3))). reflexivity.
  - apply (Hd (Some 1%positive) (Complex double_one double_zero)). reflexivity.
Defined.

(** ** Copies *)

(** X21: in every state and for each of the two exact types on its own
    operand, a copy is an object of its own with the same components and
    count 1: after the last reference to the original is released and the
    original is deallocated, the copy is still live and unchanged. *)
Theorem copy_outlives_original w :
  (forall p v,
      object_at TInt w p = Some (1, IntValue v) ->
      held_by_singleton TInt w p = false ->
      exists p' w',
        (c ← dc_int_copy (Some p); dc_int_release (Some (Some p));; ret c) w
        = Ret (Some p') w'
        /\ object_at TInt w' p' = Some (1, IntValue v)
        /\ object_at TInt w' p = None)
  /\ (forall q u,
         object_at TFrac w q = Some (1, FracValue u) ->
         held_by_singleton TFrac w q = false ->
         exists q' w',
           (c ← dc_frac_copy (Some q); dc_frac_release (Some (Some q));; ret c) w
           = Ret (Some q') w'
           /\ object_at TFrac w' q' = Some (1, FracValue u)
           /\ object_at TFrac w' q = None).
Proof.
  split.
  - intros p v Hp Sp. cbn [object_at] in Hp.
    destruct (objects (ints w) !! p) as [[c1 v1]|] eqn:Ep; [|discriminate Hp].
    cbn in Hp. injection Hp as -> ->.
    assert (Hv : value_at Int w (Some p) = Some v).
    { unfold value_at. change (arena_of Int w) with (ints w). rewrite Ep. reflexivity. }
    pose proof (new_loc_ne Int w p _ Ep) as Hne.
    eexists _, _. split; [|split].
    + eapply bind_intro; [apply dc_int_copy_eval; exact Hv|]. cbv beta.
      eapply bind_intro; [|reflexivity].
      apply (on_release_temp Int _ p v).
      * apply alloc_lookup_old; [typeclasses eauto | exact Ep].
      * apply not_held. exact Sp.
    + cbn [object_at ints with_arena Int objects]. rewrite lookup_delete_ne by congruence.
      rewrite (alloc_lookup_new Int). destruct v; reflexivity.
    + cbn [object_at ints with_arena Int objects]. rewrite lookup_delete_eq. reflexivity.
  - intros q u Hq Sq. cbn [object_at] in Hq.
    destruct (objects (fracs w) !! q) as [[c2 u2]|] eqn:Eq; [|discriminate Hq].
    cbn in Hq. injection Hq as -> ->.
    assert (Hv : value_at Rat w (Some q) = Some u).
    { unfold value_at. change (arena_of Rat w) with (fracs w). rewrite Eq. reflexivity. }
    pose proof (new_loc_ne Rat w q _ Eq) as Hne.
    eexists _, _. split; [|split].
    + eapply bind_intro; [apply dc_frac_copy_eval; exact Hv|]. cbv beta.
      eapply bind_intro; [|reflexivity].
      apply (on_release_temp Rat _ q u).
      * apply alloc_lookup_old; [typeclasses eauto | exact Eq].
      * apply not_held. exact Sq.
    + cbn [object_at fracs with_arena Rat objects]. rewrite lookup_delete_ne by congruence.
      rewrite (alloc_lookup_new Rat). destruct u; reflexivity.
    + cbn [object_at fracs with_arena Rat objects]. rewrite lookup_delete_eq. reflexivity.
Qed.

Lemma copy_outlives_original_witness :
  (exists p' w',
    (c ← dc_int_copy (Some 1%positive); dc_int_release (Some (Some 1%positive));; ret c)
      sample_world
    = Ret (Some p') w'
    /\ object_at TInt w' p' = Some (1, IntValue (Complex 3 4))
    /\ object_at TInt w' 1%positive = None)
  /\ (exists q' w',
         (c ← dc_frac_copy (Some 1%positive);
          dc_frac_release (Some (Some 1%positive));; ret c) sample_world
         = Ret (Some q') w'
         /\ object_at TFrac w' q' = Some (1, FracValue (Complex (Frac 1 2) (Frac 1 3)))
         /\ object_at TFrac w' 1%positive = None).
Proof.
  destruct (copy_outlives_original sample_world) as [Hi Hf]. split.
  - apply (Hi 1%positive (Complex 3 4)); reflexivity.
  - apply (Hf 1%positive (Complex (Frac 1 2) (Frac 1 3))); reflexivity.
Defined.

(** ** Gaussian integers through double *)

Lemma mul_by_one_canonical s m e :
  Z.pos (digits2_pos m) = 53 -> -1074 <= e <= 971 ->
  SFmul 53 1024 (S754_finite s m e) (S754_finite false 4503599627370496 (-52))
  = S754_finite s m e.
Proof.
  intros Hd He. unfold SFmul. rewrite xorb_false_r.
  replace (m * 4503599627370496)%positive with (Pos.iter xO m 52)
    by (apply Pos2Z.inj; rewrite iter_xO_value, Pos2Z.inj_mul; reflexivity).
  unfold binary_round_aux, shr_fexp, fexp, emin.
  change (Zdigits2 (Z.pos (Pos.iter xO m 52)))
    with (Z.pos (digits2_pos (Pos.iter xO m 52))).
  rewrite iter_xO_digits, Pos2Z.inj_add, Hd.
  replace (Z.max (53 + 52 + (e + -52) - 53) (3 - 1024 - 53) - (e + -52)) with 52 by lia.
  cbn [shr shr_record_of_loc].
  match goal with
  | |- context [SpecFloat.iter_pos shr_1 52 ?r] =>
      let v := eval vm_compute in (SpecFloat.iter_pos shr_1 52 r) in
      change (SpecFloat.iter_pos shr_1 52 r) with v
  end.
  cbn [shr_m shr_r shr_s loc_of_shr_record round_nearest_even shr_record_of_loc].
  change (Zdigits2 (Z.pos m)) with (Z.pos (digits2_pos m)). rewrite Hd.
  replace (Z.max (53 + (e + -52 + 52) - 53) (3 - 1024 - 53) - (e + -52 + 52))
    with 0 by lia.
  cbn [shr shr_m].
  replace (e + -52 + 52 <=? 1024 - 53) with true by (symmetry; apply Z.leb_le; lia).
  replace (e + -52 + 52) with e by lia. reflexivity.
Qed.

(** The double of an integer of magnitude at most [2^53]: zero, or finite
    with a 53-digit mantissa. *)
Lemma double_of_Z_shape n :
  Z.abs n <= 2 ^ 53 ->
  double_of_Z n = S754_zero false
  \/ exists s m e, double_of_Z n = S754_finite s m e
                   /\ Z.pos (digits2_pos m) = 53 /\ -52 <= e <= 1.
Proof.
  intros Hn.
  destruct (Z.eq_dec (Z.abs n) (2 ^ 53)) as [E|E].
  - right. assert (n = 2 ^ 53 \/ n = - 2 ^ 53) as [-> | ->] by lia;
      eexists _, _, _; (split; [vm_compute; reflexivity|]); (split; [reflexivity|lia]).
  - destruct n as [|k|k].
    + left. reflexivity.
    + right. assert (Hd : Z.pos (digits2_pos k) <= 53) by (apply digits2_pos_bound; lia).
      destruct (exact_double_mantissa k Hd) as [_ Hdig].
      eexists _, _, _. split; [apply (binary_round_exact false k Hd)|].
      split; [exact Hdig | lia].
    + right. assert (Hd : Z.pos (digits2_pos k) <= 53) by (apply digits2_pos_bound; lia).
      destruct (exact_double_mantissa k Hd) as [_ Hdig].
      eexists _, _, _. split; [apply (binary_round_exact true k Hd)|].
      split; [exact Hdig | lia].
Qed.

Lemma double_of_Z_times_one n :
  Z.abs n <= 2 ^ 53 -> double_mul (double_of_Z n) double_one = double_of_Z n.
Proof.
  intros Hn. destruct (double_of_Z_shape n Hn) as [->|(s & m & e & -> & Hd & He)].
  - reflexivity.
  - change double_one with (S754_finite false 4503599627370496 (-52)).
    apply mul_by_one_canonical; [exact Hd | lia].
Qed.

Lemma double_of_Z_plus_zero n m :
  Z.abs n <= 2 ^ 53 -> Z.abs m <= 2 ^ 53 ->
  double_add (double_of_Z n) (double_mul (double_of_Z m) double_zero) = double_of_Z n.
Proof.
  intros Hn Hm.
  assert (Hz : exists s, double_mul (double_of_Z m) double_zero = S754_zero s).
  { destruct (double_of_Z_shape m Hm) as [->|(s & mm & e & -> & _)]; eexists; reflexivity. }
  destruct Hz as [sz ->].
  destruct (double_of_Z_shape n Hn) as [->|(s & mm & e & -> & _)].
  - destruct sz; reflexivity.
  - reflexivity.
Qed.

Lemma double_of_Z_div_one n :
  Z.abs n <= 2 ^ 53 -> double_div (double_of_Z n) (double_of_Z 1) = double_of_Z n.
Proof.
  intros Hn.
  destruct (Z.eq_dec (Z.abs n) (2 ^ 53)) as [E|E].
  - assert (n = 2 ^ 53 \/ n = - 2 ^ 53) as [-> | ->] by lia; vm_compute; reflexivity.
  - destruct n as [|k|k].
    + vm_compute. reflexivity.
    + assert (Hd : Z.pos (digits2_pos k) <= 53) by (apply digits2_pos_bound; lia).
      unfold double_of_Z at 1 3, prec, emax. cbn [binary_normalize].
      rewrite (binary_round_exact false k Hd). apply exact_double_div_one. exact Hd.
    + assert (Hd : Z.pos (digits2_pos k) <= 53) by (apply digits2_pos_bound; lia).
      unfold double_of_Z at 1 3, prec, emax. cbn [binary_normalize].
      rewrite (binary_round_exact true k Hd). apply exact_double_div_one. exact Hd.
Qed.

Lemma rounded_of_Z n :
  Z.abs n <= 2 ^ 53 -> double_to_int64 (round (double_of_Z n)) = Some n.
Proof.
  intros Hn. rewrite <- (double_of_Z_div_one n Hn). exact (rounded_exact n Hn).
Qed.

(** X22: for a live Gaussian integer whose components have magnitude at
    most [2^53], [dc_int_to_double] stores exactly the doubles of the two
    components, and [dc_double_to_int] applied to the result returns the
    Gaussian integer again: Gaussian -> double -> Gaussian is the identity
    on that range. *)
Theorem gaussian_double_round_trip w g v :
  value_at Int w g = Some v ->
  Z.abs (real v) <= 2 ^ 53 -> Z.abs (imag v) <= 2 ^ 53 ->
  returns Dbl (dc_int_to_double g) w
          (Complex (double_of_Z (real v)) (double_of_Z (imag v)))
  /\ returns Int (d ← dc_int_to_double g; dc_double_to_int d) w v.
Proof.
  intros Hg Hre Him.
  assert (Hrun : dc_int_to_double g w
                 = Ret (Some (new_loc Dbl w))
                       (alloc Dbl (Cell 1 (Complex (double_of_Z (real v))
                                                   (double_of_Z (imag v)))) w)).
  { unfold dc_int_to_double. eval_step. eval_step.
    unfold dc_double_from_doubles, cscale, I, di_to_double. cbn [real imag].
    rewrite (double_of_Z_plus_zero _ _ Hre Him), (double_of_Z_times_one _ Him).
    reflexivity. }
  split.
  - eexists _, _. split; [exact Hrun | apply (alloc_value_new Dbl)].
  - eexists _, _. split.
    + eapply bind_intro; [exact Hrun|]. cbv beta.
      unfold dc_double_to_int. eval_step.
      eapply bind_intro; [apply (fields_intro Dbl), (alloc_value_new Dbl)|].
      cbv beta zeta. cbn [value creal cimag real imag].
      unfold rounded, creal, cimag. cbn [real imag].
      rewrite (rounded_of_Z _ Hre), (rounded_of_Z _ Him).
      eapply bind_intro; [reflexivity|]. eapply bind_intro; [reflexivity|].
      unfold dc_int_from_ints. eval_run.
    + rewrite (alloc_value_new Int). destruct v; reflexivity.
Qed.

Lemma gaussian_double_round_trip_witness :
  returns Int (d ← dc_int_to_double (Some 2%positive); dc_double_to_int d)
          sample_world (Complex 1 (-2)).
Proof.
  apply (gaussian_double_round_trip sample_world (Some 2%positive) (Complex 1 (-2))).
  - reflexivity.
  - vm_compute. discriminate.
  - vm_compute. discriminate.
Defined.

(** ** Rational ring laws and the promotion of Gaussian integers *)

Ltac eval_frac_op :=
  first [ eapply dc_frac_add_eval | eapply dc_frac_sub_eval | eapply dc_frac_mul_eval
        | eapply dc_frac_negate_eval | eapply dc_frac_conj_eval
        | eapply dc_frac_copy_eval | eapply dc_int_to_frac_eval
        | eapply dc_int_add_eval | eapply dc_int_sub_eval | eapply dc_int_mul_eval ];
  live_now.

Ltac run_frac :=
  eexists _, _; split;
  [ repeat (eapply bind_intro; [ eval_frac_op | cbv beta ]); eval_frac_op
  | rewrite (alloc_value_new Rat); cbn [value]; f_equal ].

(** Two values built from reduced operands by the engine's sum, difference
    and product are equal when they denote the same rationals. *)
Ltac same_rational :=
  apply reduced_unique;
  [ split; cbn [real imag];
    first [ apply df_add_reduced | apply df_sub_reduced | apply df_mul_reduced ]; den_pos
  | split; cbn [real imag];
    first [ apply df_add_reduced | apply df_sub_reduced | apply df_mul_reduced
          | split; [reflexivity | apply Z.gcd_1_r] ]; den_pos
  | cbn [real imag promote];
    repeat first [ rewrite df_add_Q by den_pos | rewrite df_sub_Q by den_pos
                 | rewrite df_mul_Q by den_pos ]
  | cbn [real imag promote];
    repeat first [ rewrite df_add_Q by den_pos | rewrite df_sub_Q by den_pos
                 | rewrite df_mul_Q by den_pos ] ].

(** X23: on live rational complex operands in reduced form the product is
    commutative and distributes over the sum, and the difference of a value
    with itself is [0/1 + 0/1 i]: the two sides of each law return the same
    reduced components, not merely equal rationals. *)
Theorem rational_ring_laws w a b c va vb vc :
  value_at Rat w a = Some va -> value_at Rat w b = Some vb ->
  value_at Rat w c = Some vc ->
  reduced va -> reduced vb -> reduced vc ->
  (exists v, returns Rat (dc_frac_mul a b) w v /\ returns Rat (dc_frac_mul b a) w v)
  /\ (exists v, returns Rat (s ← dc_frac_add b c; dc_frac_mul a s) w v
                /\ returns Rat (x ← dc_frac_mul a b; y ← dc_frac_mul a c;
                                dc_frac_add x y) w v)
  /\ returns Rat (dc_frac_sub a a) w (Complex df_zero df_zero).
Proof.
  intros Ha Hb Hc [[Par _] [Pai _]] [[Pbr _] [Pbi _]] [[Pcr _] [Pci _]].
  split; [|split].
  - exists (frac_product va vb). split; run_frac; try reflexivity.
    unfold frac_product. same_rational; ring.
  - exists (frac_product va (Complex (df_add (real vb) (real vc))
                                     (df_add (imag vb) (imag vc)))).
    split; run_frac; try reflexivity.
    unfold frac_product. cbn [real imag]. same_rational; ring.
  - run_frac. same_rational; change (df_to_Q df_zero) with 0%Q; ring.
Qed.

Lemma rational_ring_laws_witness :
  returns Rat (dc_frac_sub (Some 1%positive) (Some 1%positive)) sample_world
          (Complex df_zero df_zero).
Proof.
  apply (rational_ring_laws sample_world (Some 1%positive) (Some 2%positive)
           (Some 2%positive) (Complex (Frac 1 2) (Frac 1 3))
           (Complex (Frac 3 4) (Frac (-1) 1)) (Complex (Frac 3 4) (Frac (-1) 1)));
    first [reflexivity | repeat split; reflexivity].
Defined.

Lemma promote_Q (n : Z) : df_to_Q (Frac n 1) = inject_Z n.
Proof. reflexivity. Qed.

Ltac promoted_same :=
  apply reduced_unique;
  [ split; cbn [real imag promote];
    first [ apply df_add_reduced | apply df_sub_reduced | apply df_mul_reduced ];
    repeat first [ reflexivity | apply df_mul_pos ]
  | apply promote_reduced
  | cbn [real imag promote];
    repeat first [ rewrite df_add_Q by (repeat first [ reflexivity | apply df_mul_pos ])
                 | rewrite df_sub_Q by (repeat first [ reflexivity | apply df_mul_pos ])
                 | rewrite df_mul_Q by (repeat first [ reflexivity | apply df_mul_pos ]) ];
    rewrite !promote_Q; unfold Z.sub;
    rewrite ?inject_Z_plus, ?inject_Z_opp, ?inject_Z_mult; unfold di_int in *; ring
  | cbn [real imag promote];
    repeat first [ rewrite df_add_Q by (repeat first [ reflexivity | apply df_mul_pos ])
                 | rewrite df_sub_Q by (repeat first [ reflexivity | apply df_mul_pos ])
                 | rewrite df_mul_Q by (repeat first [ reflexivity | apply df_mul_pos ]) ];
    rewrite !promote_Q; unfold Z.sub;
    rewrite ?inject_Z_plus, ?inject_Z_opp, ?inject_Z_mult; unfold di_int in *; ring ].

(** X24: the promotion of Gaussian integers to rational complex numbers
    commutes with the arithmetic: promoting a sum, a difference or a
    product of live Gaussian integers with [dc_int_to_frac] returns the
    same components as promoting the operands and applying [dc_frac_add],
    [dc_frac_sub] or [dc_frac_mul]. *)
Theorem promotion_commutes_with_arithmetic w a b va vb :
  value_at Int w a = Some va -> value_at Int w b = Some vb ->
  (exists v, returns Rat (s ← dc_int_add a b; dc_int_to_frac s) w v
             /\ returns Rat (x ← dc_int_to_frac a; y ← dc_int_to_frac b;
                             dc_frac_add x y) w v)
  /\ (exists v, returns Rat (s ← dc_int_sub a b; dc_int_to_frac s) w v
                /\ returns Rat (x ← dc_int_to_frac a; y ← dc_int_to_frac b;
                                dc_frac_sub x y) w v)
  /\ (exists v, returns Rat (s ← dc_int_mul a b; dc_int_to_frac s) w v
                /\ returns Rat (x ← dc_int_to_frac a; y ← dc_int_to_frac b;
                                dc_frac_mul x y) w v).
Proof.
  intros Ha Hb. split; [|split].
  - exists (promote (Complex (real va + real vb) (imag va + imag vb))).
    split; run_frac; try reflexivity. promoted_same.
  - exists (promote (Complex (real va - real vb) (imag va - imag vb))).
    split; run_frac; try reflexivity. promoted_same.
  - exists (promote (Complex (real va * real vb - imag va * imag vb)
                             (real va * imag vb + imag va * real vb))).
    split; run_frac; try reflexivity. promoted_same.
Qed.

Lemma promotion_commutes_with_arithmetic_witness :
  exists v,
    returns Rat (s ← dc_int_mul (Some 1%positive) (Some 2%positive); dc_int_to_frac s)
            sample_world v
    /\ returns Rat (x ← dc_int_to_frac (Some 1%positive);
                    y ← dc_int_to_frac (Some 2%positive); dc_frac_mul x y)
               sample_world v.
Proof.
  apply (promotion_commutes_with_arithmetic sample_world (Some 1%positive)
           (Some 2%positive) (Complex 3 4) (Complex 1 (-2)));
    reflexivity.
Defined.

(** X25: for a live Gaussian integer whose components have magnitude at
    most [2^53], widening it to double directly with [dc_int_to_double]
    and widening it in two steps, [dc_int_to_frac] then
    [dc_frac_to_double], return the same double complex components. *)
Theorem widening_paths_agree w g v :
  value_at Int w g = Some v ->
  Z.abs (real v) <= 2 ^ 53 -> Z.abs (imag v) <= 2 ^ 53 ->
  exists d,
    returns Dbl (dc_int_to_double g) w d
    /\ returns Dbl (q ← dc_int_to_frac g; dc_frac_to_double q) w d.
Proof.
  intros Hg Hre Him.
  exists (Complex (double_of_Z (real v)) (double_of_Z (imag v))). split.
  - eexists _, _. split.
    + unfold dc_int_to_double. eval_step. eval_step.
      unfold dc_double_from_doubles, cscale, I, di_to_double. cbn [real imag].
      rewrite (double_of_Z_plus_zero _ _ Hre Him), (double_of_Z_times_one _ Him).
      eval_run.
    + apply (alloc_value_new Dbl).
  - eexists _, _. split.
    + eapply bind_intro; [apply dc_int_to_frac_eval; exact Hg|]. cbv beta.
      unfold dc_frac_to_double. eval_step.
      eapply bind_intro; [apply (fields_intro Rat), (alloc_value_new Rat)|].
      cbv beta zeta. cbn [value promote real imag].
      unfold df_to_double, di_to_double. cbn [numerator denominator].
      rewrite (double_of_Z_div_one _ Hre), (double_of_Z_div_one _ Him).
      unfold dc_double_from_doubles, cscale, I. cbn [real imag].
      rewrite (double_of_Z_plus_zero _ _ Hre Him), (double_of_Z_times_one _ Him).
      eval_run.
    + apply (alloc_value_new Dbl).
Qed.

Lemma widening_paths_agree_witness :
  exists d,
    returns Dbl (dc_int_to_double (Some 1%positive)) sample_world d
    /\ returns Dbl (q ← dc_int_to_frac (Some 1%positive); dc_frac_to_double q)
               sample_world d.
Proof.
  apply (widening_paths_agree sample_world (Some 1%positive) (Complex 3 4)).
  - reflexivity.
  - vm_compute. discriminate.
  - vm_compute. discriminate.
Defined.

(** ** Double complex addition *)

Lemma double_add_comm x y : double_add x y = double_add y x.
Proof.
  unfold double_add, SFadd.
  destruct x as [sx|sx| |sx mx ex], y as [sy|sy| |sy my ey];
    try reflexivity; try (destruct sx, sy; reflexivity).
  rewrite (Z.min_comm ey ex), Z.add_comm. reflexivity.
Qed.

Lemma double_sub_add_neg x y : double_sub x y = double_add x (double_neg y).
Proof.
  unfold double_sub, double_add, double_neg.
  destruct x as [sx|sx| |sx mx ex], y as [sy|sy| |sy my ey]; try reflexivity;
    destruct sx, sy; reflexivity.
Qed.

(** X26: [dc_double_add] is commutative on everything but the choice of
    NaN: on live operands each component of the sum in one order is NaN
    exactly when it is in the other order, and otherwise the two are the
    same double, infinities and the sign of a zero included; which NaN an
    order returns is not stated.  In the same sense [dc_double_sub a b]
    agrees with adding the negation of [b] to [a]. *)
Theorem double_addition_is_commutative w a b va vb :
  value_at Dbl w a = Some va -> value_at Dbl w b = Some vb ->
  (exists u v, returns Dbl (dc_double_add a b) w u
               /\ returns Dbl (dc_double_add b a) w v
               /\ complex_agree u v)
  /\ (exists u v, returns Dbl (dc_double_sub a b) w u
                  /\ returns Dbl (n ← dc_double_negate b; dc_double_add a n) w v
                  /\ complex_agree u v).
Proof.
  intros Ha Hb. split.
  - exists (cadd va vb), (cadd va vb). split; [|split; [|apply complex_agree_refl]].
    + eexists _, _. split; [unfold dc_double_add; eval_run|].
      apply (alloc_value_new Dbl).
    + eexists _, _. split; [unfold dc_double_add; eval_run|].
      rewrite (alloc_value_new Dbl). cbn [value]. unfold cadd.
      rewrite (double_add_comm (real vb)), (double_add_comm (imag vb)). reflexivity.
  - exists (csub va vb), (csub va vb). split; [|split; [|apply complex_agree_refl]].
    + eexists _, _. split; [unfold dc_double_sub; eval_run|].
      apply (alloc_value_new Dbl).
    + eexists _, _. split.
      * eapply bind_intro; [unfold dc_double_negate; eval_run|]. cbv beta.
        unfold dc_double_add. eval_step. eval_step.
        eapply bind_intro; [apply (fields_intro Dbl); live_now|].
        eapply bind_intro; [apply (fields_intro Dbl), (alloc_value_new Dbl)|].
        eval_run.
      * rewrite (alloc_value_new Dbl). cbn [value]. unfold csub, cadd, cneg.
        cbn [real imag]. rewrite !double_sub_add_neg. reflexivity.
Qed.

Lemma double_addition_is_commutative_witness :
  (exists u v,
      returns Dbl (dc_double_add (Some 1%positive) (Some 2%positive)) doubles_world u
      /\ returns Dbl (dc_double_add (Some 2%positive) (Some 1%positive)) doubles_world v
      /\ complex_agree u v)
  /\ (exists u v,
         returns Dbl (dc_double_sub (Some 1%positive) (Some 2%positive)) doubles_world u
         /\ returns Dbl (n ← dc_double_negate (Some 2%positive);
                         dc_double_add (Some 1%positive) n) doubles_world v
         /\ complex_agree u v).
Proof.
  exact (double_addition_is_commutative doubles_world
           (Some 1%positive) (Some 2%positive)
           (Complex double_one double_zero) (Complex double_zero double_one)
           eq_refl eq_refl).
Defined.
